(** * Discrete search space over segmentation DAGs

    A shallow embedding of
    [archai/search_spaces/discrete_search_spaces/segmentation_search_spaces/
    discrete_search_space_segmentation.py]: the value-domain sampler
    [random_neighbor], the node renamer [rename_dag_node_list] and the
    constructor and the operators of [DiscreteSearchSpaceSegmentation]
    ([__init__], [random_sample], [get_neighbors], [get_arch_repr],
    [load_from_graph], [crossover]).

    Python integers are [Z], strings are [string], dictionaries used as maps
    are [gmap]s, dictionaries whose iteration order is observed are
    insertion-ordered association lists.  Python's global [random] state and
    the [logger] are threaded explicitly in a state-and-exception monad. *)

From stdpp Require Import gmap strings list fin_maps pretty sorting.
From Stdlib Require Import ZArith QArith.

Open Scope Z_scope.

(** ** Exceptions, results, and the interpreter state *)

Inductive exn : Type :=
  | AssertionError
  | ValueError
  | IndexError
  | KeyError
  | TypeError
  | RuntimeError
  | UnboundLocalError
  | CompilerError (msg : string).

Inductive result (A : Type) : Type :=
  | Ok (a : A)
  | Raise (e : exn).
Arguments Ok {A} a.
Arguments Raise {A} e.

(** The part of the interpreter state the module reads or writes: the entropy
    consumed by [random] (a tape of draws; an exhausted tape yields 0) and the
    lines written with [logger.info]. *)
Record Env : Type := MkEnv { rng : list nat; log : list string }.

Definition M (A : Type) : Type := Env → result A * Env.

Definition ret {A} (a : A) : M A := λ s, (Ok a, s).
Definition raise {A} (e : exn) : M A := λ s, (Raise e, s).
Definition bind {A B} (m : M A) (k : A → M B) : M B :=
  λ s, match m s with
       | (Ok a, s') => k a s'
       | (Raise e, s') => (Raise e, s')
       end.
Definition lift {A} (r : result A) : M A := λ s, (r, s).

Declare Scope py_scope.
Delimit Scope py_scope with py.
Notation "'let*' x ':=' m 'in' k" := (bind m (λ x, k))
  (at level 10, x pattern, m at level 100, k at level 200) : py_scope.
Notation "m ';;' k" := (bind m (λ _, k))
  (at level 100, k at level 200, right associativity) : py_scope.
Open Scope py_scope.

(** Exception propagation without state, for expressions that neither draw
    entropy nor log. *)
Definition res_bind {A B} (r : result A) (k : A → result B) : result B :=
  match r with
  | Ok a => k a
  | Raise e => Raise e
  end.

(** A list comprehension whose element expression can raise. *)
Fixpoint res_map {A B} (f : A → result B) (l : list A) : result (list B) :=
  match l with
  | [] => Ok []
  | x :: l' => res_bind (f x) (λ y, res_bind (res_map f l') (λ ys, Ok (y :: ys)))
  end.

(** The same with effects, evaluated left to right. *)
Fixpoint mapM {A B} (f : A → M B) (l : list A) : M (list B) :=
  match l with
  | [] => ret []
  | x :: l' => let* y := f x in let* ys := mapM f l' in ret (y :: ys)
  end.

(** [assert c] *)
Definition py_assert (c : bool) : M unit :=
  if c then ret tt else raise AssertionError.

(** [logger.info(msg)] *)
Definition logger_info (msg : string) : M unit :=
  λ s, (Ok tt, MkEnv (rng s) (log s ++ [msg])).

(** One raw draw from the entropy tape. *)
Definition draw : M nat :=
  λ s, match rng s with
       | [] => (Ok 0%nat, s)
       | x :: t => (Ok x, MkEnv t (log s))
       end.

(** [random.randint(a, b)]: an integer of the closed range [a..b];
    [ValueError] on an empty range. *)
Definition randint (a b : Z) : M Z :=
  if decide (a ≤ b)
  then let* x := draw in ret (a + Z.of_nat x mod (b - a + 1))
  else raise ValueError.

(** Python list indexing [l[i]], negative indices counting from the end. *)
Definition py_index {A} (l : list A) (i : Z) : result A :=
  let n := Z.of_nat (length l) in
  let j := if decide (i < 0) then n + i else i in
  if decide (0 ≤ j < n)
  then match l !! Z.to_nat j with Some x => Ok x | None => Raise IndexError end
  else Raise IndexError.

(** [random.choice(seq)] *)
Definition random_choice {A} (l : list A) : M A :=
  match l with
  | [] => raise IndexError
  | _ => let* i := randint 0 (Z.of_nat (length l) - 1) in lift (py_index l i)
  end.

(** [random.sample(population, k)]: [k] elements drawn without replacement,
    in selection order; [ValueError] when [k] exceeds the population. *)
Fixpoint sample_loop {A} (k : nat) (pool : list A) : M (list A) :=
  match k with
  | O => ret []
  | S k' =>
      let* i := randint 0 (Z.of_nat (length pool) - 1) in
      let* x := lift (py_index pool i) in
      let* rest := sample_loop k' (delete (Z.to_nat i) pool) in
      ret (x :: rest)
  end.

Definition random_sample_k {A} (population : list A) (k : Z) : M (list A) :=
  if decide (0 ≤ k ≤ Z.of_nat (length population))
  then sample_loop (Z.to_nat k) population
  else raise ValueError.

(** ** Insertion-ordered dictionaries

    A Python [dict] iterates its keys in order of first insertion; assigning
    to an existing key keeps its position. *)
Section odict.
Context {K V : Type} `{EqDecision K}.

Fixpoint od_set (k : K) (v : V) (d : list (K * V)) : list (K * V) :=
  match d with
  | [] => [(k, v)]
  | (k', v') :: d' =>
      if decide (k = k') then (k, v) :: d' else (k', v') :: od_set k v d'
  end.

Fixpoint od_get (k : K) (d : list (K * V)) : option V :=
  match d with
  | [] => None
  | (k', v') :: d' => if decide (k = k') then Some v' else od_get k d'
  end.

Definition od_keys (d : list (K * V)) : list K := d.*1.
End odict.

(** [{x: i for i, x in enumerate(l)}], counting from [i]. *)
Fixpoint od_of_enumerate {K} `{EqDecision K} (i : nat) (l : list K)
    (d : list (K * nat)) : list (K * nat) :=
  match l with
  | [] => d
  | x :: l' => od_of_enumerate (S i) l' (od_set x i d)
  end.

(** [min(iterable, key=f)]: the first element with the least key;
    [ValueError] on an empty iterable. *)
Fixpoint py_min_from {A} (key : A → Z) (best : A) (l : list A) : A :=
  match l with
  | [] => best
  | x :: l' => py_min_from key (if decide (key x < key best) then x else best) l'
  end.

Definition py_min {A} (key : A → Z) (l : list A) : result A :=
  match l with
  | [] => Raise ValueError
  | x :: l' => Ok (py_min_from key x l')
  end.

(** ** [random_neighbor] (lines 20-35) *)

(** Lines 22-35, on the sorted copy of the domain. *)
Definition random_neighbor_sorted (param_values : list Z) (current_value : Z)
    : M Z :=
  let param2idx := od_of_enumerate 0 param_values [] in
  let* current_idx :=
    match od_get current_value param2idx with
    | Some idx => ret idx
    | None =>
        let* k := lift (py_min (λ k, Z.abs (k - current_value))
                               (od_keys param2idx)) in
        match od_get k param2idx with
        | Some idx => ret idx
        | None => raise KeyError
        end
    end in
  let* offset :=
    randint (if decide (0 < current_idx)%nat then -1 else 0)
            (if decide (Z.of_nat current_idx < Z.of_nat (length param_values) - 1)
             then 1 else 0) in
  lift (py_index param_values (Z.of_nat current_idx + offset)).

(** Line 21: [sorted(copy.deepcopy(param_values))] is the sorted list of the
    same integers, whichever stable sort produces it. *)
Definition random_neighbor (param_values : list Z) (current_value : Z) : M Z :=
  random_neighbor_sorted (merge_sort Z.le param_values) current_value.

(** ** Graph data model

    A node is the dictionary [{'name', 'op', 'scale', 'inputs'}].  An entry of
    ['inputs'] is a node name or [None] (crossover writes [None] into the slot
    of a reference it could not repair).  Node lists are taken as trees: no
    two nodes share one dictionary or one ['inputs'] list object (the
    store-level model further down drops this assumption). *)
Record Node : Type := MkNode {
  name : string;
  op : option string;
  scale : Z;
  inputs : list (option string)
}.

#[global] Instance Node_eq_dec : EqDecision Node.
Proof. solve_decision. Defined.

Definition set_name (s : string) (n : Node) : Node :=
  MkNode s (op n) (scale n) (inputs n).
Definition set_op (o : option string) (n : Node) : Node :=
  MkNode (name n) o (scale n) (inputs n).
Definition set_inputs (i : list (option string)) (n : Node) : Node :=
  MkNode (name n) (op n) (scale n) i.

(** ** [rename_dag_node_list] (lines 38-70) *)

(** [prefix + f'layer_{i}'] *)
Definition layer_name (prefix : string) (i : nat) : string :=
  prefix +:+ "layer_" +:+ pretty i.

(** Lines 51-58. *)
Definition rename_new_name (prefix : string) (add_input_output : bool)
    (len i : nat) : string :=
  if add_input_output then
    if decide (i = 0%nat) then "input"
    else if decide (Z.of_nat i = Z.of_nat len - 1) then "output"
    else layer_name prefix i
  else layer_name prefix i.

(** One element of the comprehension of lines 64-68: [None] and the empty
    string are falsy, a name outside [rename_map] is dropped. *)
Definition rename_input (rename_map : gmap string string)
    (inp_name : option string) : option (option string) :=
  match inp_name with
  | Some s => if decide (s = "") then None else Some <$> rename_map !! s
  | None => None
  end.

(** Lines 63-68. *)
Definition rename_inputs (rename_map : gmap string string)
    (inps : list (option string)) : list (option string) :=
  match inps with
  | [] => []
  | _ => omap (rename_input rename_map) inps
  end.

(** The [for] loop of lines 48-68 over the (copied) list, from index [i]. *)
Fixpoint rename_loop (prefix : string) (add_input_output : bool) (len : nat)
    (i : nat) (rename_map : gmap string string) (nodes : list Node)
    : list Node :=
  match nodes with
  | [] => []
  | node :: rest =>
      let '(rename_map, node) :=
        match rename_map !! name node with
        | None =>
            let new_name := rename_new_name prefix add_input_output len i in
            (<[name node := new_name]> rename_map, set_name new_name node)
        | Some _ => (rename_map, node)
        end in
      set_inputs (rename_inputs rename_map (inputs node)) node
        :: rename_loop prefix add_input_output len (S i) rename_map rest
  end.

Definition rename_dag_node_list (node_list : list Node) (prefix : string)
    (rename_input_output add_input_output : bool) : list Node :=
  let prefix := if decide (prefix = "") then "" else prefix +:+ "_" in
  let rename_map : gmap string string :=
    if rename_input_output then ∅
    else <["output" := "output"]> (<["input" := "input"]> ∅) in
  rename_loop prefix add_input_output (length node_list) 0 rename_map node_list.

(** ** External collaborators

    [SegmentationNasModel] (the compiler) and [tw.ModelStats] (the
    measurement) live outside this module; they enter as an interface. *)
Record ChannelCfg : Type := MkChannelCfg {
  base_channels : Z;
  delta_channels : Z;
  mult_delta : bool
}.

(** Keyword arguments of [SegmentationNasModel.sample_model]. *)
Record SampleArgs : Type := MkSampleArgs {
  sa_base_channels_list : list Z;
  sa_delta_channels_list : list Z;
  sa_post_upsample_layer_list : list Z;
  sa_nb_layers : Z;
  sa_max_downsample_factor : Z;
  sa_skip_connections : bool;
  sa_max_skip_connection_length : Z;
  sa_max_scale_delta : Z;
  sa_op_subset : list string;
  sa_mult_delta : bool;
  sa_img_size : Z
}.

Class Compiler : Type := {
  SegmentationNasModel : Type;
  (** [SegmentationNasModel(graph, channels_per_scale, post_upsample_layers,
      img_size=...)] *)
  new_model : list Node → ChannelCfg → Z → Z → result SegmentationNasModel;
  (** [SegmentationNasModel.sample_model(...)] *)
  sample_model : SampleArgs → M SegmentationNasModel;
  (** [list(model.graph.values())] *)
  graph_values : SegmentationNasModel → list Node;
  channels_per_scale : SegmentationNasModel → ChannelCfg;
  post_upsample_layers : SegmentationNasModel → Z;
  (** [model.edge_dict.keys()], each key ['u-v'] as the pair it splits into *)
  edge_dict_keys : SegmentationNasModel → list (string * string);
  model_img_size : SegmentationNasModel → Z;
  to_hash : SegmentationNasModel → string;
  (** [model.validate_forward(torch.randn(...)).shape] *)
  validate_forward : SegmentationNasModel → result (list Z);
  (** [tw.ModelStats(model, shape, clone_model=True).MAdd] *)
  MAdd : SegmentationNasModel → Z
}.

(** Values stored in a metadata dictionary. *)
Inductive MetaVal : Type :=
  | MNone
  | MStr (s : string)
  | MInt (z : Z).

Record ArchWithMetaData `{Compiler} : Type := MkArch {
  arch : SegmentationNasModel;
  metadata : gmap string MetaVal
}.

(** The attributes [__init__] leaves on [self] (lines 95-139). *)
Record DiscreteSearchSpaceSegmentation : Type := MkSpace {
  datasetname : string;
  operations : list string;
  encoder_features : list string;
  min_mac : Z;
  max_mac : Z;
  min_layers : Z;
  max_layers : Z;
  max_downsample_factor : Z;
  max_skip_connection_length : Z;
  max_scale_delta : Z;
  post_upsample_layers_list : list Z;
  base_channels_list : list Z;
  delta_channels_list : list Z;
  space_mult_delta : bool;
  skip_connections : bool;
  img_size : Z
}.

(** [str(e)] *)
Definition exn_str (e : exn) : string :=
  match e with
  | AssertionError => ""
  | ValueError => "ValueError"
  | IndexError => "IndexError"
  | KeyError => "KeyError"
  | TypeError => "TypeError"
  | RuntimeError => "RuntimeError"
  | UnboundLocalError => "UnboundLocalError"
  | CompilerError msg => msg
  end.

(** [d[key]] on a metadata dictionary. *)
Definition meta_get (d : gmap string MetaVal) (key : string) : result MetaVal :=
  match d !! key with
  | Some v => Ok v
  | None => Raise KeyError
  end.

(** [a + b] on metadata values: concatenation of strings, sum of integers,
    [TypeError] otherwise. *)
Definition meta_add (a b : MetaVal) : result MetaVal :=
  match a, b with
  | MStr x, MStr y => Ok (MStr (x +:+ y))
  | MInt x, MInt y => Ok (MInt (x + y))
  | _, _ => Raise TypeError
  end.

(** ** Operators of [DiscreteSearchSpaceSegmentation] *)

Section search_space.
Context `{Compiler} (self : DiscreteSearchSpaceSegmentation).

(** [min_mac < MAdd < max_mac] (lines 169 and 261). *)
Definition within_mac_bounds (madd : Z) : bool :=
  bool_decide (madd > min_mac self) && bool_decide (madd < max_mac self).

(** *** [random_sample] (lines 142-180)

    The [while not found_valid] loop has no bound; [fuel] bounds the number
    of iterations the model runs, and [None] says the loop was still
    running when the fuel ran out. *)
Fixpoint random_sample (fuel : nat) : M (option ArchWithMetaData) :=
  match fuel with
  | O => ret None
  | S fuel' =>
      let* num_layers := randint (min_layers self) (max_layers self) in
      let* model := sample_model
        (MkSampleArgs (base_channels_list self) (delta_channels_list self)
           (post_upsample_layers_list self) num_layers
           (max_downsample_factor self) (skip_connections self)
           (max_skip_connection_length self) (max_scale_delta self)
           (operations self) (space_mult_delta self) (img_size self)) in
      let found_valid := within_mac_bounds (MAdd model) in
      let meta_data : gmap string MetaVal :=
        <["macs" := MInt (MAdd model)]>
          (<["parent" := MNone]>
             (<["archid" := MStr (to_hash model)]>
                (<["datasetname" := MStr (datasetname self)]> ∅))) in
      let arch_meta := MkArch _ model meta_data in
      if found_valid then ret (Some arch_meta) else random_sample fuel'
  end.

(** *** [get_neighbors] (lines 184-272) *)

(** Line 226. *)
Definition out_degree (edges : list (string * string)) (x : option string)
    : nat :=
  length (filter (λ e, Some e.1 = x) edges).

(** The local variables that outlive one iteration of the [while] loop. *)
Record NbrState : Type := MkNbrState {
  neighbors : list ArchWithMetaData;
  nb_tries : Z;
  nbr_model : option SegmentationNasModel  (* [None]: not yet bound *)
}.

(** Lines 253-256: the [except] clause.  Reading [nbr_model] before its
    first assignment raises [UnboundLocalError]. *)
Definition neighbor_failed (base_model : ArchWithMetaData) (e : exn)
    (st : NbrState) : M NbrState :=
  match nbr_model st with
  | None => raise UnboundLocalError
  | Some m =>
      logger_info ("Neighbor generation " +:+ to_hash (arch base_model)
                     +:+ " -> " +:+ to_hash m +:+ " failed");;
      logger_info (exn_str e);;
      ret st
  end.

(** Lines 228-239: the rewiring of the chosen node's inputs. *)
Definition rewire (graph : list Node) (edges : list (string * string))
    (chosen_node_idx : Z) (node : Node) : M Node :=
  if decide (name node ≠ "input") then
    let max_inputs := 3 in
    let* r := randint 1 max_inputs in
    let k := Z.min chosen_node_idx r in
    let* input_idxs :=
      random_sample_k (seqZ 0 chosen_node_idx) k in
    let kept := filter (λ inp, (out_degree edges inp ≤ 1)%nat) (inputs node) in
    let* names :=
      lift (res_map (λ idx, res_bind (py_index graph idx)
                              (λ n, Ok (Some (name n)))) input_idxs) in
    let added := filter (λ nm, nm ∉ kept) names in
    ret (set_inputs (kept ++ added) node)
  else ret node.

(** Lines 191-239: the copy of the base graph with one node mutated, and
    the mutated channel configuration and post-upsample count. *)
Definition mutate_candidate (base_model : ArchWithMetaData)
    : M (list Node * ChannelCfg * Z) :=
  let graph := graph_values (arch base_model) in
  let channels_per_scale0 := channels_per_scale (arch base_model) in
  (* sanity check the graph *)
  py_assert (bool_decide (1 < length graph)%nat);;
  let* last := lift (py_index graph (-1)) in
  py_assert (bool_decide (name last = "output"));;
  let* first := lift (py_index graph 0) in
  py_assert (bool_decide (name first = "input"));;
  (* channel and post-upsample mutation *)
  let* bc := random_neighbor (base_channels_list self)
               (base_channels channels_per_scale0) in
  let* dc := random_neighbor (delta_channels_list self)
               (delta_channels channels_per_scale0) in
  let channels_per_scale1 :=
    MkChannelCfg bc dc (mult_delta (channels_per_scale (arch base_model))) in
  let* post_upsample_layers1 :=
    random_neighbor (post_upsample_layers_list self)
      (post_upsample_layers (arch base_model)) in
  (* node mutation *)
  let* chosen_node_idx := randint 1 (Z.of_nat (length graph) - 1) in
  let* node := lift (py_index graph chosen_node_idx) in
  let* node :=
    if decide (name node ≠ "output")
    then let* o := random_choice (operations self) in ret (set_op (Some o) node)
    else ret node in
  let edges := edge_dict_keys (arch base_model) in
  let* node := rewire graph edges chosen_node_idx node in
  let graph := <[Z.to_nat chosen_node_idx := node]> graph in
  ret (graph, channels_per_scale1, post_upsample_layers1).

(** Lines 242-270: compile, validate and measure the candidate. *)
Definition compile_candidate (base_model : ArchWithMetaData)
    (parent_id : MetaVal) (st : NbrState)
    (cand : list Node * ChannelCfg * Z) : M NbrState :=
  match new_model cand.1.1 cand.1.2 cand.2 (img_size self) with
  | Raise e => neighbor_failed base_model e st
  | Ok m =>
      let st := MkNbrState (neighbors st) (nb_tries st) (Some m) in
      match validate_forward m with
      | Raise e => neighbor_failed base_model e st
      | Ok out_shape =>
          if decide (out_shape = [1; 19; model_img_size m; model_img_size m])
          then
            if within_mac_bounds (MAdd m) then
              let meta : gmap string MetaVal :=
                <["macs" := MInt (MAdd m)]>
                  (<["parent" := parent_id]>
                     (<["archid" := MStr (to_hash m)]>
                        (<["datasetname" := MStr (datasetname self)]> ∅))) in
              ret (MkNbrState (neighbors st ++ [MkArch _ m meta])
                     (nb_tries st) (Some m))
            else
              logger_info ("Model " +:+ to_hash (arch base_model)
                +:+ " neighbor MACs " +:+ pretty (MAdd m)
                +:+ " falls outside of acceptable range. Retrying (nb_tries = "
                +:+ pretty (nb_tries st) +:+ ")");;
              ret st
          else neighbor_failed base_model AssertionError st
      end
  end.

(** Lines 190-270: one iteration of the [while] loop. *)
Definition get_neighbors_body (base_model : ArchWithMetaData)
    (parent_id : MetaVal) (st : NbrState) : M NbrState :=
  let st := MkNbrState (neighbors st) (nb_tries st + 1) (nbr_model st) in
  let* cand := mutate_candidate base_model in
  compile_candidate base_model parent_id st cand.

(** Line 189: [while nb_tries < patience and len(neighbors) == 0].  Every
    iteration increments [nb_tries], so [Z.to_nat patience] iterations of
    fuel are never used up while the condition still holds (lemma
    [get_neighbors_loop_exit]). *)
Fixpoint get_neighbors_loop (fuel : nat) (base_model : ArchWithMetaData)
    (parent_id : MetaVal) (patience : Z) (st : NbrState) : M NbrState :=
  match fuel with
  | O => ret st
  | S fuel' =>
      if bool_decide (nb_tries st < patience)
         && bool_decide (length (neighbors st) = 0%nat)
      then
        let* st := get_neighbors_body base_model parent_id st in
        get_neighbors_loop fuel' base_model parent_id patience st
      else ret st
  end.

(** [get_neighbors] up to its [return], with the loop's final locals. *)
Definition get_neighbors_run (base_model : ArchWithMetaData) (patience : Z)
    : M NbrState :=
  let* parent_id := lift (meta_get (metadata base_model) "archid") in
  get_neighbors_loop (Z.to_nat patience) base_model parent_id patience
    (MkNbrState [] 0 None).

Definition get_neighbors (base_model : ArchWithMetaData) (patience : Z)
    : M (list ArchWithMetaData) :=
  let* st := get_neighbors_run base_model patience in
  ret (neighbors st).
End search_space.

(** ** Encoding, loading and crossover *)

(** A float tensor, by rows: two-dimensional, except for [[]], which is
    [torch.tensor([])], of one dimension and no element. *)
Definition Tensor : Type := list (list Q).

(** [len(x.shape)] *)
Definition ndim (t : Tensor) : nat :=
  match t with [] => 1%nat | _ :: _ => 2%nat end.

(** [x.shape] of a tensor with at least one row. *)
Definition shape (t : Tensor) : nat * nat :=
  (length t, match t with [] => 0%nat | r :: _ => length r end).

(** [torch.tensor(rows, dtype=torch.float)] of boolean rows. *)
Definition tensor_of_bools (rows : list (list bool)) : Tensor :=
  fmap (M:=list) (fmap (M:=list) (λ b : bool, if b then 1%Q else 0%Q)) rows.

(** Rounding of an integer to [p] significant bits, to nearest, ties to
    even. *)
Definition round_bits (p n : Z) : Z :=
  let a := Z.abs n in
  let e := Z.log2 a + 1 - p in
  if decide (e ≤ 0) then n
  else
    let q := a `div` 2 ^ e in
    let r := a `mod` 2 ^ e in
    let half := 2 ^ (e - 1) in
    let q' := if decide (half < r ∨ (r = half ∧ Z.odd q = true))
              then q + 1 else q in
    Z.sgn n * (q' * 2 ^ e).

(** [n / 64] as a float tensor stores it: Python's true division gives the
    double nearest to the quotient, and [torch.tensor(..., dtype=torch.float)]
    the float32 nearest to that double.  Dividing by 64 moves the exponent
    only, so the mantissa of [n] is rounded to 53 bits and then to 24.  The
    exponent is not bounded here: quotients beyond the range of float32 are
    not modelled. *)
Definition float32_div64 (n : Z) : Q :=
  (inject_Z (round_bits 24 (round_bits 53 n)) / 64)%Q.

(** [torch.cat(ts, axis=1)]: fails on an empty list and on row counts that
    differ; the tensors of one dimension and no element are skipped, and
    when all are skipped the result is such a tensor. *)
Definition torch_cat_axis1 (ts : list Tensor) : result Tensor :=
  match ts with
  | [] => Raise RuntimeError
  | _ :: _ =>
      match filter (λ t : Tensor, t ≠ []) ts with
      | [] => Ok []
      | t :: ts' =>
          foldl (λ acc t',
                   res_bind acc (λ a,
                     if decide (length a = length t')
                     then Ok (zip_with app a t')
                     else Raise RuntimeError))
                (Ok t) ts'
      end
  end.

(** [{n['name']: i for i, n in enumerate(...)}], counting from [i]; a later
    node wins a duplicated name. *)
Fixpoint name2idx_from (i : nat) (names : list string) (m : gmap string nat)
    : gmap string nat :=
  match names with
  | [] => m
  | x :: names' => name2idx_from (S i) names' (<[x := i]> m)
  end.

(** [d[key]] where [key] may be [None]. *)
Definition idx_get (d : gmap string nat) (key : option string) : result nat :=
  match key with
  | Some k => match d !! k with Some i => Ok i | None => Raise KeyError end
  | None => Raise KeyError
  end.

(** [torch_geometric.data.Data(x=..., edge_index=..., archid=...)];
    [edge_index] is the transposed edge list: the row of sources and the row
    of destinations. *)
Record Data : Type := MkData {
  data_x : Tensor;
  data_edge_index : list nat * list nat;
  data_archid : MetaVal
}.

Section encode_and_crossover.
Context `{Compiler} (self : DiscreteSearchSpaceSegmentation).

(** Line 280. *)
Definition onehot {A} `{EqDecision A} (x : A) (categories : list A)
    : list bool :=
  (λ category, bool_decide (category = x)) <$> categories.

(** Lines 305-309: the edge list before transposition. *)
Definition arch_edges (graph : list Node) : result (list (nat * nat)) :=
  let nodename2idx := name2idx_from 0 (name <$> graph) ∅ in
  res_bind
    (res_map (λ u,
       res_map (λ v_name,
         res_bind (idx_get nodename2idx v_name) (λ v,
         res_bind (idx_get nodename2idx (Some (name u))) (λ ui,
         Ok (v, ui)))) (inputs u)) graph)
    (λ ess, Ok (concat ess)).

(** Lines 281-300: the node feature matrix. *)
Definition arch_features (graph : list Node) (ch_map : ChannelCfg)
    : result Tensor :=
  let scale_levels := [1; 2; 4; 8; 16] in
  let x : list Tensor := [] in
  let x := if decide ("scale" ∈ encoder_features self)
           then x ++ [tensor_of_bools
                        ((λ n, onehot (scale n) scale_levels) <$> graph)]
           else x in
  let x := if decide ("op" ∈ encoder_features self)
           then x ++ [tensor_of_bools
                        ((λ n, onehot (op n) (Some <$> operations self))
                           <$> graph)]
           else x in
  let x := if decide ("channels" ∈ encoder_features self)
           then x ++ [fmap (M:=list)
                        (λ _, [float32_div64 (base_channels ch_map);
                               float32_div64 (delta_channels ch_map)])
                        graph]
           else x in
  torch_cat_axis1 x.

(** *** [get_arch_repr] (lines 275-313) *)
Definition get_arch_repr (a : ArchWithMetaData) : M Data :=
  let graph := graph_values (arch a) in
  let* x := lift (arch_features graph (channels_per_scale (arch a))) in
  py_assert (bool_decide (ndim x = 2%nat ∧ (shape x).1 = length graph));;
  let* edges := lift (arch_edges graph) in
  let edge_index := (edges.*1, edges.*2) in
  let* archid := lift (meta_get (metadata a) "archid") in
  ret (MkData x edge_index archid).

(** *** [load_from_graph] (lines 315-326) *)
Definition load_from_graph (graph : list Node) (cfg : ChannelCfg)
    (post_upsample : Z) : M ArchWithMetaData :=
  let* model := lift (new_model graph cfg post_upsample (img_size self)) in
  ret (MkArch _ model
         (<["parent" := MNone]>
            (<["archid" := MStr (to_hash model)]>
               (<["datasetname" := MStr (datasetname self)]> ∅)))).

(** *** [crossover] (lines 337-433) *)

(** Lines 366-371. *)
Definition right_candidates (left_g right_g : list Node)
    (right_n : list string) (left_pivot_idx : Z) : result (list nat) :=
  res_bind (py_index left_g left_pivot_idx) (λ pivot,
    Ok (filter (λ p : nat * Node,
                  scale p.2 = scale pivot
                  ∧ (0 < p.1)%nat
                  ∧ Z.of_nat p.1 < Z.of_nat (length right_n) - 1)
          (imap (λ i fields, (i, fields)) right_g)).*1).

(** Lines 389-400: one slot of [fields['inputs']].  The scale is read
    from [right_g], whose nodes the repair shares with [right_half]; the
    repair writes ['inputs'] only, so the read sees the original value. *)
Definition repair_input (left_half right_g : list Node)
    (right_n : list string) (right_pivot_idx : nat)
    (right_node2idx : gmap string nat) (inp : option string)
    : M (option string) :=
  if decide (inp ∈ (Some <$> drop right_pivot_idx right_n)) then ret inp
  else
    let* idx := lift (idx_get right_node2idx inp) in
    let* orig := lift (py_index right_g (Z.of_nat idx)) in
    let candidates :=
      name <$> filter (λ n, scale n = scale orig) left_half in
    match candidates with
    | [] => ret None
    | _ => let* c := random_choice candidates in ret (Some c)
    end.

(** Lines 386-400 for one node of [right_half]. *)
Definition repair_node (left_half right_g : list Node)
    (right_n : list string) (right_pivot_idx : nat)
    (right_node2idx : gmap string nat) (fields : Node) : M Node :=
  let* inps := mapM (repair_input left_half right_g right_n right_pivot_idx
                       right_node2idx) (inputs fields) in
  ret (set_inputs inps fields).

(** Lines 377-410: split at the pivots, repair, reconnect, rename. *)
Definition splice (left_g right_g : list Node) (right_n : list string)
    (left_pivot : string) (left_pivot_idx right_pivot_idx : nat)
    : M (list Node) :=
  let left_half := take (S left_pivot_idx) left_g in
  let right_half := drop right_pivot_idx right_g in
  let right_node2idx := name2idx_from 0 right_n ∅ in
  let* repaired :=
    mapM (repair_node left_half right_g right_n right_pivot_idx
            right_node2idx) (reverse right_half) in
  let right_half := reverse repaired in
  (* right_half[-1]['name'] = 'output' *)
  let* right_half :=
    match right_half with
    | [] => raise IndexError
    | _ => ret (alter (set_name "output") (length right_half - 1)%nat
                  right_half)
    end in
  (* right_half[0]['inputs'].append(left_pivot) *)
  let* first := lift (py_index right_half 0) in
  let right_half :=
    if decide (Some left_pivot ∈ inputs first) then right_half
    else alter (λ n, set_inputs (inputs n ++ [Some left_pivot]) n) 0%nat
           right_half in
  ret (rename_dag_node_list (left_half ++ right_half) "" true true).

(** Lines 357-410: one iteration of the [while] loop; [None] when the
    right graph has no pivot of the left pivot's scale. *)
Definition crossover_attempt (left_g right_g : list Node)
    (left_n right_n : list string) : M (option (list Node)) :=
  let* left_pivot_idx := randint 1 (Z.of_nat (length left_n) - 2) in
  let* left_pivot := lift (py_index left_n left_pivot_idx) in
  let* candidates :=
    lift (right_candidates left_g right_g right_n left_pivot_idx) in
  match candidates with
  | [] => ret None
  | _ =>
      let* right_pivot_idx := random_choice candidates in
      let* result_g := splice left_g right_g right_n left_pivot
                         (Z.to_nat left_pivot_idx) right_pivot_idx in
      ret (Some result_g)
  end.

(** Line 356: [while result_g is None and nb_tries < patience]; as in
    [get_neighbors_loop], [Z.to_nat patience] iterations of fuel suffice
    (lemma [crossover_loop_exit]). *)
Fixpoint crossover_loop (fuel : nat) (patience : Z)
    (left_g right_g : list Node) (left_n right_n : list string)
    (result_g : option (list Node)) (nb_tries : Z)
    : M (option (list Node) * Z) :=
  match fuel with
  | O => ret (result_g, nb_tries)
  | S fuel' =>
      match result_g with
      | None =>
          if bool_decide (nb_tries < patience) then
            let nb_tries := nb_tries + 1 in
            let* result_g := crossover_attempt left_g right_g left_n right_n in
            crossover_loop fuel' patience left_g right_g left_n right_n
              result_g nb_tries
          else ret (result_g, nb_tries)
      | Some _ => ret (result_g, nb_tries)
      end
  end.

(** How control leaves lines 340-410. *)
Inductive SpliceExit : Type :=
  | Degenerate                      (* the [return] of line 350 *)
  | Looped (result_g : option (list Node)) (nb_tries : Z).

(** Lines 340-410. *)
Definition crossover_splice (model_1 model_2 : ArchWithMetaData)
    (patience : Z) : M (ArchWithMetaData * ArchWithMetaData * SpliceExit) :=
  let* ms := random_sample_k [model_1; model_2] 2 in
  match ms with
  | [left_m; right_m] =>
      let left_g := rename_dag_node_list (graph_values (arch left_m))
                      "left" true false in
      let right_g := rename_dag_node_list (graph_values (arch right_m))
                       "right" true false in
      let left_n := name <$> left_g in
      let right_n := name <$> right_g in
      if decide (length left_n ≤ 2 ∨ length right_n ≤ 2)%nat
      then ret (left_m, right_m, Degenerate)
      else
        let* r := crossover_loop (Z.to_nat patience) patience left_g
                    right_g left_n right_n None 0 in
        ret (left_m, right_m, Looped r.1 r.2)
  | _ => raise ValueError
  end.

(** Lines 412-433. *)
Definition crossover_build (left_m right_m : ArchWithMetaData)
    (result_g : list Node) : M ArchWithMetaData :=
  let* ch_map := random_choice [channels_per_scale (arch left_m);
                                channels_per_scale (arch right_m)] in
  let* post_upsample := random_choice [post_upsample_layers (arch left_m);
                                       post_upsample_layers (arch right_m)] in
  let* built := load_from_graph result_g
                  (MkChannelCfg (base_channels ch_map)
                     (delta_channels ch_map) (mult_delta ch_map))
                  post_upsample in
  (* left_m.metadata['archid'] + ',' + right_m.metadata['archid'],
     evaluated from left to right *)
  let* l_id := lift (meta_get (metadata left_m) "archid") in
  let* l_comma := lift (meta_add l_id (MStr ",")) in
  let* r_id := lift (meta_get (metadata right_m) "archid") in
  let* parents := lift (meta_add l_comma r_id) in
  ret (MkArch _ (arch built) (<["parents" := parents]> (metadata built))).

Definition crossover (model_1 model_2 : ArchWithMetaData) (patience : Z)
    : M (option ArchWithMetaData) :=
  let* r := crossover_splice model_1 model_2 patience in
  let left_m := r.1.1 in
  let right_m := r.1.2 in
  match r.2 with
  | Degenerate => ret None
  | Looped None _ => ret None
  | Looped (Some []) _ => ret None          (* [if result_g:] on [[]] *)
  | Looped (Some result_g) _ =>
      let* a := crossover_build left_m right_m result_g in
      ret (Some a)
  end.
End encode_and_crossover.

(** ** A stub compiler for concrete runs

    The model it builds is the tuple of the constructor's arguments; the
    constructor and the shape validation succeed or fail as the two flags say,
    and the measured cost is a constant. *)
Record StubModel : Type := MkStub {
  sm_graph : list Node;
  sm_cfg : ChannelCfg;
  sm_post_upsample : Z;
  sm_img_size : Z
}.

Definition chain3 : list Node :=
  [ MkNode "input" None 1 [];
    MkNode "layer_0" (Some "conv") 1 [Some "input"];
    MkNode "output" None 1 [Some "layer_0"] ].

Definition stub_edges (g : list Node) : list (string * string) :=
  concat ((λ u, omap (λ v, (λ s, (s, name u)) <$> v) (inputs u)) <$> g).

Definition stub_compiler (ctor_ok shape_ok : bool) (madd : Z) : Compiler := {|
  SegmentationNasModel := StubModel;
  new_model g c p i :=
    if ctor_ok then Ok (MkStub g c p i)
    else Raise (CompilerError "construction failed");
  sample_model args := ret (MkStub chain3 (MkChannelCfg 8 8 false) 1 (sa_img_size args));
  graph_values := sm_graph;
  channels_per_scale := sm_cfg;
  post_upsample_layers := sm_post_upsample;
  edge_dict_keys m := stub_edges (sm_graph m);
  model_img_size := sm_img_size;
  to_hash m := String.concat "," (name <$> sm_graph m);
  validate_forward m :=
    if shape_ok then Ok [1; 19; sm_img_size m; sm_img_size m]
    else Raise (CompilerError "shape mismatch");
  MAdd _ := madd
|}.

(** A search space as [__init__] builds it from its default arguments, with
    two operators and the given MAC bounds and encoder features. *)
Definition example_space (features : list string) (lo hi : Z)
    : DiscreteSearchSpaceSegmentation :=
  MkSpace "cityscapes" ["conv"; "pool"] features lo hi 1 12 16 3 1
    [1; 2; 3] [8; 16; 24; 32; 40; 48] [8; 16; 24; 32; 40; 48] false true 256.

(** A base graph with four interior nodes. *)
Definition chain6 : list Node :=
  [ MkNode "input" None 1 [];
    MkNode "layer_0" (Some "conv") 1 [Some "input"];
    MkNode "layer_1" (Some "conv") 2 [Some "layer_0"];
    MkNode "layer_2" (Some "pool") 2 [Some "layer_1"];
    MkNode "layer_3" (Some "conv") 1 [Some "layer_2"; Some "layer_0"];
    MkNode "output" None 1 [Some "layer_3"] ].

Definition stub_arch `{Compiler} (m : SegmentationNasModel) (id : string)
    : ArchWithMetaData :=
  MkArch _ m (<["parent" := MNone]>
                (<["archid" := MStr id]>
                   (<["datasetname" := MStr "cityscapes"]> ∅))).

Definition env0 (tape : list nat) : Env := MkEnv tape [].

(** The architecture [random_sample] returns from the stub compiler. *)
Definition stub_arch_sampled : @ArchWithMetaData (stub_compiler true true 10) :=
  MkArch (stub_compiler true true 10)
    (MkStub chain3 (MkChannelCfg 8 8 false) 1 256)
    (<["macs" := MInt 10]>
       (<["parent" := MNone]>
          (<["archid" := MStr "input,layer_0,output"]>
             (<["datasetname" := MStr "cityscapes"]> ∅)))).

(** The merged node list of crossing [chain6] with itself at left pivot 1
    and right pivot 3 (draws [0; 2; 2; ...]). *)
Definition merged_example : list Node :=
  [ MkNode "input" None 1 [];
    MkNode "layer_1" (Some "conv") 1 [Some "input"];
    MkNode "layer_2" (Some "conv") 2 [Some "layer_1"];
    MkNode "layer_3" (Some "pool") 2 [Some "layer_2"];
    MkNode "layer_4" (Some "pool") 2 [Some "layer_3"];
    MkNode "layer_5" (Some "conv") 1 [Some "layer_4"; Some "input"];
    MkNode "output" None 1 [Some "layer_5"] ].

(** The base architectures of the concrete runs. *)
Definition stub_model (g : list Node) : StubModel :=
  MkStub g (MkChannelCfg 8 8 false) 1 256.

Definition headless : list Node :=
  [ MkNode "input" None 1 [];
    MkNode "layer_0" (Some "conv") 1 [Some "input"] ].

(** The three-node graph of the encoding scenario; the operator and scale of
    the two sentinel nodes are left open. *)
Definition scenario_graph (op_in op_out : option string) (sc_in sc_out : Z)
    : list Node :=
  [ MkNode "input" op_in sc_in [];
    MkNode "layer_0" (Some "conv") 1 [Some "input"];
    MkNode "output" op_out sc_out [Some "layer_0"] ].

(** The store-level module below reuses the source's function names; these
    abbreviations keep the value-level renaming in reach next to them. *)
Abbreviation value_rename_loop := rename_loop.
Abbreviation value_rename_dag_node_list := rename_dag_node_list.

(** * The store-level model

    The value-level model above cannot say that an argument is left
    unchanged: its values have no identity.  This module runs the same code
    on a store of mutable objects: node dictionaries and their ['inputs']
    lists live at locations, [copy.deepcopy] allocates, and assignments to
    ['name'], ['op'], ['inputs'] and to the slots of an ['inputs'] list write
    to the store.  Lists of nodes are sequences of locations; the module
    never assigns to a slot of such a list. *)
Module Store.

Abbreviation loc := nat.

Inductive Obj : Type :=
  | ONode (nm : string) (o : option string) (sc : Z) (inp : loc)
  | OList (items : list (option string))
  | OInts (items : list Z).

(** A location is the index of its object; allocation appends. *)
Record World : Type := MkWorld { env : Env; heap : list Obj }.

Definition SM (A : Type) : Type := World → result A * World.

Definition sret {A} (a : A) : SM A := λ w, (Ok a, w).
Definition sraise {A} (e : exn) : SM A := λ w, (Raise e, w).
Definition sbind {A B} (m : SM A) (k : A → SM B) : SM B :=
  λ w, match m w with
       | (Ok a, w') => k a w'
       | (Raise e, w') => (Raise e, w')
       end.
(** Code that touches only the entropy and the log. *)
Definition lift_m {A} (m : M A) : SM A :=
  λ w, let r := m (env w) in (r.1, MkWorld r.2 (heap w)).
Definition lift_r {A} (r : result A) : SM A := λ w, (r, w).

Declare Scope store_scope.
Delimit Scope store_scope with store.
Notation "'let*' x ':=' m 'in' k" := (sbind m (λ x, k))
  (at level 10, x pattern, m at level 100, k at level 200) : store_scope.
Notation "m ';;' k" := (sbind m (λ _, k))
  (at level 100, k at level 200, right associativity) : store_scope.
Local Open Scope store_scope.

Definition alloc (o : Obj) : SM loc :=
  λ w, (Ok (length (heap w)), MkWorld (env w) (heap w ++ [o])).

(** A dangling location or an object of the wrong kind is a [TypeError]. *)
Definition load (l : loc) : SM Obj :=
  λ w, match heap w !! l with
       | Some o => (Ok o, w)
       | None => (Raise TypeError, w)
       end.

Definition store (l : loc) (o : Obj) : SM unit :=
  λ w, if decide (l < length (heap w))%nat
       then (Ok tt, MkWorld (env w) (<[l := o]> (heap w)))
       else (Raise TypeError, w).

(** The fields of a node dictionary; ['inputs'] holds a reference. *)
Record Fields : Type := MkFields {
  f_name : string;
  f_op : option string;
  f_scale : Z;
  f_inputs : loc
}.

Definition load_node (l : loc) : SM Fields :=
  let* o := load l in
  match o with
  | ONode nm o sc inp => sret (MkFields nm o sc inp)
  | _ => sraise TypeError
  end.

Definition load_list (l : loc) : SM (list (option string)) :=
  let* o := load l in
  match o with
  | OList items => sret items
  | _ => sraise TypeError
  end.

Definition load_ints (l : loc) : SM (list Z) :=
  let* o := load l in
  match o with
  | OInts items => sret items
  | _ => sraise TypeError
  end.

(** [node['name'] = s], [node['op'] = o], [node['inputs'] = <list at i>] *)
Definition set_field_name (l : loc) (s : string) : SM unit :=
  let* f := load_node l in
  store l (ONode s (f_op f) (f_scale f) (f_inputs f)).
Definition set_field_op (l : loc) (o : option string) : SM unit :=
  let* f := load_node l in
  store l (ONode (f_name f) o (f_scale f) (f_inputs f)).
Definition set_field_inputs (l : loc) (i : loc) : SM unit :=
  let* f := load_node l in
  store l (ONode (f_name f) (f_op f) (f_scale f) i).

Fixpoint smapM {A B} (f : A → SM B) (l : list A) : SM (list B) :=
  match l with
  | [] => sret []
  | x :: l' => let* y := f x in let* ys := smapM f l' in sret (y :: ys)
  end.

Fixpoint siter {A} (f : A → SM unit) (l : list A) : SM unit :=
  match l with
  | [] => sret tt
  | x :: l' => f x;; siter f l'
  end.

(** The value a node dictionary holds. *)
Definition read_node (l : loc) : SM Node :=
  let* f := load_node l in
  let* items := load_list (f_inputs f) in
  sret (MkNode (f_name f) (f_op f) (f_scale f) items).

Definition read_nodes (ls : list loc) : SM (list Node) := smapM read_node ls.

(** *** [copy.deepcopy]

    The memo maps an object already copied to its copy, so that sharing
    inside the copied structure is preserved. *)
Definition deepcopy_inputs (memo : gmap loc loc) (l : loc)
    : SM (loc * gmap loc loc) :=
  match memo !! l with
  | Some l' => sret (l', memo)
  | None =>
      let* items := load_list l in
      let* l' := alloc (OList items) in
      sret (l', <[l := l']> memo)
  end.

Definition deepcopy_node (memo : gmap loc loc) (l : loc)
    : SM (loc * gmap loc loc) :=
  match memo !! l with
  | Some l' => sret (l', memo)
  | None =>
      let* f := load_node l in
      let* r := deepcopy_inputs memo (f_inputs f) in
      let* l' := alloc (ONode (f_name f) (f_op f) (f_scale f) r.1) in
      sret (l', <[l := l']> r.2)
  end.

Fixpoint deepcopy_nodes (memo : gmap loc loc) (ls : list loc)
    : SM (list loc) :=
  match ls with
  | [] => sret []
  | l :: ls' =>
      let* r := deepcopy_node memo l in
      let* rest := deepcopy_nodes r.2 ls' in
      sret (r.1 :: rest)
  end.

Definition deepcopy (ls : list loc) : SM (list loc) := deepcopy_nodes ∅ ls.

(** *** [random_neighbor] (lines 20-35) *)
Definition random_neighbor (param_values : loc) (current_value : Z) : SM Z :=
  let* items := load_ints param_values in
  let* copied := alloc (OInts items) in
  let* items := load_ints copied in
  let* sorted := alloc (OInts (merge_sort Z.le items)) in
  let* param_values := load_ints sorted in
  lift_m (random_neighbor_sorted param_values current_value).

(** *** [rename_dag_node_list] (lines 38-70) *)
Fixpoint rename_loop (prefix : string) (add_input_output : bool)
    (len : nat) (i : nat) (rename_map : gmap string string)
    (nodes : list loc) : SM unit :=
  match nodes with
  | [] => sret tt
  | node :: rest =>
      let* f := load_node node in
      let* rename_map :=
        match rename_map !! f_name f with
        | None =>
            let new_name := rename_new_name prefix add_input_output len i in
            set_field_name node new_name;;
            sret (<[f_name f := new_name]> rename_map)
        | Some _ => sret rename_map
        end in
      let* f := load_node node in
      let* items := load_list (f_inputs f) in
      match items with
      | [] => sret tt
      | _ =>
          let* renamed :=
            alloc (OList (omap (rename_input rename_map) items)) in
          set_field_inputs node renamed
      end;;
      rename_loop prefix add_input_output len (S i) rename_map rest
  end.

Definition rename_dag_node_list (node_list : list loc) (prefix : string)
    (rename_input_output add_input_output : bool) : SM (list loc) :=
  let* node_list := deepcopy node_list in
  let prefix := if decide (prefix = "") then "" else prefix +:+ "_" in
  let rename_map : gmap string string :=
    if rename_input_output then ∅
    else <["output" := "output"]> (<["input" := "input"]> ∅) in
  rename_loop prefix add_input_output (length node_list) 0 rename_map
    node_list;;
  sret node_list.

Section operators.
Context `{Compiler} (self : DiscreteSearchSpaceSegmentation).
(** The list objects behind [self.base_channels_list],
    [self.delta_channels_list] and [self.post_upsample_layers_list]. *)
Context (base_channels_loc delta_channels_loc post_upsample_loc : loc).

(** Lines 228-239. *)
Definition rewire (graph : list loc) (edges : list (string * string))
    (chosen_node_idx : Z) (node : loc) : SM unit :=
  let* f := load_node node in
  if decide (f_name f ≠ "input") then
    let max_inputs := 3 in
    let* r := lift_m (randint 1 max_inputs) in
    let k := Z.min chosen_node_idx r in
    let* input_idxs :=
      lift_m (random_sample_k (seqZ 0 chosen_node_idx) k) in
    (* node['inputs'] = [...] *)
    let* f := load_node node in
    let* items := load_list (f_inputs f) in
    let* kept :=
      alloc (OList (filter (λ inp, (out_degree edges inp ≤ 1)%nat) items)) in
    set_field_inputs node kept;;
    (* node['inputs'] += [...] *)
    let* added :=
      smapM (λ idx,
        let* n := lift_r (py_index graph idx) in
        let* nf := load_node n in
        let* f := load_node node in
        let* cur := load_list (f_inputs f) in
        sret (if decide (Some (f_name nf) ∈ cur) then []
              else [Some (f_name nf)])) input_idxs in
    let* f := load_node node in
    let* cur := load_list (f_inputs f) in
    store (f_inputs f) (OList (cur ++ concat added))
  else sret tt.

(** Lines 191-239. *)
Definition mutate_candidate (base_graph : list loc)
    (base_model : ArchWithMetaData) : SM (list loc * ChannelCfg * Z) :=
  let* graph := deepcopy base_graph in
  let channels_per_scale0 := channels_per_scale (arch base_model) in
  lift_m (py_assert (bool_decide (1 < length graph)%nat));;
  let* last := lift_r (py_index graph (-1)) in
  let* lastf := load_node last in
  lift_m (py_assert (bool_decide (f_name lastf = "output")));;
  let* first := lift_r (py_index graph 0) in
  let* firstf := load_node first in
  lift_m (py_assert (bool_decide (f_name firstf = "input")));;
  let* bc := random_neighbor base_channels_loc
               (base_channels channels_per_scale0) in
  let* dc := random_neighbor delta_channels_loc
               (delta_channels channels_per_scale0) in
  let channels_per_scale1 :=
    MkChannelCfg bc dc (mult_delta (channels_per_scale (arch base_model))) in
  let* post_upsample_layers1 :=
    random_neighbor post_upsample_loc
      (post_upsample_layers (arch base_model)) in
  let* chosen_node_idx :=
    lift_m (randint 1 (Z.of_nat (length graph) - 1)) in
  let* node := lift_r (py_index graph chosen_node_idx) in
  let* f := load_node node in
  (if decide (f_name f ≠ "output")
   then let* o := lift_m (random_choice (operations self)) in
        set_field_op node (Some o)
   else sret tt);;
  let edges := edge_dict_keys (arch base_model) in
  rewire graph edges chosen_node_idx node;;
  sret (graph, channels_per_scale1, post_upsample_layers1).

(** Lines 190-270; the compiler reads the candidate's node values. *)
Definition get_neighbors_body (base_graph : list loc)
    (base_model : ArchWithMetaData) (parent_id : MetaVal) (st : NbrState)
    : SM NbrState :=
  let st := MkNbrState (neighbors st) (nb_tries st + 1) (nbr_model st) in
  let* cand := mutate_candidate base_graph base_model in
  let* graph := read_nodes cand.1.1 in
  lift_m (compile_candidate self base_model parent_id st
            (graph, cand.1.2, cand.2)).

Fixpoint get_neighbors_loop (fuel : nat) (base_graph : list loc)
    (base_model : ArchWithMetaData) (parent_id : MetaVal) (patience : Z)
    (st : NbrState) : SM NbrState :=
  match fuel with
  | O => sret st
  | S fuel' =>
      if bool_decide (nb_tries st < patience)
         && bool_decide (length (neighbors st) = 0%nat)
      then
        let* st := get_neighbors_body base_graph base_model parent_id st in
        get_neighbors_loop fuel' base_graph base_model parent_id patience st
      else sret st
  end.

(** [get_neighbors] (lines 184-272); [base_graph] are the node objects
    of [base_model.arch.graph.values()]. *)
Definition get_neighbors (base_graph : list loc)
    (base_model : ArchWithMetaData) (patience : Z)
    : SM (list ArchWithMetaData) :=
  let* parent_id := lift_r (meta_get (metadata base_model) "archid") in
  let* st := get_neighbors_loop (Z.to_nat patience) base_graph base_model
               parent_id patience (MkNbrState [] 0 None) in
  sret (neighbors st).

(** Lines 389-400 for the slot [inp_idx] of the list at [inputs_loc]. *)
Definition repair_slot (left_half right_g : list loc)
    (right_n : list string) (right_pivot_idx : nat)
    (right_node2idx : gmap string nat) (inputs_loc : loc) (inp_idx : nat)
    (inp : option string) : SM unit :=
  if decide (inp ∈ (Some <$> drop right_pivot_idx right_n)) then sret tt
  else
    let* idx := lift_r (idx_get right_node2idx inp) in
    let* orig := lift_r (py_index right_g (Z.of_nat idx)) in
    let* origf := load_node orig in
    let* candidates :=
      smapM (λ n, let* nf := load_node n in
                  sret (if decide (f_scale nf = f_scale origf)
                        then [f_name nf] else [])) left_half in
    let* v :=
      match concat candidates with
      | [] => sret None
      | cs => let* c := lift_m (random_choice cs) in sret (Some c)
      end in
    let* items := load_list inputs_loc in
    store inputs_loc (OList (<[inp_idx := v]> items)).

(** Line 386: [enumerate] over the list while its slots are assigned. *)
Fixpoint repair_slots (remaining : nat) (left_half right_g : list loc)
    (right_n : list string) (right_pivot_idx : nat)
    (right_node2idx : gmap string nat) (inputs_loc : loc) (inp_idx : nat)
    : SM unit :=
  match remaining with
  | O => sret tt
  | S remaining' =>
      let* items := load_list inputs_loc in
      match items !! inp_idx with
      | None => sret tt
      | Some inp =>
          repair_slot left_half right_g right_n right_pivot_idx
            right_node2idx inputs_loc inp_idx inp;;
          repair_slots remaining' left_half right_g right_n
            right_pivot_idx right_node2idx inputs_loc (S inp_idx)
      end
  end.

Definition repair_node (left_half right_g : list loc)
    (right_n : list string) (right_pivot_idx : nat)
    (right_node2idx : gmap string nat) (fields : loc) : SM unit :=
  let* f := load_node fields in
  let* items := load_list (f_inputs f) in
  repair_slots (length items) left_half right_g right_n right_pivot_idx
    right_node2idx (f_inputs f) 0.

(** Lines 377-410. *)
Definition splice (left_g right_g : list loc) (right_n : list string)
    (left_pivot : string) (left_pivot_idx right_pivot_idx : nat)
    : SM (list loc) :=
  let left_half := take (S left_pivot_idx) left_g in
  let right_half := drop right_pivot_idx right_g in
  let right_node2idx := name2idx_from 0 right_n ∅ in
  siter (repair_node left_half right_g right_n right_pivot_idx
           right_node2idx) (reverse right_half);;
  let* last := lift_r (py_index right_half (-1)) in
  set_field_name last "output";;
  let* first := lift_r (py_index right_half 0) in
  let* ff := load_node first in
  let* items := load_list (f_inputs ff) in
  (if decide (Some left_pivot ∈ items) then sret tt
   else store (f_inputs ff) (OList (items ++ [Some left_pivot])));;
  rename_dag_node_list (left_half ++ right_half) "" true true.

(** The loop variables [left_g], [right_g], [result_g], [nb_tries]. *)
Record SpliceState : Type := MkSpliceState {
  ss_left_g : list loc;
  ss_right_g : list loc;
  ss_result_g : option (list loc);
  ss_nb_tries : Z
}.

(** Lines 357-410. *)
Definition crossover_attempt (left_n right_n : list string)
    (st : SpliceState) : SM SpliceState :=
  let* left_g := deepcopy (ss_left_g st) in
  let* right_g := deepcopy (ss_right_g st) in
  let nb_tries := ss_nb_tries st + 1 in
  let* left_pivot_idx :=
    lift_m (randint 1 (Z.of_nat (length left_n) - 2)) in
  let* left_pivot := lift_r (py_index left_n left_pivot_idx) in
  let* left_v := read_nodes left_g in
  let* right_v := read_nodes right_g in
  let* candidates :=
    lift_r (right_candidates left_v right_v right_n left_pivot_idx) in
  match candidates with
  | [] => sret (MkSpliceState left_g right_g None nb_tries)
  | _ =>
      let* right_pivot_idx := lift_m (random_choice candidates) in
      let* result_g := splice left_g right_g right_n left_pivot
                         (Z.to_nat left_pivot_idx) right_pivot_idx in
      sret (MkSpliceState left_g right_g (Some result_g) nb_tries)
  end.

Fixpoint crossover_loop (fuel : nat) (patience : Z)
    (left_n right_n : list string) (st : SpliceState) : SM SpliceState :=
  match fuel with
  | O => sret st
  | S fuel' =>
      match ss_result_g st with
      | None =>
          if bool_decide (ss_nb_tries st < patience) then
            let* st := crossover_attempt left_n right_n st in
            crossover_loop fuel' patience left_n right_n st
          else sret st
      | Some _ => sret st
      end
  end.

(** [crossover] (lines 337-433); each model comes with the node objects
    of its [arch.graph.values()]. *)
Definition crossover (model_1 model_2 : ArchWithMetaData * list loc)
    (patience : Z) : SM (option ArchWithMetaData) :=
  let* ms := lift_m (random_sample_k [model_1; model_2] 2) in
  match ms with
  | [left_m; right_m] =>
      let* left_g := rename_dag_node_list left_m.2 "left" true false in
      let* right_g := rename_dag_node_list right_m.2 "right" true false in
      let* left_n := smapM (λ n, let* f := load_node n in sret (f_name f))
                       left_g in
      let* right_n := smapM (λ n, let* f := load_node n in sret (f_name f))
                        right_g in
      if decide (length left_n ≤ 2 ∨ length right_n ≤ 2)%nat then sret None
      else
        let* st := crossover_loop (Z.to_nat patience) patience left_n
                     right_n (MkSpliceState left_g right_g None 0) in
        match ss_result_g st with
        | None | Some [] => sret None
        | Some result_g =>
            let* graph := read_nodes result_g in
            let* a := lift_m (crossover_build self left_m.1 right_m.1
                                graph) in
            sret (Some a)
        end
  | _ => sraise ValueError
  end.
End operators.
End Store.

(** * Specification predicates *)

(** No dangling reference: every name among a node's inputs is the name of a
    node of the list. *)
Definition no_dangling (g : list Node) : Prop :=
  ∀ n s, n ∈ g → Some s ∈ inputs n → s ∈ name <$> g.

(** Index ordering: every entry of a node's inputs is the name of a node at a
    strictly earlier position. *)
Definition inputs_earlier (g : list Node) : Prop :=
  ∀ i n inp, g !! i = Some n → inp ∈ inputs n →
    ∃ s j m, inp = Some s ∧ (j < i)%nat ∧ g !! j = Some m ∧ name m = s.

(** The graph invariant of the data model. *)
Definition graph_invariant (g : list Node) : Prop :=
  name <$> head g = Some "input"
  ∧ name <$> last g = Some "output"
  ∧ inputs_earlier g.

(** What crossover needs of a parent graph: node names are unique and no node
    lists itself as an input.  Both follow from the data model (unique names,
    inputs at strictly lower positions). *)
Definition parent_ok (g : list Node) : Prop :=
  NoDup (name <$> g) ∧ Forall (λ n, Some (name n) ∉ inputs n) g.

(** The shape of a parent graph after the renaming of line 344: names are
    positional, inputs name strictly earlier positions. *)
Definition renamed_shape (p : string) (g : list Node) : Prop :=
  ∀ j n, g !! j = Some n →
    name n = layer_name p j
    ∧ ∀ e, e ∈ inputs n → ∃ b, (b < j)%nat ∧ e = Some (layer_name p b).

(** What a node of the merged list looks like before the final renaming:
    it stems from a node [o] of a renamed parent, possibly renamed to
    ['output'], each input being one of [o], [None], or a left-half name. *)
Definition merged_from (left_names : list string) (o n : Node) : Prop :=
  (name n = name o ∨ name n = "output")
  ∧ ∀ e, e ∈ inputs n →
      e ∈ inputs o ∨ e = None ∨ ∃ c, e = Some c ∧ c ∈ left_names.

(** The left pivot [lp] finds no partner: it is an interior position of
    [left_g], and no interior node of [right_g] (neither the first nor the
    last) has the scale of the node of [left_g] at [lp]. *)
Definition pivot_misses (left_g right_g : list Node) (lp : Z) : Prop :=
  1 ≤ lp ≤ Z.of_nat (length left_g) - 2
  ∧ ∃ pivot, left_g !! Z.to_nat lp = Some pivot
      ∧ ∀ j n, (1 ≤ j)%nat → (j + 2 ≤ length right_g)%nat →
          right_g !! j = Some n → scale n ≠ scale pivot.

(** [k] consecutive splice attempts on the parent graphs [left_g] and
    [right_g], started in state [s]: each draws a left pivot that finds no
    partner, and the last leaves the state [s']. *)
Fixpoint attempts_miss (k : nat) (left_g right_g : list Node) (s s' : Env)
    : Prop :=
  match k with
  | O => s' = s
  | S k' =>
      ∃ lp s1,
        randint 1 (Z.of_nat (length left_g) - 2) s = (Ok lp, s1)
        ∧ pivot_misses left_g right_g lp
        ∧ attempts_miss k' left_g right_g s1 s'
  end.

Section crossover_spec.
Context `{Compiler} (patience : Z).

(** Line 349 on the graphs of the chosen parents. *)
Definition degenerate (left_m right_m : ArchWithMetaData) : Prop :=
  (length (graph_values (arch left_m)) ≤ 2)%nat
  ∨ (length (graph_values (arch right_m)) ≤ 2)%nat.

(** Lines 344-347 for one parent. *)
Definition renamed (m : ArchWithMetaData) (prefix : string) : list Node :=
  rename_dag_node_list (graph_values (arch m)) prefix true false.

(** Every one of the [patience] splice attempts on the graphs of the chosen
    parents misses. *)
Definition all_miss (left_m right_m : ArchWithMetaData) (s0 s' : Env)
    : Prop :=
  attempts_miss (Z.to_nat patience)
    (graph_values (arch left_m)) (graph_values (arch right_m)) s0 s'.
End crossover_spec.

(** The assertions of lines 195-197. *)
Definition sanity_ok (graph : list Node) : Prop :=
  (1 < length graph)%nat
  ∧ name <$> last graph = Some "output"
  ∧ name <$> head graph = Some "input".

(** What [__init__] guarantees of the domains the mutation samples from
    (lines 104, 130, 135), and a non-empty post-upsample domain. *)
Definition space_ok (self : DiscreteSearchSpaceSegmentation) : Prop :=
  operations self ≠ [] ∧ base_channels_list self ≠ []
  ∧ delta_channels_list self ≠ [] ∧ post_upsample_layers_list self ≠ [].

(** ** Frame reasoning on the store

    [h0] is the heap when a function is entered.  A location is fresh when it
    lies beyond [h0]; the invariant says that the objects of [h0] are
    untouched and that fresh nodes refer to fresh ['inputs'] lists. *)
Module Frame.
Import Store.

Section frame.
Context (h0 : list Obj).

Definition fresh (l : loc) : Prop := (length h0 ≤ l)%nat.

Definition Inv (w : World) : Prop :=
  take (length h0) (heap w) = h0
  ∧ ∀ l nm o sc inp,
      fresh l → heap w !! l = Some (ONode nm o sc inp) → fresh inp.

(** [m] keeps the invariant, whether it returns or raises, and its
    result satisfies [Post]. *)
Definition safe {A} (m : SM A) (Post : A → Prop) : Prop :=
  ∀ w, Inv w → Inv (m w).2 ∧ ∀ a, (m w).1 = Ok a → Post a.

Definition memo_fresh (memo : gmap loc loc) : Prop :=
  ∀ k v, memo !! k = Some v → fresh v.
End frame.

(** Every object that existed in [w] is the same in [w']. *)
Definition unchanged (w w' : World) : Prop :=
  ∀ l, (l < length (heap w))%nat → heap w' !! l = heap w !! l.

(** The node dictionary at [l] holds the value [n]. *)
Definition node_at (h : list Obj) (l : loc) (n : Node) : Prop :=
  ∃ inp, h !! l = Some (ONode (name n) (op n) (scale n) inp)
         ∧ h !! inp = Some (OList (inputs n)).

(** The node dictionaries at [ls] hold the node list [g]. *)
Definition nodes_at (h : list Obj) (ls : list loc) (g : list Node) : Prop :=
  Forall2 (node_at h) ls g.

(** A [deepcopy] memo over the heap [h0] the copy started from: a key is a
    node already copied, or a list whose copy holds the same items. *)
Definition memo_ok (h0 h : list Obj) (copied : list loc)
    (memo : gmap loc loc) : Prop :=
  ∀ k v, memo !! k = Some v →
    k ∈ copied
    ∨ ∃ items, h0 !! k = Some (OList items) ∧ h !! v = Some (OList items).
End Frame.

(** A heap holding a node list: the ['inputs'] list of the node at index [i]
    at location [base + 2 i], its dictionary right after it. *)
Fixpoint heap_of_nodes (base : nat) (g : list Node) : list Store.Obj :=
  match g with
  | [] => []
  | n :: g' =>
      Store.OList (inputs n)
        :: Store.ONode (name n) (op n) (scale n) base
        :: heap_of_nodes (S (S base)) g'
  end.

Definition chain6_world : Store.World :=
  Store.MkWorld (env0 []) (heap_of_nodes 0 chain6).

Definition chain6_locs : list nat := [1; 3; 5; 7; 9; 11]%nat.

(** ** Further definitions used by the properties below *)

Section neighbor_spec.
Context `{Compiler} (self : DiscreteSearchSpaceSegmentation).
Context (base_model : ArchWithMetaData) (parent_id : MetaVal).

(** What [get_neighbors] appends to [neighbors] (lines 262-267). *)
Definition accepted_neighbor (a : ArchWithMetaData) : Prop :=
  min_mac self < MAdd (arch a) < max_mac self
  ∧ validate_forward (arch a)
    = Ok [1; 19; model_img_size (arch a); model_img_size (arch a)]
  ∧ metadata a
    = <["macs" := MInt (MAdd (arch a))]>
        (<["parent" := parent_id]>
           (<["archid" := MStr (to_hash (arch a))]>
              (<["datasetname" := MStr (datasetname self)]> ∅)))
  ∧ ∃ cand s1 s2,
      mutate_candidate self base_model s1 = (Ok cand, s2)
      ∧ new_model cand.1.1 cand.1.2 cand.2 (img_size self) = Ok (arch a).

End neighbor_spec.

(** [chain6] after one mutation (draws [1; 2; 0; 2; 1; 1; 0; 1]): the node
    at index 3 drew the operator it had and one more input. *)
Definition mutated_chain6 : list Node :=
  [ MkNode "input" None 1 [];
    MkNode "layer_0" (Some "conv") 1 [Some "input"];
    MkNode "layer_1" (Some "conv") 2 [Some "layer_0"];
    MkNode "layer_2" (Some "pool") 2 [Some "layer_1"; Some "input"];
    MkNode "layer_3" (Some "conv") 1 [Some "layer_2"; Some "layer_0"];
    MkNode "output" None 1 [Some "layer_3"] ].

(** The neighbour the stub compiler builds from it. *)
Definition chain6_neighbor : @ArchWithMetaData (stub_compiler true true 10) :=
  MkArch (stub_compiler true true 10)
    (MkStub mutated_chain6 (MkChannelCfg 16 8 false) 1 256)
    (<["macs" := MInt 10]>
       (<["parent" := MStr "base"]>
          (<["archid" := MStr "input,layer_0,layer_1,layer_2,layer_3,output"]>
             (<["datasetname" := MStr "cityscapes"]> ∅)))).


(** A field of a node that neither ['name'] nor ['inputs'] assignments
    touch. *)
Definition untouched_field {B} (f : Node → B) : Prop :=
  (∀ s n, f (set_name s n) = f n) ∧ (∀ i n, f (set_inputs i n) = f n).


(** The child of crossing [chain6] with itself (draws [0; 2; 2; ...]), as
    the stub compiler builds it. *)
Definition crossover_child_example
    : @ArchWithMetaData (stub_compiler true true 10) :=
  MkArch (stub_compiler true true 10)
    (MkStub merged_example (MkChannelCfg 8 8 false) 1 256)
    (<["parents" := MStr "h1,h1"]>
       (<["parent" := MNone]>
          (<["archid" :=
               MStr "input,layer_1,layer_2,layer_3,layer_4,layer_5,output"]>
             (<["datasetname" := MStr "cityscapes"]> ∅)))).

(** A three-node graph whose only interior node has scale 2. *)
Definition chain3_scale2 : list Node :=
  [ MkNode "input" None 1 [];
    MkNode "layer_0" (Some "pool") 2 [Some "input"];
    MkNode "output" None 1 [Some "layer_0"] ].

(** ** [DiscreteSearchSpaceSegmentation.__init__] (lines 73-139) *)

(** [s.split(sep)] for a one-character separator: the pieces between the
    occurrences of [sep]; the empty string gives one empty piece. *)
Fixpoint str_split (sep : Ascii.ascii) (s : string) : list string :=
  match s with
  | EmptyString => [""]
  | String c s' =>
      if decide (c = sep) then "" :: str_split sep s'
      else match str_split sep s' with
           | [] => [String c ""]
           | w :: ws => String c w :: ws
           end
  end.

(** The character [','] . *)
Definition comma : Ascii.ascii :=
  match "," with String c _ => c | EmptyString => Ascii.zero end.

(** [len(range(start, stop, step))] for a non-zero [step]. *)
Definition range_len (start stop step : Z) : Z :=
  if decide (0 < step) then
    if decide (start < stop) then (stop - start - 1) `div` step + 1 else 0
  else
    if decide (stop < start) then (start - stop - 1) `div` (- step) + 1
    else 0.

(** [list(range(start, stop, step))]; [ValueError] on a zero step. *)
Definition py_range (start stop step : Z) : result (list Z) :=
  if decide (step = 0) then Raise ValueError
  else Ok ((λ k, start + k * step) <$> seqZ 0 (range_len start stop step)).

(** [assert c] where nothing is drawn or logged. *)
Definition res_assert (c : bool) : result unit :=
  if c then Ok tt else Raise AssertionError.

(** The arguments of [__init__]. *)
Record InitArgs : Type := MkInitArgs {
  a_datasetname : string;
  a_encoder_features : option (list string);
  a_min_mac : Z;
  a_max_mac : Z;
  a_min_layers : Z;
  a_max_layers : Z;
  a_max_downsample_factor : Z;
  a_skip_connections : bool;
  a_max_skip_connection_length : Z;
  a_max_scale_delta : Z;
  a_max_post_upsample_layers : Z;
  a_min_base_channels : Z;
  a_max_base_channels : Z;
  a_base_channels_binwidth : Z;
  a_min_delta_channels : Z;
  a_max_delta_channels : Z;
  a_delta_channels_binwidth : Z;
  a_downsample_prob_ratio : Q;
  a_op_subset : option string;
  a_mult_delta : bool;
  a_img_size : Z
}.

(** The object [__init__] leaves behind: the attributes the methods read,
    and [downsample_prob_ratio], which none of them reads. *)
Record SpaceObject : Type := MkSpaceObject {
  space : DiscreteSearchSpaceSegmentation;
  downsample_prob_ratio : Q
}.

(** [__init__], given the keys of the imported [OPS] dictionary in their
    order. *)
Definition __init__ (OPS_keys : list string) (a : InitArgs)
    : result SpaceObject :=
  res_bind (res_assert (bool_decide (a_datasetname a ≠ ""))) (λ _,
  let operations := OPS_keys in
  let op_subset := match a_op_subset a with
                   | Some sub => str_split comma sub
                   | None => []
                   end in
  let operations := match op_subset with
                    | [] => operations
                    | _ => filter (λ op, op ∈ op_subset) operations
                    end in
  res_bind (res_assert (bool_decide (0 < length operations)%nat)) (λ _,
  let encoder_features := match a_encoder_features a with
                          | None | Some [] => ["scale"; "channels"; "op"]
                          | Some fs => fs
                          end in
  res_bind (res_assert (bool_decide (a_min_mac a ≤ a_max_mac a))) (λ _,
  res_bind (res_assert (bool_decide (a_min_layers a ≤ a_max_layers a))) (λ _,
  res_bind (res_assert (bool_decide (a_max_downsample_factor a
                                       ∈ [2; 4; 8; 16]))) (λ _,
  res_bind (res_assert (bool_decide (a_max_skip_connection_length a > 0)))
    (λ _,
  res_bind (res_assert (bool_decide (a_max_scale_delta a ∈ [1; 2; 3]))) (λ _,
  res_bind (py_range 1 (a_max_post_upsample_layers a + 1) 1)
    (λ post_upsample_layers_list,
  res_bind (res_assert (bool_decide
              (length post_upsample_layers_list < 5)%nat)) (λ _,
  res_bind (py_range (a_min_base_channels a) (a_max_base_channels a + 1)
              (a_base_channels_binwidth a)) (λ base_channels_list,
  res_bind (res_assert (bool_decide (a_min_base_channels a
                                       ≤ a_max_base_channels a))) (λ _,
  res_bind (res_assert (bool_decide (1 < length base_channels_list)%nat))
    (λ _,
  res_bind (py_range (a_min_delta_channels a) (a_max_delta_channels a + 1)
              (a_delta_channels_binwidth a)) (λ delta_channels_list,
  res_bind (res_assert (bool_decide (a_min_delta_channels a
                                       ≤ a_max_delta_channels a))) (λ _,
  res_bind (res_assert (bool_decide (1 ≤ length delta_channels_list)%nat))
    (λ _,
  Ok (MkSpaceObject
        (MkSpace (a_datasetname a) operations encoder_features
           (a_min_mac a) (a_max_mac a) (a_min_layers a) (a_max_layers a)
           (a_max_downsample_factor a) (a_max_skip_connection_length a)
           (a_max_scale_delta a) post_upsample_layers_list
           base_channels_list delta_channels_list (a_mult_delta a)
           (a_skip_connections a) (a_img_size a))
        (a_downsample_prob_ratio a))))))))))))))))).

(** The default arguments (lines 73-93), for a given dataset name;
    [sys.maxsize] is [2^63 - 1]. *)
Definition default_args (datasetname : string) : InitArgs :=
  MkInitArgs datasetname None 0 (2 ^ 63 - 1) 1 12 16 true 3 1 3
    8 48 8 8 48 8 (3 # 2) None false 256.

(** What [__init__] builds from the default arguments when [OPS] has the
    keys ['conv'] and ['pool']. *)
Definition default_object : SpaceObject :=
  MkSpaceObject (example_space ["scale"; "channels"; "op"] 0 (2 ^ 63 - 1))
    (3 # 2).

(** The default arguments but for [max_post_upsample_layers = 0], and the
    object built from them. *)
Definition zero_post_args : InitArgs :=
  MkInitArgs "cityscapes" None 0 (2 ^ 63 - 1) 1 12 16 true 3 1 0
    8 48 8 8 48 8 (3 # 2) None false 256.

Definition zero_post_object : SpaceObject :=
  MkSpaceObject
    (MkSpace "cityscapes" ["conv"; "pool"] ["scale"; "channels"; "op"]
       0 (2 ^ 63 - 1) 1 12 16 3 1 [] [8; 16; 24; 32; 40; 48]
       [8; 16; 24; 32; 40; 48] false true 256)
    (3 # 2).

(** * Properties *)

(** ** The monad *)

Lemma bind_ok {A B} (m : M A) (k : A → M B) s a s1 :
  m s = (Ok a, s1) → bind m k s = k a s1.
Proof. intros E. unfold bind. by rewrite E. Qed.

Lemma bind_raise {A B} (m : M A) (k : A → M B) s e s1 :
  m s = (Raise e, s1) → bind m k s = (Raise e, s1).
Proof. intros E. unfold bind. by rewrite E. Qed.

Lemma bind_inv_ok {A B} (m : M A) (k : A → M B) s b s' :
  bind m k s = (Ok b, s') → ∃ a s1, m s = (Ok a, s1) ∧ k a s1 = (Ok b, s').
Proof.
  unfold bind. destruct (m s) as [[a|e] s1]; [eauto | discriminate].
Qed.

Lemma bind_lift_ok {A B} (r : result A) (k : A → M B) s a :
  r = Ok a → bind (lift r) k s = k a s.
Proof. intros ->. reflexivity. Qed.

Lemma randint_spec a b s :
  a ≤ b →
  ∃ x s1, randint a b s = (Ok x, s1) ∧ a ≤ x ≤ b ∧ log s1 = log s.
Proof.
  intros Hab. unfold randint. destruct (decide (a ≤ b)); [|lia].
  unfold bind, draw, ret.
  assert (∀ n : nat, a ≤ a + Z.of_nat n mod (b - a + 1) ≤ b) as Hr.
  { intros n. pose proof (Z.mod_pos_bound (Z.of_nat n) (b - a + 1)). lia. }
  destruct (rng s) as [|n t]; eauto 8.
Qed.

Lemma randint_inv a b s x s1 :
  randint a b s = (Ok x, s1) → a ≤ x ≤ b ∧ log s1 = log s.
Proof.
  unfold randint. destruct (decide (a ≤ b)) as [Hab|]; [|discriminate].
  destruct (randint_spec a b s Hab) as (x' & s' & E & ? & ?).
  unfold randint in E. destruct (decide (a ≤ b)); [|lia].
  rewrite E. by intros [= <- <-].
Qed.

Lemma py_index_ok {A} (l : list A) (i : Z) :
  0 ≤ i < Z.of_nat (length l) →
  ∃ x, py_index l i = Ok x ∧ l !! Z.to_nat i = Some x.
Proof.
  intros Hi. unfold py_index. destruct (decide (i < 0)); [lia|].
  destruct (decide _); [|lia].
  destruct (lookup_lt_is_Some_2 l (Z.to_nat i)) as [x Hx]; [lia|].
  rewrite Hx. eauto.
Qed.

Lemma py_index_last {A} (l : list A) :
  l ≠ [] → ∃ x, py_index l (-1) = Ok x ∧ last l = Some x.
Proof.
  intros Hl. unfold py_index. destruct (decide (-1 < 0)); [|lia].
  assert (0 < length l)%nat by (destruct l; [done | simpl; lia]).
  destruct (decide _); [|lia].
  replace (Z.to_nat (Z.of_nat (length l) + -1)) with (pred (length l)) by lia.
  rewrite <- last_lookup.
  destruct (last l) as [x|] eqn:E; [eauto|].
  apply last_None in E. done.
Qed.

(** ** [random_neighbor] *)

Lemma od_get_set {K V} `{EqDecision K} (k k' : K) (v : V) d :
  od_get k (od_set k' v d) = if decide (k = k') then Some v else od_get k d.
Proof.
  induction d as [|[k1 v1] d IH]; simpl.
  - by destruct (decide (k = k')).
  - destruct (decide (k' = k1)) as [->|Hne]; simpl.
    + by destruct (decide (k = k1)).
    + destruct (decide (k = k1)) as [->|]; [|done].
      by destruct (decide (k1 = k')) as [->|].
Qed.

Lemma od_keys_set {K V} `{EqDecision K} (k k' : K) (v : V) d :
  k ∈ od_keys (od_set k' v d) ↔ k = k' ∨ k ∈ od_keys d.
Proof.
  unfold od_keys. induction d as [|[k1 v1] d IH]; simpl.
  - set_solver.
  - case_decide; subst; simpl; set_solver.
Qed.

Lemma od_get_is_Some {K V} `{EqDecision K} (k : K) (d : list (K * V)) :
  k ∈ od_keys d → is_Some (od_get k d).
Proof.
  unfold od_keys. induction d as [|[k1 v1] d IH]; simpl.
  - by intros ?%elem_of_nil.
  - intros [->|?]%elem_of_cons; destruct (decide _); eauto; done.
Qed.

(** Every index the enumeration dictionary stores points at its key. *)
Lemma od_of_enumerate_get {K} `{EqDecision K} (l : list K) i d k idx :
  od_get k (od_of_enumerate i l d) = Some idx →
  od_get k d = Some idx ∨ (i ≤ idx)%nat ∧ l !! (idx - i)%nat = Some k.
Proof.
  revert i d. induction l as [|x l IH]; intros i d; simpl; [auto|].
  intros [Hd|[Hle Hl]]%IH.
  - rewrite od_get_set in Hd. case_decide; [|auto].
    simplify_eq. right. split; [lia|]. by rewrite Nat.sub_diag.
  - right. split; [lia|].
    replace (idx - i)%nat with (S (idx - S i)) by lia. done.
Qed.

Lemma od_of_enumerate_keys {K} `{EqDecision K} (l : list K) i d k :
  k ∈ od_keys (od_of_enumerate i l d) ↔ k ∈ l ∨ k ∈ od_keys d.
Proof.
  revert i d. induction l as [|x l IH]; intros i d; simpl.
  - set_solver.
  - rewrite IH, od_keys_set. set_solver.
Qed.

Lemma py_min_from_elem {A} (key : A → Z) best (l : list A) :
  py_min_from key best l = best ∨ py_min_from key best l ∈ l.
Proof.
  revert best. induction l as [|x l IH]; intros best; simpl; [auto|].
  destruct (IH (if decide (key x < key best) then x else best)) as [->|?].
  - case_decide; set_solver.
  - set_solver.
Qed.

Lemma py_min_elem {A} (key : A → Z) (l : list A) x :
  py_min key l = Ok x → x ∈ l.
Proof.
  destruct l as [|y l]; simpl; [done|]. intros [= <-].
  destruct (py_min_from_elem key y l) as [->|?]; set_solver.
Qed.

(** The anchor index of [random_neighbor] is a valid position of the sorted
    domain. *)
Lemma random_neighbor_anchor (l : list Z) (v : Z) :
  l ≠ [] →
  let d := od_of_enumerate 0 l [] in
  ∃ idx : nat,
    (idx < length l)%nat ∧
    match od_get v d with
    | Some i => i = idx
    | None => ∃ k, py_min (λ k, Z.abs (k - v)) (od_keys d) = Ok k
                   ∧ od_get k d = Some idx
    end.
Proof.
  intros Hl d.
  assert (∀ k i, od_get k d = Some i → (i < length l)%nat) as Hidx.
  { intros k i [Hd|[_ Hi]]%od_of_enumerate_get; [done|].
    apply lookup_lt_Some in Hi. lia. }
  destruct (od_get v d) as [i|] eqn:Ev; [eauto|].
  destruct (od_keys d) as [|k0 ks] eqn:Ek.
  { destruct l as [|x l]; [done|].
    assert (x ∈ od_keys d) as Hx by (apply od_of_enumerate_keys; set_solver).
    rewrite Ek in Hx. by apply elem_of_nil in Hx. }
  assert (py_min_from (λ k, Z.abs (k - v)) k0 ks ∈ od_keys d) as Hin.
  { rewrite Ek. apply (py_min_elem (λ k, Z.abs (k - v))). done. }
  destruct (od_get_is_Some _ _ Hin) as [i Hi].
  exists i. split; [eauto|]. simpl. eauto.
Qed.

Lemma random_neighbor_spec (domain : list Z) (v : Z) (s : Env) :
  domain ≠ [] →
  ∃ x s1, random_neighbor domain v s = (Ok x, s1) ∧ x ∈ domain
          ∧ log s1 = log s.
Proof.
  intros Hne. unfold random_neighbor, random_neighbor_sorted.
  set (l := merge_sort Z.le domain).
  assert (l ≡ₚ domain) as Hp by apply merge_sort_Permutation.
  assert (l ≠ []) as Hl.
  { intros E. rewrite E in Hp. by apply Permutation_nil_l in Hp. }
  destruct (random_neighbor_anchor l v Hl) as (idx & Hlt & Hidx).
  simpl in Hidx.
  set (k := λ current_idx : nat, bind (randint _ _) _).
  assert (∃ x s1, k idx s = (Ok x, s1) ∧ x ∈ domain ∧ log s1 = log s)
    as (x & s1 & E & Hx & Hlog).
  { unfold k.
    edestruct (randint_spec (if decide (0 < idx)%nat then -1 else 0)
      (if decide (Z.of_nat idx < Z.of_nat (length l) - 1) then 1 else 0) s)
      as (off & s1 & E & Hoff & Hlog).
    { repeat case_decide; lia. }
    rewrite (bind_ok _ _ _ _ _ E).
    destruct (py_index_ok l (Z.of_nat idx + off)) as (x & Ex & Hx).
    { repeat case_decide; lia. }
    exists x, s1. unfold lift. rewrite Ex. split; [done|]. split; [|done].
    rewrite <- Hp. by eapply list_elem_of_lookup_2. }
  exists x, s1. split; [|done]. rewrite <- E.
  destruct (od_get v (od_of_enumerate 0 l [])) as [i|].
  - subst i. reflexivity.
  - destruct Hidx as (k0 & Emin & Eget).
    unfold bind at 1. unfold bind at 1. unfold lift. rewrite Emin, Eget.
    reflexivity.
Qed.

(** C7: on a non-empty domain [random_neighbor] returns, without raising, an
    element of the domain, whatever the current value and the random draws;
    on the singleton domain [[8]] that element is 8. *)
Theorem random_neighbor_in_domain (domain : list Z) (v : Z) (s : Env) :
  domain ≠ [] →
  ∃ x, (random_neighbor domain v s).1 = Ok x ∧ x ∈ domain
       ∧ (domain = [8] → x = 8).
Proof.
  intros Hne.
  destruct (random_neighbor_spec domain v s Hne) as (x & s1 & E & Hx & _).
  exists x. rewrite E. split; [done|]. split; [done|].
  intros ->. by apply list_elem_of_singleton in Hx.
Qed.

Lemma random_neighbor_in_domain_witness :
  [8] ≠ [] ∧
  ∃ x, (random_neighbor [8] 11 (env0 [2; 7]%nat)).1 = Ok x ∧ x ∈ [8]
       ∧ ([8] = [8] → x = 8).
Proof.
  split; [done|]. apply (random_neighbor_in_domain [8] 11 (env0 [2; 7]%nat)).
  done.
Defined.

(** C2, as stated, fails: with the interior anchor 16 of [[8; 16; 24]] the
    offset is drawn from the closed range [-1..1], and the draw 0 returns the
    current value itself. *)
Lemma random_neighbor_interior_may_stay :
  ¬ (∀ s : Env,
       (random_neighbor [8; 16; 24] 16 s).1 = Ok 8
       ∨ (random_neighbor [8; 16; 24] 16 s).1 = Ok 24).
Proof.
  intros Hall. destruct (Hall (env0 [1%nat])) as [E|E]; vm_compute in E;
    discriminate.
Qed.

(** C2, amended: for the domain [[8; 16; 24]] and current value 16 every call
    returns 8, 16 or 24, and each of the three is returned for some draw: an
    interior anchor moves one step left or right or stays. *)
Theorem random_neighbor_interior_three_way :
  (∀ s : Env, ∃ x, (random_neighbor [8; 16; 24] 16 s).1 = Ok x
                   ∧ (x = 8 ∨ x = 16 ∨ x = 24))
  ∧ (random_neighbor [8; 16; 24] 16 (env0 [0%nat])).1 = Ok 8
  ∧ (random_neighbor [8; 16; 24] 16 (env0 [1%nat])).1 = Ok 16
  ∧ (random_neighbor [8; 16; 24] 16 (env0 [2%nat])).1 = Ok 24.
Proof.
  split; [|by vm_compute].
  intros s.
  destruct (random_neighbor_spec [8; 16; 24] 16 s) as (x & s1 & E & Hx & _);
    [done|].
  exists x. rewrite E. split; [done|].
  set_solver.
Qed.

(** ** [rename_dag_node_list] *)

Lemma rename_inputs_elem m inps inp :
  inp ∈ rename_inputs m inps →
  ∃ k s, Some k ∈ inps ∧ k ≠ "" ∧ m !! k = Some s ∧ inp = Some s.
Proof.
  intros Hin.
  assert (inp ∈ omap (rename_input m) inps) as Hin'.
  { destruct inps; [by apply elem_of_nil in Hin | done]. }
  apply list_elem_of_omap in Hin' as ([k|] & Hk & Hr); simpl in Hr; [|done].
  destruct (decide (k = "")); [done|].
  destruct (m !! k) as [s|] eqn:E; simplify_eq/=. eauto 6.
Qed.

Lemma rename_loop_length p aio len i m nodes :
  length (rename_loop p aio len i m nodes) = length nodes.
Proof.
  revert i m. induction nodes as [|node rest IH]; intros i m; simpl; [done|].
  destruct (m !! name node); simpl; by rewrite IH.
Qed.

Lemma rename_dag_node_list_length l p rio aio :
  length (rename_dag_node_list l p rio aio) = length l.
Proof. apply rename_loop_length. Qed.

(** Renaming keeps the operator and the scale of every node. *)
Lemma rename_loop_lookup_orig p aio len i m nodes j n :
  rename_loop p aio len i m nodes !! j = Some n →
  ∃ o, nodes !! j = Some o ∧ scale n = scale o ∧ op n = op o.
Proof.
  revert i m j. induction nodes as [|node rest IH]; intros i m j; simpl;
    [done|].
  destruct (m !! name node); (destruct j as [|j]; simpl;
    [intros [= <-]; eauto | apply IH]).
Qed.

(** Where a surviving input comes from: the rename map the loop started
    with, or the new name of a node at or before the referencing one -- and
    at the referencing node itself only if that node listed its own name. *)
Lemma rename_loop_survivor p aio len nodes i m j n inp :
  rename_loop p aio len i m nodes !! j = Some n → inp ∈ inputs n →
  ∃ s, inp = Some s ∧
    ((∃ k, m !! k = Some s)
     ∨ ∃ j' n', (j' ≤ j)%nat
         ∧ rename_loop p aio len i m nodes !! j' = Some n' ∧ name n' = s
         ∧ (j' = j → ∃ o, nodes !! j = Some o ∧ Some (name o) ∈ inputs o)).
Proof.
  revert i m j. induction nodes as [|node rest IH]; intros i m j; [done|].
  cbn [rename_loop].
  set (nn := rename_new_name p aio len i).
  destruct (m !! name node) as [old|] eqn:Em.
  - (* the node keeps its name *)
    destruct j as [|j]; cbn [lookup list_lookup].
    + intros [= <-] Hin. cbn in Hin.
      apply rename_inputs_elem in Hin as (k & s & _ & _ & Hk & ->). eauto.
    + intros Hn Hin.
      destruct (IH _ _ _ Hn Hin) as (s & -> & [Hm|(j' & n' & ? & ? & ? & Hs)]);
        exists s; (split; [done|]); [by left|].
      right. exists (S j'), n'. repeat split; [lia|done..|].
      intros [= ->]. by apply Hs.
  - (* the node is renamed to [nn] *)
    destruct j as [|j]; cbn [lookup list_lookup].
    + intros [= <-] Hin. cbn in Hin.
      apply rename_inputs_elem in Hin as (k & s & Hk & _ & Hs & ->).
      exists s. split; [done|].
      destruct (decide (k = name node)) as [->|Hne].
      * rewrite lookup_insert_eq in Hs. simplify_eq.
        right. eexists 0%nat, _. repeat split; [lia|done..|]. eauto.
      * rewrite lookup_insert_ne in Hs by done. eauto.
    + intros Hn Hin.
      destruct (IH _ _ _ Hn Hin) as (s & -> & [[k Hk]|(j' & n' & ? & ? & ? & Hs)]);
        exists s; (split; [done|]).
      * destruct (decide (k = name node)) as [->|Hne].
        -- rewrite lookup_insert_eq in Hk. simplify_eq.
           right. eexists 0%nat, _. repeat split; [lia|done..].
        -- rewrite lookup_insert_ne in Hk by done. eauto.
      * right. exists (S j'), n'. repeat split; [lia|done..|].
        intros [= ->]. by apply Hs.
Qed.

(** With unique names that the rename map does not hold yet, every node is
    renamed by position. *)
Lemma rename_loop_names p aio len nodes i m j n :
  NoDup (name <$> nodes) →
  (∀ o, o ∈ nodes → m !! name o = None) →
  rename_loop p aio len i m nodes !! j = Some n →
  name n = rename_new_name p aio len (i + j).
Proof.
  revert i m j. induction nodes as [|node rest IH]; intros i m j Hnd Hm;
    [done|].
  cbn [rename_loop]. rewrite (Hm node) by set_solver.
  apply NoDup_cons in Hnd as [Hnot Hnd].
  destruct j as [|j]; cbn [lookup list_lookup].
  - intros [= <-]. cbn. by rewrite Nat.add_0_r.
  - intros Hn. replace (i + S j)%nat with (S i + j)%nat by lia.
    eapply IH; [done| |done].
    intros o Ho. rewrite lookup_insert_ne; [apply Hm; set_solver|].
    intros E. apply Hnot. rewrite E. by apply list_elem_of_fmap_2.
Qed.

(** With [add_input_output], a list that ends in a node named ['output']
    still does after renaming. *)
Lemma rename_loop_last_output p len nodes i m :
  (i + length nodes = len)%nat → (2 ≤ len)%nat →
  name <$> last nodes = Some "output" →
  name <$> last (rename_loop p true len i m nodes) = Some "output".
Proof.
  revert i m. induction nodes as [|node rest IH]; intros i m Hlen H2 Hlast;
    [done|].
  cbn [rename_loop].
  destruct rest as [|node2 rest].
  - cbn in Hlast. injection Hlast as Hlast. cbn in Hlen.
    destruct (m !! name node); cbn; [by rewrite Hlast|].
    f_equal. unfold rename_new_name.
    destruct (decide (i = 0)%nat); [lia|].
    destruct (decide _); [done|lia].
  - assert (∀ x : Node, last (x :: rename_loop p true len (S i)
        (match m !! name node with
         | None => <[name node := rename_new_name p true len i]> m
         | Some _ => m end) (node2 :: rest))
      = last (rename_loop p true len (S i)
        (match m !! name node with
         | None => <[name node := rename_new_name p true len i]> m
         | Some _ => m end) (node2 :: rest))) as Hl.
    { intros x. cbn [rename_loop]. by destruct (_ !! name node2). }
    destruct (m !! name node); rewrite Hl; apply IH; cbn in *; (lia || done).
Qed.

Lemma rename_dag_node_list_head_input l p :
  l ≠ [] →
  name <$> head (rename_dag_node_list l p true true) = Some "input".
Proof.
  destruct l as [|node rest]; [done|]. intros _.
  unfold rename_dag_node_list. cbn [rename_loop].
  rewrite lookup_empty. reflexivity.
Qed.

(** A reference survives only if the name it held is a key of the rename map
    when its node is processed: a key the loop started with, or the original
    name of a node at or before the referencing one. *)
Lemma rename_loop_survivor_source p aio len nodes i m j n inp :
  rename_loop p aio len i m nodes !! j = Some n → inp ∈ inputs n →
  ∃ o k, nodes !! j = Some o ∧ Some k ∈ inputs o ∧
    (is_Some (m !! k)
     ∨ ∃ j' o', (j' ≤ j)%nat ∧ nodes !! j' = Some o' ∧ name o' = k).
Proof.
  revert i m j. induction nodes as [|node rest IH]; intros i m j; [done|].
  cbn [rename_loop].
  destruct (m !! name node) as [old|] eqn:Em.
  - destruct j as [|j]; cbn [lookup list_lookup].
    + intros [= <-] Hin. cbn in Hin.
      apply rename_inputs_elem in Hin as (k & s & Hk & _ & Hs & ->).
      exists node, k. eauto.
    + intros Hn Hin.
      destruct (IH _ _ _ Hn Hin) as (o & k & ? & ? & [Hm|(j' & o' & ? & ? & ?)]);
        exists o, k; (repeat split; [done..|]); [by left|].
      right. exists (S j'), o'. repeat split; [lia|done..].
  - destruct j as [|j]; cbn [lookup list_lookup].
    + intros [= <-] Hin. cbn in Hin.
      apply rename_inputs_elem in Hin as (k & s & Hk & _ & Hs & ->).
      exists node, k. repeat split; [done..|].
      destruct (decide (k = name node)) as [->|Hne].
      * right. exists 0%nat, node. done.
      * rewrite lookup_insert_ne in Hs by done. eauto.
    + intros Hn Hin.
      destruct (IH _ _ _ Hn Hin) as (o & k & ? & ? & [Hm|(j' & o' & ? & ? & ?)]);
        exists o, k; (repeat split; [done..|]).
      * destruct (decide (k = name node)) as [->|Hne].
        -- right. exists 0%nat, node. repeat split; [lia|done..].
        -- rewrite lookup_insert_ne in Hm by done. eauto.
      * right. exists (S j'), o'. repeat split; [lia|done..].
Qed.


(** Survivors of the whole renaming, for either seeding of the map. *)
Lemma rename_survivors l p rio aio j n inp :
  rename_dag_node_list l p rio aio !! j = Some n → inp ∈ inputs n →
  ∃ s, inp = Some s
    ∧ ((∃ j' n', (j' ≤ j)%nat
          ∧ rename_dag_node_list l p rio aio !! j' = Some n' ∧ name n' = s)
       ∨ rio = false ∧ (s = "input" ∨ s = "output"))
    ∧ ∃ o k, l !! j = Some o ∧ Some k ∈ inputs o
        ∧ ((∃ j' o', (j' ≤ j)%nat ∧ l !! j' = Some o' ∧ name o' = k)
           ∨ rio = false ∧ (k = "input" ∨ k = "output")).
Proof.
  unfold rename_dag_node_list. intros Hn Hin.
  set (m0 := if rio then ∅ else <["output":="output"]> (<["input":="input"]> ∅))
    in *.
  assert (∀ k s, (m0 : gmap string string) !! k = Some s →
            rio = false ∧ (k = "input" ∨ k = "output") ∧ s = k) as Hm0.
  { intros k s. unfold m0. destruct rio; [by rewrite lookup_empty|].
    intros Hk. split; [done|].
    destruct (decide (k = "output")) as [->|?].
    { rewrite lookup_insert_eq in Hk. naive_solver. }
    rewrite lookup_insert_ne in Hk by done.
    destruct (decide (k = "input")) as [->|?].
    { rewrite lookup_insert_eq in Hk. naive_solver. }
    rewrite lookup_insert_ne in Hk by done. by rewrite lookup_empty in Hk. }
  destruct (rename_loop_survivor _ _ _ _ _ _ _ _ _ Hn Hin)
    as (s & -> & Hs).
  destruct (rename_loop_survivor_source _ _ _ _ _ _ _ _ _ Hn Hin)
    as (o & k & Ho & Hk & Hsrc).
  exists s. split; [done|]. split.
  - destruct Hs as [[k' Hk']|(j' & n' & ? & ? & ? & _)]; [|eauto 8].
    apply Hm0 in Hk' as (? & ? & ->). eauto.
  - exists o, k. repeat split; [done..|].
    destruct Hsrc as [[s' Hs']|?]; [|eauto].
    apply Hm0 in Hs' as (? & ? & _). eauto.
Qed.



(** With [rename_input_output = True] no reference dangles. *)
Lemma rename_dag_node_list_no_dangling l p aio :
  no_dangling (rename_dag_node_list l p true aio).
Proof.
  intros n s [j Hj]%list_elem_of_lookup Hs.
  destruct (rename_survivors _ _ _ _ _ _ _ Hj Hs)
    as (s' & [= <-] & [(j' & n' & _ & Hn' & <-)|[? _]] & _); [|done].
  apply list_elem_of_fmap_2. by eapply list_elem_of_lookup_2.
Qed.

(** ** Generic facts about the effectful combinators *)

Lemma mapM_inv {A B} (f : A → M B) l s ys s' :
  mapM f l s = (Ok ys, s') →
  Forall2 (λ x y, ∃ s1 s2, f x s1 = (Ok y, s2)) l ys.
Proof.
  revert s ys. induction l as [|x l IH]; intros s ys; cbn [mapM].
  - intros [= <- <-]. constructor.
  - intros (y & s1 & Hy & H)%bind_inv_ok.
    apply bind_inv_ok in H as (ys' & s2 & Hys & [= <- <-]).
    constructor; eauto.
Qed.

Lemma py_index_inv {A} (l : list A) i x :
  py_index l i = Ok x → x ∈ l.
Proof.
  unfold py_index. destruct (decide _); [|done].
  destruct (l !! _) eqn:E; [|done]. intros [= <-].
  by eapply list_elem_of_lookup_2.
Qed.

Lemma py_index_nonneg_inv {A} (l : list A) i x :
  0 ≤ i → py_index l i = Ok x → l !! Z.to_nat i = Some x.
Proof.
  intros Hi. unfold py_index. destruct (decide (i < 0)); [lia|].
  destruct (decide _); [|done].
  destruct (l !! _) eqn:E; [|done]. by intros [= <-].
Qed.

Lemma random_choice_inv {A} (l : list A) s x s' :
  random_choice l s = (Ok x, s') → x ∈ l.
Proof.
  unfold random_choice. destruct l as [|y l]; [done|].
  intros (i & s1 & _ & H)%bind_inv_ok. unfold lift in H.
  injection H as H _. by eapply py_index_inv.
Qed.

Lemma random_choice_ok {A} (l : list A) s :
  l ≠ [] → ∃ x s', random_choice l s = (Ok x, s') ∧ x ∈ l ∧ log s' = log s.
Proof.
  intros Hl. unfold random_choice. destruct l as [|y l]; [done|].
  destruct (randint_spec 0 (Z.of_nat (length (y :: l)) - 1) s)
    as (i & s1 & E & Hi & Hlog); [cbn; lia|].
  rewrite (bind_ok _ _ _ _ _ E).
  destruct (py_index_ok (y :: l) i) as (x & Ex & Hx); [lia|].
  exists x, s1. unfold lift. rewrite Ex. split; [done|]. split; [|done].
  by eapply list_elem_of_lookup_2.
Qed.

(** ** Names produced by the renamer *)

Lemma layer_name_inj p a b : layer_name p a = layer_name p b → a = b.
Proof.
  unfold layer_name. intros E.
  apply (inj (String.append p)) in E.
  apply (inj (String.append "layer_")) in E.
  by apply (inj pretty) in E.
Qed.

Lemma layer_name_left_right a b :
  layer_name "left_" a ≠ layer_name "right_" b.
Proof. discriminate. Qed.

Lemma layer_name_left_output a : layer_name "left_" a ≠ "output".
Proof. discriminate. Qed.

Lemma layer_name_right_output a : layer_name "right_" a ≠ "output".
Proof. discriminate. Qed.

Lemma rename_parent_shape g0 pfx :
  parent_ok g0 → pfx ≠ "" →
  renamed_shape (pfx +:+ "_") (rename_dag_node_list g0 pfx true false).
Proof.
  intros [Hnd Hself] Hpfx j n Hn.
  unfold rename_dag_node_list in *.
  destruct (decide (pfx = "")); [done|].
  assert (∀ j n, rename_loop (pfx +:+ "_") false (length g0) 0 ∅ g0 !! j
                   = Some n → name n = layer_name (pfx +:+ "_") j) as Hnames.
  { intros j' n' Hn'.
    by apply rename_loop_names in Hn'; [|done|intros; apply lookup_empty]. }
  split; [by apply Hnames|].
  intros e He.
  destruct (rename_loop_survivor _ _ _ _ _ _ _ _ _ Hn He)
    as (s & -> & [[k Hk]|(j' & n' & Hle & Hn' & <- & Hs)]).
  { by rewrite lookup_empty in Hk. }
  exists j'. split; [|by rewrite (Hnames _ _ Hn')].
  destruct (decide (j' = j)) as [->|]; [|lia].
  destruct (Hs eq_refl) as (o & Ho & Hin).
  rewrite Forall_forall in Hself.
  destruct (Hself o); [by eapply list_elem_of_lookup_2 | done].
Qed.

(** ** [crossover] *)

Section crossover_facts.
Context `{Compiler}.

(** A repaired slot keeps its reference, or holds [None], or names a node
    of the left half. *)
Lemma repair_input_inv left_half right_g right_n q idx inp s r s' :
  repair_input left_half right_g right_n q idx inp s = (Ok r, s') →
  r = inp ∨ r = None ∨ ∃ c, r = Some c ∧ c ∈ name <$> left_half.
Proof.
  unfold repair_input. destruct (decide _) as [Hin|Hout].
  { intros [= <- <-]. by left. }
  intros (i & s1 & _ & Hr)%bind_inv_ok.
  apply bind_inv_ok in Hr as (orig & s2 & _ & Hr).
  destruct (name <$> filter _ left_half) as [|c0 cs] eqn:Ec.
  { injection Hr as <- _. auto. }
  apply bind_inv_ok in Hr as (c & s3 & Hc & [= <- <-]).
  apply random_choice_inv in Hc. rewrite <- Ec in Hc.
  right; right. exists c. split; [done|].
  apply list_elem_of_fmap in Hc as (nd & -> & Hn%list_elem_of_filter).
  apply list_elem_of_fmap_2. tauto.
Qed.

Lemma repair_node_inv left_half right_g right_n q idx fields s n s' :
  repair_node left_half right_g right_n q idx fields s = (Ok n, s') →
  name n = name fields ∧ scale n = scale fields ∧ op n = op fields
  ∧ ∀ e, e ∈ inputs n →
      e ∈ inputs fields ∨ e = None
      ∨ ∃ c, e = Some c ∧ c ∈ name <$> left_half.
Proof.
  unfold repair_node.
  intros (inps & s1 & Hm & [= <- <-])%bind_inv_ok.
  repeat split; [done..|]. cbn. intros e He.
  apply mapM_inv in Hm.
  apply list_elem_of_lookup in He as [i Hi].
  destruct (Forall2_lookup_r _ _ _ _ _ Hm Hi) as (x & Hx & s2 & s3 & Hr).
  apply repair_input_inv in Hr as [->|[->|?]]; [|auto..].
  left. by eapply list_elem_of_lookup_2.
Qed.

Lemma merged_from_refl ns o : merged_from ns o o.
Proof. split; auto. Qed.

Lemma splice_inv left_g right_g right_n left_pivot lp rp s g s' :
  splice left_g right_g right_n left_pivot lp rp s = (Ok g, s') →
  left_pivot ∈ name <$> take (S lp) left_g →
  ∃ right_half,
    g = rename_dag_node_list (take (S lp) left_g ++ right_half) "" true true
    ∧ name <$> last right_half = Some "output"
    ∧ Forall2 (merged_from (name <$> take (S lp) left_g))
        (drop rp right_g) right_half
    ∧ ∀ t n o, (S t < length right_half)%nat →
        right_half !! t = Some n → drop rp right_g !! t = Some o →
        name n = name o.
Proof.
  unfold splice. intros Hs Hpivot.
  apply bind_inv_ok in Hs as (repaired & s1 & Hm & Hs).
  apply mapM_inv in Hm.
  apply Forall2_reverse in Hm. rewrite reverse_involutive in Hm.
  set (rh1 := reverse repaired) in *.
  set (ln := name <$> take (S lp) left_g) in *.
  assert (Forall2 (λ o n, name n = name o ∧ merged_from ln o n)
            (drop rp right_g) rh1) as H1.
  { eapply Forall2_impl; [exact Hm|]. cbn.
    intros o n (s2 & s3 & Hr). apply repair_node_inv in Hr
      as (Hname & _ & _ & Hin).
    split; [done|]. split; [by left|]. exact Hin. }
  apply bind_inv_ok in Hs as (rh2 & s2 & Hrh2 & Hs).
  assert (rh1 ≠ [] ∧ rh2 = alter (set_name "output") (length rh1 - 1)%nat rh1)
    as [Hne ->].
  { destruct rh1; [done|]. by injection Hrh2 as <- _. }
  apply bind_inv_ok in Hs as (first & s3 & Hfirst & [= <- <-]).
  set (rh2 := alter (set_name "output") (length rh1 - 1)%nat rh1) in *.
  assert (length rh2 = length rh1) as Hlen2 by apply length_alter.
  assert (Forall2 (merged_from ln) (drop rp right_g) rh2) as H2'.
  { apply Forall2_same_length_lookup. split.
    { rewrite Hlen2. by eapply Forall2_length. }
    intros i o n Ho Hn. unfold rh2 in Hn.
    rewrite list_lookup_alter in Hn.
    destruct (decide (_ = i)) as [<-|Hi1].
    - destruct (rh1 !! _) as [n1|] eqn:E1; [|done]. injection Hn as <-.
      destruct (Forall2_lookup_lr _ _ _ _ _ _ H1 Ho E1) as (_ & _ & Hin).
      split; [by right|exact Hin].
    - by destruct (Forall2_lookup_lr _ _ _ _ _ _ H1 Ho Hn) as (? & ?). }
  assert (∀ t n o, (S t < length rh2)%nat → rh2 !! t = Some n →
            drop rp right_g !! t = Some o → name n = name o) as Hnames2.
  { intros t n o Ht Hn Ho. unfold rh2 in Hn.
    rewrite list_lookup_alter_ne in Hn by lia.
    by destruct (Forall2_lookup_lr _ _ _ _ _ _ H1 Ho Hn). }
  assert (name <$> last rh2 = Some "output") as Hlast2.
  { rewrite last_lookup. unfold rh2. rewrite length_alter.
    replace (pred (length rh1)) with (length rh1 - 1)%nat by lia.
    rewrite list_lookup_alter_eq.
    destruct (lookup_lt_is_Some_2 rh1 (length rh1 - 1)) as [x ->]; [|done].
    destruct rh1; [done|cbn; lia]. }
  destruct (decide (Some left_pivot ∈ inputs first)) as [Hin1|Hnot1].
  { exists rh2. done. }
  eexists. split; [done|]. split; [|split].
  - rewrite last_lookup, length_alter, list_lookup_alter.
    rewrite last_lookup in Hlast2.
    destruct (decide (0%nat = pred (length rh2))) as [E|Hne0]; [|done].
    rewrite <- E in Hlast2.
    by destruct (rh2 !! 0%nat).
  - apply Forall2_same_length_lookup. split.
    { rewrite length_alter. by eapply Forall2_length. }
    intros i o n Ho Hn. rewrite list_lookup_alter in Hn.
    destruct (decide (0%nat = i)) as [<-|Hi0]; [|by eapply Forall2_lookup_lr].
    destruct (rh2 !! 0%nat) as [n2|] eqn:E2; [|done]. injection Hn as <-.
    destruct (Forall2_lookup_lr _ _ _ _ _ _ H2' Ho E2) as [Hnm Hin].
    split; [done|]. cbn. intros e [He|He]%elem_of_app; [by apply Hin|].
    apply list_elem_of_singleton in He as ->. eauto.
  - intros t n o Ht Hn Ho. rewrite length_alter in Ht.
    rewrite list_lookup_alter in Hn.
    destruct (decide (0%nat = t)) as [<-|Ht0]; [|by eapply Hnames2].
    destruct (rh2 !! 0%nat) as [n2|] eqn:E2; [|done]. injection Hn as <-.
    cbn. by eapply Hnames2.
Qed.
End crossover_facts.

Lemma sample_loop_elem {A} (k : nat) (pool : list A) s l s' :
  sample_loop k pool s = (Ok l, s') → ∀ x, x ∈ l → x ∈ pool.
Proof.
  revert pool s l. induction k as [|k IH]; intros pool s l; cbn [sample_loop].
  - intros [= <- <-] x Hx. by apply elem_of_nil in Hx.
  - intros (i & s1 & _ & Hr)%bind_inv_ok.
    apply bind_inv_ok in Hr as (y & s2 & Hy & Hr).
    apply bind_inv_ok in Hr as (rest & s3 & Hrest & [= <- <-]).
    injection Hy as Hy _. apply py_index_inv in Hy.
    intros x [->|Hx]%elem_of_cons; [done|].
    specialize (IH _ _ _ Hrest x Hx).
    by eapply list_elem_of_delete_inv.
Qed.

Lemma random_sample_k_elem {A} (population : list A) k s l s' :
  random_sample_k population k s = (Ok l, s') → ∀ x, x ∈ l → x ∈ population.
Proof.
  unfold random_sample_k. destruct (decide _); [|done]. apply sample_loop_elem.
Qed.

(** The merged list before its final renaming has no node that lists its own
    name. *)
Lemma merged_no_self lg rg lp rp rh :
  renamed_shape "left_" lg → renamed_shape "right_" rg →
  Forall2 (merged_from (name <$> take (S lp) lg)) (drop rp rg) rh →
  Forall (λ n, Some (name n) ∉ inputs n) (take (S lp) lg ++ rh).
Proof.
  intros Hl Hr Hm. apply Forall_app. split; apply Forall_forall.
  - intros n [j [Hj _]]%elem_of_take Hself.
    destruct (Hl j n Hj) as [Hname Hin].
    destruct (Hin _ Hself) as (b & Hb & [= E]).
    rewrite Hname in E. apply layer_name_inj in E. lia.
  - intros n [t Ht]%list_elem_of_lookup Hself.
    destruct (Forall2_lookup_r _ _ _ _ _ Hm Ht) as (o & Ho & [Hname Hin]).
    rewrite lookup_drop in Ho.
    destruct (Hr _ _ Ho) as [Hon Hoin].
    destruct (Hin _ Hself) as [He|[He|(c & [= <-] & Hc)]]; [|done|].
    + destruct (Hoin _ He) as (b & Hb & [= E]).
      destruct Hname as [Hn|Hn]; rewrite Hn in E.
      * rewrite Hon in E. apply layer_name_inj in E. lia.
      * by destruct (layer_name_right_output b).
    + apply list_elem_of_fmap in Hc as (ln & Eln & [j [Hj _]]%elem_of_take).
      destruct (Hl j ln Hj) as [Hln _]. rewrite Hln in Eln.
      destruct Hname as [Hn|Hn]; rewrite Eln in Hn.
      * rewrite Hon in Hn. by destruct (layer_name_left_right j (rp + t)).
      * by destruct (layer_name_left_output j).
Qed.

(** The final renaming of line 410 establishes the graph invariant on any
    list without self-references that ends in ['output']. *)
Lemma final_rename_invariant merged :
  (2 ≤ length merged)%nat →
  name <$> last merged = Some "output" →
  Forall (λ n, Some (name n) ∉ inputs n) merged →
  graph_invariant (rename_dag_node_list merged "" true true).
Proof.
  intros Hlen Hlast Hself. repeat split.
  - apply rename_dag_node_list_head_input. by destruct merged.
  - by apply rename_loop_last_output.
  - intros i n inp Hn Hin.
    destruct (rename_loop_survivor _ _ _ _ _ _ _ _ _ Hn Hin)
      as (s & -> & [[k Hk]|(j' & n' & Hle & Hn' & <- & Hs)]).
    { by rewrite lookup_empty in Hk. }
    exists (name n'), j', n'. repeat split; [|done].
    destruct (decide (j' = i)) as [->|]; [|lia].
    destruct (Hs eq_refl) as (o & Ho & Hoin).
    rewrite Forall_forall in Hself.
    destruct (Hself o); [by eapply list_elem_of_lookup_2 | done].
Qed.

Lemma NoDup_by_index {A} (l : list A) (F : nat → A) :
  (∀ i x, l !! i = Some x → x = F i) →
  (∀ i j, (i < length l)%nat → (j < length l)%nat → F i = F j → i = j) →
  NoDup l.
Proof.
  intros HF Hinj. apply NoDup_alt. intros i j x Hi Hj.
  apply Hinj; [by eapply lookup_lt_Some..|].
  by rewrite <- (HF _ _ Hi), <- (HF _ _ Hj).
Qed.

(** Node names of the merged list are unique before the final renaming. *)
Lemma merged_names_nodup lg rg lp rp rh :
  renamed_shape "left_" lg → renamed_shape "right_" rg →
  name <$> last rh = Some "output" →
  Forall2 (merged_from (name <$> take (S lp) lg)) (drop rp rg) rh →
  (∀ t n o, (S t < length rh)%nat → rh !! t = Some n →
     drop rp rg !! t = Some o → name n = name o) →
  NoDup (name <$> (take (S lp) lg ++ rh)).
Proof.
  intros Hl Hr Hlast Hm Hnames.
  set (L := length (take (S lp) lg)).
  apply (NoDup_by_index _
    (λ i, if decide (i < L)%nat then layer_name "left_" i
          else if decide (S (i - L) < length rh)%nat
               then layer_name "right_" (rp + (i - L))
               else "output")).
  - intros i x. rewrite list_lookup_fmap.
    destruct ((take (S lp) lg ++ rh) !! i) as [n|] eqn:En; [|done].
    intros [= <-]. apply lookup_app_Some in En as [En|[Hge En]].
    + pose proof (lookup_lt_Some _ _ _ En) as Hlt. fold L in Hlt.
      destruct (decide (i < L)%nat); [|lia].
      apply lookup_take_Some in En as [En _]. by destruct (Hl _ _ En).
    + fold L in Hge, En. destruct (decide (i < L)%nat); [lia|].
      destruct (Forall2_lookup_r _ _ _ _ _ Hm En) as (o & Ho & _).
      destruct (decide _) as [Hlt|Hnlt].
      * rewrite (Hnames _ _ _ Hlt En Ho). rewrite lookup_drop in Ho.
        by destruct (Hr _ _ Ho).
      * pose proof (lookup_lt_Some _ _ _ En) as Hlt.
        rewrite last_lookup in Hlast.
        replace (pred (length rh)) with (i - L)%nat in Hlast by lia.
        rewrite En in Hlast. by injection Hlast.
  - intros i j Hi Hj. rewrite length_fmap, length_app in Hi, Hj.
    fold L in Hi, Hj.
    repeat destruct (decide _); intros E; try lia;
      try (apply layer_name_inj in E; lia);
      try (by destruct (layer_name_left_right _ _ E));
      try (by destruct (layer_name_left_right _ _ (eq_sym E)));
      try (by destruct (layer_name_left_output _ E));
      try (by destruct (layer_name_left_output _ (eq_sym E)));
      try (by destruct (layer_name_right_output _ E));
      try (by destruct (layer_name_right_output _ (eq_sym E))).
Qed.

(** The final renaming gives unique names to a list with unique names. *)
Lemma final_rename_nodup merged :
  NoDup (name <$> merged) →
  NoDup (name <$> rename_dag_node_list merged "" true true).
Proof.
  intros Hnd. unfold rename_dag_node_list.
  apply (NoDup_by_index _ (rename_new_name "" true (length merged))).
  - intros i x. rewrite list_lookup_fmap.
    destruct (rename_loop _ _ _ _ _ _ !! i) as [n|] eqn:En; [|done].
    intros [= <-].
    apply rename_loop_names in En; [done..|]. intros. apply lookup_empty.
  - intros i j. rewrite length_fmap, rename_loop_length.
    unfold rename_new_name. intros Hi Hj.
    repeat destruct (decide _); intros E; try lia; try done.
    apply layer_name_inj in E. lia.
Qed.

(** A graph that satisfies the invariant and has unique names is an
    admissible parent. *)
Lemma graph_invariant_parent_ok g :
  graph_invariant g → NoDup (name <$> g) → parent_ok g.
Proof.
  intros (_ & _ & Hearlier) Hnd. split; [done|].
  apply Forall_forall. intros n [i Hi]%list_elem_of_lookup Hself.
  destruct (Hearlier _ _ _ Hi Hself) as (s & j & m & [= <-] & Hlt & Hj & Hname).
  rewrite NoDup_alt in Hnd.
  assert (j = i); [|lia].
  apply (Hnd j i (name n)); rewrite list_lookup_fmap.
  - by rewrite Hj, <- Hname.
  - by rewrite Hi.
Qed.

Section crossover_loop_facts.
Context `{Compiler}.

Lemma right_candidates_inv lg rg rn lp cands rp :
  right_candidates lg rg rn lp = Ok cands → rp ∈ cands →
  (0 < rp)%nat ∧ Z.of_nat rp < Z.of_nat (length rn) - 1
  ∧ is_Some (rg !! rp).
Proof.
  unfold right_candidates. destruct (py_index lg lp) as [pivot|]; [|done].
  cbn. intros [= <-] Hrp.
  apply list_elem_of_fmap in Hrp as ([i fields] & -> & Hin).
  apply list_elem_of_filter in Hin as [(_ & ? & ?) Hin]. cbn in *.
  apply list_elem_of_lookup in Hin as [k Hk].
  rewrite list_lookup_imap in Hk.
  destruct (rg !! k) as [x|] eqn:E; [|done]. cbn in Hk.
  injection Hk as <- <-. eauto.
Qed.

(** A successful iteration is a splice at a left pivot and a right pivot
    that are both interior. *)
Lemma crossover_attempt_inv lg rg ln rn s g s' :
  crossover_attempt lg rg ln rn s = (Ok (Some g), s') →
  ∃ lp rp left_pivot s1 s2,
    1 ≤ lp ≤ Z.of_nat (length ln) - 2
    ∧ ln !! Z.to_nat lp = Some left_pivot
    ∧ (0 < rp)%nat ∧ Z.of_nat rp < Z.of_nat (length rn) - 1
    ∧ is_Some (rg !! rp)
    ∧ splice lg rg rn left_pivot (Z.to_nat lp) rp s1 = (Ok g, s2).
Proof.
  unfold crossover_attempt.
  intros (lp & s1 & Hlp & Hr)%bind_inv_ok.
  apply randint_inv in Hlp as [Hlp _].
  apply bind_inv_ok in Hr as (left_pivot & s2 & Hpiv & Hr).
  injection Hpiv as Hpiv <-.
  apply py_index_nonneg_inv in Hpiv; [|lia].
  apply bind_inv_ok in Hr as (cands & s3 & Hc & Hr).
  injection Hc as Hc <-.
  destruct cands as [|c0 cs] eqn:Ec; [done|]. rewrite <- Ec in *.
  assert (cands ≠ []) as Hne by (by rewrite Ec). clear Ec.
  apply bind_inv_ok in Hr as (rp & s4 & Hrp & Hr).
  apply random_choice_inv in Hrp.
  apply bind_inv_ok in Hr as (g' & s5 & Hsp & [= <- <-]).
  destruct (right_candidates_inv _ _ _ _ _ _ Hc Hrp) as (? & ? & ?).
  eauto 12.
Qed.

Lemma crossover_loop_success fuel patience lg rg ln rn r nb s g n s' :
  crossover_loop fuel patience lg rg ln rn r nb s = (Ok (Some g, n), s') →
  r = Some g
  ∨ ∃ s1 s2, crossover_attempt lg rg ln rn s1 = (Ok (Some g), s2).
Proof.
  revert r nb s. induction fuel as [|fuel IH]; intros r nb s;
    cbn [crossover_loop].
  { intros [= -> _ _]. by left. }
  destruct r as [g0|]; [intros [= -> _ _]; by left|].
  destruct (bool_decide _); [|done].
  intros (r' & s1 & Ha & Hl)%bind_inv_ok.
  apply IH in Hl as [->|?]; eauto.
Qed.

Lemma crossover_splice_invariant model_1 model_2 patience s
    left_m right_m g n s' :
  parent_ok (graph_values (arch model_1)) →
  parent_ok (graph_values (arch model_2)) →
  crossover_splice model_1 model_2 patience s
    = (Ok (left_m, right_m, Looped (Some g) n), s') →
  graph_invariant g ∧ NoDup (name <$> g).
Proof.
  intros Hp1 Hp2. unfold crossover_splice.
  intros (ms & s1 & Hms & Hr)%bind_inv_ok.
  destruct ms as [|lm [|rm [|]]]; try done.
  assert (parent_ok (graph_values (arch lm))
          ∧ parent_ok (graph_values (arch rm))) as [Hl Hrp].
  { pose proof (random_sample_k_elem _ _ _ _ _ Hms) as Hel.
    assert (∀ x, x ∈ [model_1; model_2] →
              parent_ok (graph_values (arch x))) as Hok.
    { intros x [->|[->|[]%elem_of_nil]%elem_of_cons]%elem_of_cons; done. }
    split; apply Hok, Hel; set_solver. }
  apply (rename_parent_shape _ "left") in Hl; [|done].
  apply (rename_parent_shape _ "right") in Hrp; [|done].
  set (lg := rename_dag_node_list (graph_values (arch lm)) "left" true false)
    in *.
  set (rg := rename_dag_node_list (graph_values (arch rm)) "right" true false)
    in *.
  destruct (decide _); [done|].
  apply bind_inv_ok in Hr as ([r nb] & s2 & Hloop & Hret).
  cbn in Hret. injection Hret as _ _ -> _ _.
  apply crossover_loop_success in Hloop as [?|(s3 & s4 & Ha)]; [done|].
  apply crossover_attempt_inv in Ha
    as (lp & rp & left_pivot & s5 & s6 & Hlp & Hpiv & Hrp0 & Hrp1 & [o Ho]
        & Hsp).
  rewrite list_lookup_fmap in Hpiv.
  destruct (lg !! Z.to_nat lp) as [pn|] eqn:Epn; [|done].
  injection Hpiv as <-.
  apply splice_inv in Hsp as (rh & -> & Hlast & Hm & Hnames).
  2:{ apply list_elem_of_fmap_2. apply elem_of_take. exists (Z.to_nat lp).
      split; [done|lia]. }
  split.
  - apply final_rename_invariant.
    + rewrite length_app. apply Forall2_length in Hm.
      rewrite <- Hm, length_drop, length_take.
      apply lookup_lt_Some in Ho. apply lookup_lt_Some in Epn. lia.
    + rewrite last_app. by destruct (last rh).
    + by apply merged_no_self with (rg := rg) (rp := rp).
  - apply final_rename_nodup.
    by apply merged_names_nodup with (rg := rg) (rp := rp).
Qed.
End crossover_loop_facts.

(** C4: the merged node list a successful crossover produces satisfies the
    graph invariant -- first node ['input'], last node ['output'], every
    surviving input the name of a node at a strictly earlier position, so
    the graph is acyclic -- and its node names are unique, for parents with
    unique node names none of which lists itself. *)
Theorem crossover_merged_graph_invariant `{Compiler}
    (model_1 model_2 left_m right_m : ArchWithMetaData) (patience : Z)
    (s s' : Env) (g : list Node) (n : Z) :
  parent_ok (graph_values (arch model_1)) →
  parent_ok (graph_values (arch model_2)) →
  crossover_splice model_1 model_2 patience s
    = (Ok (left_m, right_m, Looped (Some g) n), s') →
  graph_invariant g ∧ NoDup (name <$> g).
Proof. apply crossover_splice_invariant. Qed.

Lemma py_index_fmap {A B} (f : A → B) (l : list A) i x :
  py_index l i = Ok x → py_index (f <$> l) i = Ok (f x).
Proof.
  unfold py_index. rewrite length_fmap.
  destruct (decide _); [|done].
  rewrite list_lookup_fmap. destruct (l !! _); [|done].
  by intros [= ->].
Qed.

Section crossover_none.
Context `{Compiler} (self : DiscreteSearchSpaceSegmentation).

Lemma crossover_attempt_none lg rg rn s s' :
  crossover_attempt lg rg (name <$> lg) rn s = (Ok None, s') ↔
  ∃ lp, randint 1 (Z.of_nat (length (name <$> lg)) - 2) s = (Ok lp, s')
        ∧ right_candidates lg rg rn lp = Ok [].
Proof.
  unfold crossover_attempt. split.
  - intros (lp & s1 & Hlp & Hr)%bind_inv_ok.
    apply bind_inv_ok in Hr as (left_pivot & s2 & Hpiv & Hr).
    injection Hpiv as Hpiv <-.
    apply bind_inv_ok in Hr as (cands & s3 & Hc & Hr).
    injection Hc as Hc <-.
    destruct cands as [|c0 cs].
    + injection Hr as <-. eauto.
    + apply bind_inv_ok in Hr as (rp & s4 & _ & Hr).
      by apply bind_inv_ok in Hr as (g' & s5 & _ & [= _]).
  - intros (lp & Hlp & Hc).
    rewrite (bind_ok _ _ _ _ _ Hlp).
    assert (∃ pivot, py_index lg lp = Ok pivot) as [pivot Hp].
    { unfold right_candidates in Hc. destruct (py_index lg lp); [eauto|done]. }
    rewrite (bind_lift_ok _ _ _ _ (py_index_fmap name _ _ _ Hp)).
    rewrite (bind_lift_ok _ _ _ _ Hc). done.
Qed.

Lemma crossover_loop_some fuel patience lg rg ln rn g nb s :
  crossover_loop fuel patience lg rg ln rn (Some g) nb s
  = (Ok (Some g, nb), s).
Proof. by destruct fuel. Qed.

(** The filter of lines 366-371 is empty exactly when the pivot finds no
    partner. *)
Lemma right_candidates_nil lg rg lp :
  1 ≤ lp ≤ Z.of_nat (length lg) - 2 →
  right_candidates lg rg (name <$> rg) lp = Ok [] ↔ pivot_misses lg rg lp.
Proof.
  intros Hlp. unfold right_candidates, pivot_misses.
  destruct (py_index_ok lg lp) as (pivot & -> & Hpiv); [lia|].
  cbn [res_bind]. rewrite Hpiv. split.
  - intros Hnil. split; [done|]. exists pivot. split; [done|].
    intros j n Hj Hj' Hn Hsc.
    injection Hnil as Hnil. apply fmap_nil_inv in Hnil.
    assert ((j, n) ∈ filter (λ p : nat * Node,
                               scale p.2 = scale pivot ∧ (0 < p.1)%nat
                               ∧ Z.of_nat p.1
                                 < Z.of_nat (length (name <$> rg)) - 1)
                       (imap (λ i fields, (i, fields)) rg)) as Hin.
    { apply list_elem_of_filter. cbn [fst snd]. rewrite length_fmap.
      split; [split; [done|lia]|].
      apply list_elem_of_lookup. exists j.
      by rewrite list_lookup_imap, Hn. }
    rewrite Hnil in Hin. by apply elem_of_nil in Hin.
  - intros (_ & pivot' & [= <-] & Hmiss). f_equal.
    match goal with
    | |- context [filter ?P ?l] => assert (filter P l = []) as ->; [|done]
    end.
    apply elem_of_nil_inv. intros [j fields] Hin.
    apply list_elem_of_filter in Hin as [(Hsc & Hj0 & Hj1) Hin].
    cbn [fst snd] in *. rewrite length_fmap in Hj1.
    apply list_elem_of_lookup in Hin as [k Hk].
    rewrite list_lookup_imap in Hk.
    destruct (rg !! k) as [x|] eqn:E; [|done]. cbn in Hk.
    injection Hk as <- <-.
    eapply (Hmiss k x); first [done | lia].
Qed.

(** The renaming of lines 344 keeps the positions and the scales, so a
    pivot misses on the renamed graphs exactly when it misses on the graphs
    of the parents. *)
Lemma rename_lookup_scale l p rio aio j :
  scale <$> (rename_dag_node_list l p rio aio !! j) = scale <$> (l !! j).
Proof.
  destruct (rename_dag_node_list l p rio aio !! j) as [n|] eqn:En.
  - unfold rename_dag_node_list in En.
    apply rename_loop_lookup_orig in En as (o & Ho & Hsc & _).
    rewrite Ho. cbn. by rewrite Hsc.
  - apply lookup_ge_None in En. rewrite rename_dag_node_list_length in En.
    apply lookup_ge_None in En. by rewrite En.
Qed.

Lemma pivot_misses_renamed g1 g2 p1 p2 lp :
  pivot_misses (rename_dag_node_list g1 p1 true false)
    (rename_dag_node_list g2 p2 true false) lp
  ↔ pivot_misses g1 g2 lp.
Proof.
  unfold pivot_misses. rewrite !rename_dag_node_list_length.
  split; intros (Hlp & pivot & Hpiv & Hmiss); (split; [done|]).
  - pose proof (rename_lookup_scale g1 p1 true false (Z.to_nat lp)) as E1.
    rewrite Hpiv in E1. destruct (g1 !! Z.to_nat lp) as [o|]; [|done].
    injection E1 as E1. exists o. split; [done|].
    intros j n Hj Hj' Hn.
    pose proof (rename_lookup_scale g2 p2 true false j) as E2.
    rewrite Hn in E2.
    destruct (rename_dag_node_list g2 p2 true false !! j) as [n'|] eqn:En';
      [|done].
    injection E2 as E2. rewrite <- E2, <- E1. by eapply Hmiss.
  - pose proof (rename_lookup_scale g1 p1 true false (Z.to_nat lp)) as E1.
    rewrite Hpiv in E1.
    destruct (rename_dag_node_list g1 p1 true false !! Z.to_nat lp)
      as [o|]; [|done].
    injection E1 as E1. exists o. split; [done|].
    intros j n Hj Hj' Hn.
    pose proof (rename_lookup_scale g2 p2 true false j) as E2.
    rewrite Hn in E2. destruct (g2 !! j) as [n'|] eqn:En'; [|done].
    injection E2 as E2. rewrite E2, E1. by eapply Hmiss.
Qed.

(** The loop ends without a result exactly when every one of the
    [patience - nb_tries] iterations it still had missed; [nb_tries] has
    then reached [patience]. *)
Lemma crossover_loop_none fuel patience g1 g2 nb s n s' :
  (Z.to_nat (patience - nb) ≤ fuel)%nat →
  crossover_loop fuel patience
    (rename_dag_node_list g1 "left" true false)
    (rename_dag_node_list g2 "right" true false)
    (name <$> rename_dag_node_list g1 "left" true false)
    (name <$> rename_dag_node_list g2 "right" true false) None nb s
    = (Ok (None, n), s') ↔
  attempts_miss (Z.to_nat (patience - nb)) g1 g2 s s'
  ∧ n = Z.max nb patience.
Proof.
  set (lg := rename_dag_node_list g1 "left" true false).
  set (rg := rename_dag_node_list g2 "right" true false).
  assert (length lg = length g1) as Hlg
    by apply rename_dag_node_list_length.
  revert nb s. induction fuel as [|fuel IH]; intros nb s Hfuel;
    cbn [crossover_loop].
  { replace (Z.to_nat (patience - nb)) with 0%nat by lia. cbn.
    unfold ret. rewrite Z.max_l by lia.
    split; [by intros [= <- <-] | by intros [-> ->]]. }
  destruct (bool_decide_reflect (nb < patience)) as [Hlt|Hge].
  - replace (Z.to_nat (patience - nb))
      with (S (Z.to_nat (patience - (nb + 1)))) by lia.
    cbn [attempts_miss]. split.
    + intros (r & s1 & Ha & Hl)%bind_inv_ok.
      destruct r as [g|]; [by rewrite crossover_loop_some in Hl|].
      apply crossover_attempt_none in Ha as (lp & Hlp & Hc).
      apply IH in Hl as [Hm ->]; [|lia].
      rewrite length_fmap, Hlg in Hlp.
      pose proof (randint_inv _ _ _ _ _ Hlp) as [Hrange _].
      assert (pivot_misses g1 g2 lp) as Hmiss.
      { apply (pivot_misses_renamed g1 g2 "left" "right" lp).
        apply right_candidates_nil; [fold lg; lia|done]. }
      split; [eauto|lia].
    + intros [(lp & s1 & Hlp & Hc & Hm) ->].
      assert (crossover_attempt lg rg (name <$> lg) (name <$> rg) s
              = (Ok None, s1)) as Ha.
      { apply crossover_attempt_none. exists lp.
        rewrite length_fmap, Hlg. split; [done|].
        pose proof (randint_inv _ _ _ _ _ Hlp) as [Hrange _].
        apply right_candidates_nil; [lia|].
        by apply (pivot_misses_renamed g1 g2 "left" "right" lp). }
      rewrite (bind_ok _ _ _ _ _ Ha).
      apply IH; [lia|]. split; [done|lia].
  - replace (Z.to_nat (patience - nb)) with 0%nat by lia. cbn.
    unfold ret. rewrite Z.max_l by lia.
    split; [by intros [= <- <-] | by intros [-> ->]].
Qed.

Lemma crossover_loop_result_nonempty fuel patience lg rg rn nb s g n s' :
  crossover_loop fuel patience lg rg (name <$> lg) rn None nb s
    = (Ok (Some g, n), s') → g ≠ [].
Proof.
  intros [?|(s1 & s2 & Ha)]%crossover_loop_success; [done|].
  apply crossover_attempt_inv in Ha
    as (lp & rp & left_pivot & s5 & s6 & Hlp & Hpiv & _ & _ & _ & Hsp).
  rewrite list_lookup_fmap in Hpiv.
  destruct (lg !! Z.to_nat lp) as [pn|] eqn:Epn; [|done].
  injection Hpiv as <-.
  apply splice_inv in Hsp as (rh & -> & _ & _ & _).
  2:{ apply list_elem_of_fmap_2. apply elem_of_take. exists (Z.to_nat lp).
      split; [done|lia]. }
  intros E. apply (f_equal length) in E.
  rewrite rename_dag_node_list_length, length_app, length_take in E.
  apply lookup_lt_Some in Epn. cbn [length] in E. lia.
Qed.
End crossover_none.

Section crossover_none_cases.
Context `{Compiler} (self : DiscreteSearchSpaceSegmentation).
Context (model_1 model_2 : ArchWithMetaData) (patience : Z).

Lemma crossover_splice_degenerate s left_m right_m s0 :
  random_sample_k [model_1; model_2] 2 s = (Ok [left_m; right_m], s0) →
  degenerate left_m right_m →
  crossover_splice model_1 model_2 patience s
  = (Ok (left_m, right_m, Degenerate), s0).
Proof.
  intros Hms Hdeg. unfold crossover_splice.
  rewrite (bind_ok _ _ _ _ _ Hms).
  destruct (decide _) as [|Hn]; [done|]. destruct Hn.
  unfold degenerate in Hdeg.
  by rewrite !length_fmap, !rename_dag_node_list_length.
Qed.

Lemma crossover_splice_looped s left_m right_m s0 :
  random_sample_k [model_1; model_2] 2 s = (Ok [left_m; right_m], s0) →
  ¬ degenerate left_m right_m →
  crossover_splice model_1 model_2 patience s
  = match crossover_loop (Z.to_nat patience) patience
            (renamed left_m "left") (renamed right_m "right")
            (name <$> renamed left_m "left")
            (name <$> renamed right_m "right") None 0 s0 with
    | (Ok r, s1) => (Ok (left_m, right_m, Looped r.1 r.2), s1)
    | (Raise e, s1) => (Raise e, s1)
    end.
Proof.
  intros Hms Hdeg. unfold crossover_splice.
  rewrite (bind_ok _ _ _ _ _ Hms).
  destruct (decide _) as [Hd|_]; [|done]. destruct Hdeg.
  unfold degenerate.
  by rewrite !length_fmap, !rename_dag_node_list_length in Hd.
Qed.

Lemma crossover_splice_all_miss s left_m right_m s0 s' :
  random_sample_k [model_1; model_2] 2 s = (Ok [left_m; right_m], s0) →
  ¬ degenerate left_m right_m →
  all_miss patience left_m right_m s0 s' →
  crossover_splice model_1 model_2 patience s
  = (Ok (left_m, right_m, Looped None (Z.max 0 patience)), s').
Proof.
  intros Hms Hdeg Hmiss.
  rewrite (crossover_splice_looped _ _ _ _ Hms Hdeg).
  assert (crossover_loop (Z.to_nat patience) patience
            (renamed left_m "left") (renamed right_m "right")
            (name <$> renamed left_m "left")
            (name <$> renamed right_m "right") None 0 s0
          = (Ok (None, Z.max 0 patience), s')) as ->; [|done].
  apply crossover_loop_none; [lia|].
  split; [|done]. by rewrite Z.sub_0_r.
Qed.

Lemma crossover_sampled s :
  (∃ r s1, crossover_splice model_1 model_2 patience s = (Ok r, s1)) →
  ∃ left_m right_m s0,
    random_sample_k [model_1; model_2] 2 s = (Ok [left_m; right_m], s0).
Proof.
  intros (r & s1 & Hcs). unfold crossover_splice in Hcs.
  apply bind_inv_ok in Hcs as (ms & s0 & Hms & Hcs).
  destruct ms as [|lm [|rm [|]]]; try done. eauto.
Qed.

Lemma crossover_none s :
  (crossover self model_1 model_2 patience s).1 = Ok None ↔
  ∃ left_m right_m s0,
    random_sample_k [model_1; model_2] 2 s = (Ok [left_m; right_m], s0)
    ∧ (degenerate left_m right_m ∨ ∃ s', all_miss patience left_m right_m s0 s').
Proof.
  split.
  - intros Hnone. unfold crossover in Hnone.
    destruct (crossover_splice model_1 model_2 patience s)
      as [[r|e] s1] eqn:Ecs.
    2:{ by rewrite (bind_raise _ _ _ _ _ Ecs) in Hnone. }
    rewrite (bind_ok _ _ _ _ _ Ecs) in Hnone.
    destruct (crossover_sampled s) as (lm & rm & s0 & Hms); [eauto|].
    exists lm, rm, s0. split; [done|].
    destruct (decide (degenerate lm rm)) as [|Hdeg]; [by left|right].
    rewrite (crossover_splice_looped _ _ _ _ Hms Hdeg) in Ecs.
    destruct (crossover_loop _ _ _ _ _ _ _ _ _) as [[[rg nb]|e] s2] eqn:El;
      [|done].
    injection Ecs as <- <-. cbn in Hnone.
    destruct rg as [[|x g]|].
    + by apply crossover_loop_result_nonempty in El.
    + unfold bind in Hnone.
      by destruct (crossover_build _ _ _ _ _) as [[?|?] ?].
    + exists s2. apply crossover_loop_none in El as [Hm _]; [|lia].
      unfold all_miss. by rewrite Z.sub_0_r in Hm.
  - intros (lm & rm & s0 & Hms & Hcase). unfold crossover.
    destruct (decide (degenerate lm rm)) as [Hdeg|Hdeg].
    { by rewrite (bind_ok _ _ _ _ _
        (crossover_splice_degenerate _ _ _ _ Hms Hdeg)). }
    destruct Hcase as [?|[s' Hmiss]]; [done|].
    by rewrite (bind_ok _ _ _ _ _
      (crossover_splice_all_miss _ _ _ _ _ Hms Hdeg Hmiss)).
Qed.
End crossover_none_cases.

(** C5: [crossover] returns [None] (and raises nothing) in exactly two
    situations: either parent graph has at most two nodes, and then control
    leaves at line 350 before any splice attempt; or every one of the
    [patience] iterations of the loop draws a left pivot for which the right
    graph has no interior node of the same scale, and then the loop ends with
    [nb_tries = patience] (with [max 0 patience] for a negative argument). *)
Theorem crossover_none_iff `{Compiler} (self : DiscreteSearchSpaceSegmentation)
    (model_1 model_2 : ArchWithMetaData) (patience : Z) (s : Env) :
  ((crossover self model_1 model_2 patience s).1 = Ok None ↔
   ∃ left_m right_m s0,
     random_sample_k [model_1; model_2] 2 s = (Ok [left_m; right_m], s0)
     ∧ (degenerate left_m right_m
        ∨ ∃ s', all_miss patience left_m right_m s0 s'))
  ∧ ∀ left_m right_m s0,
      random_sample_k [model_1; model_2] 2 s = (Ok [left_m; right_m], s0) →
      (degenerate left_m right_m →
       crossover_splice model_1 model_2 patience s
       = (Ok (left_m, right_m, Degenerate), s0))
      ∧ (¬ degenerate left_m right_m →
         ∀ s', all_miss patience left_m right_m s0 s' →
         crossover_splice model_1 model_2 patience s
         = (Ok (left_m, right_m, Looped None (Z.max 0 patience)), s')).
Proof.
  split; [apply crossover_none|].
  intros left_m right_m s0 Hms. split.
  - by apply crossover_splice_degenerate.
  - intros Hdeg s'. by apply crossover_splice_all_miss.
Qed.

(** ** [random_sample] *)

Section random_sample_facts.
Context `{Compiler} (self : DiscreteSearchSpaceSegmentation).

Lemma within_mac_bounds_spec madd :
  within_mac_bounds self madd = true ↔ min_mac self < madd < max_mac self.
Proof.
  unfold within_mac_bounds.
  rewrite andb_true_iff, !bool_decide_eq_true. lia.
Qed.

Lemma random_sample_accepted fuel s a s' :
  random_sample self fuel s = (Ok (Some a), s') →
  min_mac self < MAdd (arch a) < max_mac self
  ∧ metadata a !! "macs" = Some (MInt (MAdd (arch a)))
  ∧ metadata a !! "parent" = Some MNone.
Proof.
  revert s. induction fuel as [|fuel IH]; intros s; cbn [random_sample];
    [done|].
  intros (num_layers & s1 & _ & Hr)%bind_inv_ok.
  apply bind_inv_ok in Hr as (model & s2 & _ & Hr).
  destruct (within_mac_bounds self (MAdd model)) eqn:Hb; [|by eapply IH].
  injection Hr as <- _. cbn.
  split; [by apply within_mac_bounds_spec|]. split; [done|].
  by rewrite lookup_insert_ne.
Qed.

(** More fuel does not change a result already reached: the fuel only
    bounds how long the model runs the loop. *)
Lemma random_sample_fuel_mono fuel s a s' :
  random_sample self fuel s = (Ok (Some a), s') →
  random_sample self (S fuel) s = (Ok (Some a), s').
Proof.
  revert s. induction fuel as [|fuel IH]; intros s; [done|].
  intros Hr. cbn [random_sample] in Hr |- *.
  apply bind_inv_ok in Hr as (num_layers & s1 & E1 & Hr).
  rewrite (bind_ok _ _ _ _ _ E1).
  apply bind_inv_ok in Hr as (model & s2 & E2 & Hr).
  rewrite (bind_ok _ _ _ _ _ E2).
  destruct (within_mac_bounds self (MAdd model)); [done|].
  apply IH in Hr. exact Hr.
Qed.

(** The loop returns as soon as a sampled model is within the bounds. *)
Lemma random_sample_returns fuel s num_layers s1 model s2 :
  randint (min_layers self) (max_layers self) s = (Ok num_layers, s1) →
  sample_model
    (MkSampleArgs (base_channels_list self) (delta_channels_list self)
       (post_upsample_layers_list self) num_layers
       (max_downsample_factor self) (skip_connections self)
       (max_skip_connection_length self) (max_scale_delta self)
       (operations self) (space_mult_delta self) (img_size self)) s1
    = (Ok model, s2) →
  min_mac self < MAdd model < max_mac self →
  ∃ a, random_sample self (S fuel) s = (Ok (Some a), s2) ∧ arch a = model.
Proof.
  intros E1 E2 Hb. cbn [random_sample].
  rewrite (bind_ok _ _ _ _ _ E1), (bind_ok _ _ _ _ _ E2).
  apply within_mac_bounds_spec in Hb. rewrite Hb. eauto.
Qed.
End random_sample_facts.

(** C3: every architecture [random_sample] returns has a measured MAC count
    strictly between [min_mac] and [max_mac] -- the count its metadata
    records under ['macs'] -- and its metadata records [parent = None]. *)
Theorem random_sample_within_bounds `{Compiler}
    (self : DiscreteSearchSpaceSegmentation) (fuel : nat) (s s' : Env)
    (a : ArchWithMetaData) :
  random_sample self fuel s = (Ok (Some a), s') →
  min_mac self < MAdd (arch a) < max_mac self
  ∧ metadata a !! "macs" = Some (MInt (MAdd (arch a)))
  ∧ metadata a !! "parent" = Some MNone.
Proof. apply random_sample_accepted. Qed.

(** ** [get_neighbors] *)

Lemma sample_loop_ok {A} (k : nat) (pool : list A) s :
  (k ≤ length pool)%nat →
  ∃ l s', sample_loop k pool s = (Ok l, s') ∧ log s' = log s.
Proof.
  revert pool s. induction k as [|k IH]; intros pool s Hk; cbn [sample_loop].
  { by exists [], s. }
  destruct (randint_spec 0 (Z.of_nat (length pool) - 1) s)
    as (i & s1 & E & Hi & Hlog); [lia|].
  rewrite (bind_ok _ _ _ _ _ E).
  destruct (py_index_ok pool i) as (x & Ex & Hx); [lia|].
  rewrite (bind_lift_ok _ _ _ _ Ex).
  destruct (IH (delete (Z.to_nat i) pool) s1) as (l & s2 & El & Hlog2).
  { rewrite length_delete by eauto. lia. }
  rewrite (bind_ok _ _ _ _ _ El). exists (x :: l), s2.
  split; [done|]. congruence.
Qed.

Lemma res_map_ok {A B} (f : A → result B) (l : list A) :
  (∀ x, x ∈ l → ∃ y, f x = Ok y) → ∃ ys, res_map f l = Ok ys.
Proof.
  induction l as [|x l IH]; intros Hf; cbn [res_map]; [eauto|].
  destruct (Hf x) as [y ->]; [set_solver|].
  destruct IH as [ys ->]; [intros; apply Hf; set_solver|].
  cbn. eauto.
Qed.

Section get_neighbors_facts.
Context `{Compiler} (self : DiscreteSearchSpaceSegmentation).

Lemma rewire_ok graph edges chosen node s :
  1 ≤ chosen < Z.of_nat (length graph) →
  ∃ node' s', rewire graph edges chosen node s = (Ok node', s')
              ∧ log s' = log s.
Proof.
  intros Hc. unfold rewire.
  destruct (decide _) as [Hnm|Hnm]; [|by exists node, s].
  destruct (randint_spec 1 3 s) as (r & s1 & E & Hr & Hlog); [lia|].
  rewrite (bind_ok _ _ _ _ _ E).
  assert (∃ idxs s2, random_sample_k (seqZ 0 chosen) (chosen `min` r) s1
                     = (Ok idxs, s2) ∧ log s2 = log s1
                     ∧ ∀ x, x ∈ idxs → x ∈ seqZ 0 chosen)
    as (idxs & s2 & E2 & Hlog2 & Hidx).
  { unfold random_sample_k. rewrite length_seqZ.
    destruct (decide _) as [Hk|Hk]; [|lia].
    destruct (sample_loop_ok (Z.to_nat (chosen `min` r)) (seqZ 0 chosen) s1)
      as (l & s2 & El & Hl); [rewrite length_seqZ; lia|].
    exists l, s2. repeat split; [done..|].
    by eapply sample_loop_elem. }
  rewrite (bind_ok _ _ _ _ _ E2).
  destruct (res_map_ok (λ idx, res_bind (py_index graph idx)
                                 (λ n, Ok (Some (name n)))) idxs)
    as [names En].
  { intros x Hx%Hidx. apply elem_of_seqZ in Hx.
    destruct (py_index_ok graph x) as (nd & -> & _); [lia|]. cbn. eauto. }
  rewrite (bind_lift_ok _ _ _ _ En).
  eexists _, s2. split; [done|]. congruence.
Qed.

(** On a base graph that passes the sanity check the mutation raises
    nothing and logs nothing. *)
Lemma mutate_candidate_ok base_model s :
  space_ok self → sanity_ok (graph_values (arch base_model)) →
  ∃ cand s', mutate_candidate self base_model s = (Ok cand, s')
             ∧ log s' = log s.
Proof.
  intros (Hops & Hbc & Hdc & Hpul) (Hlen & Hlast & Hhead).
  unfold mutate_candidate.
  set (graph := graph_values (arch base_model)) in *.
  rewrite bool_decide_eq_true_2 by done.
  assert (graph ≠ []) as Hne by (intros E; rewrite E in Hlen; cbn in Hlen; lia).
  destruct (py_index_last graph Hne) as (lst & El & Hl).
  destruct (py_index_ok graph 0) as (fst & Ef & Hf); [lia|].
  unfold py_assert at 1. unfold bind at 1. unfold ret at 1.
  rewrite (bind_lift_ok _ _ _ _ El).
  rewrite Hl in Hlast. injection Hlast as Hlast.
  rewrite bool_decide_eq_true_2 by done.
  unfold py_assert at 1. unfold bind at 1. unfold ret at 1.
  rewrite (bind_lift_ok _ _ _ _ Ef).
  rewrite <- head_lookup in Hf. rewrite Hf in Hhead. injection Hhead as Hhead.
  rewrite bool_decide_eq_true_2 by done.
  unfold py_assert at 1. unfold bind at 1. unfold ret at 1.
  destruct (random_neighbor_spec (base_channels_list self)
              (base_channels (channels_per_scale (arch base_model))) s Hbc)
    as (bc & s1 & E1 & _ & Hlog1).
  rewrite (bind_ok _ _ _ _ _ E1).
  destruct (random_neighbor_spec (delta_channels_list self)
              (delta_channels (channels_per_scale (arch base_model))) s1 Hdc)
    as (dc & s2 & E2 & _ & Hlog2).
  rewrite (bind_ok _ _ _ _ _ E2).
  destruct (random_neighbor_spec (post_upsample_layers_list self)
              (post_upsample_layers (arch base_model)) s2 Hpul)
    as (pul & s3 & E3 & _ & Hlog3).
  rewrite (bind_ok _ _ _ _ _ E3).
  destruct (randint_spec 1 (Z.of_nat (length graph) - 1) s3)
    as (chosen & s4 & E4 & Hchosen & Hlog4); [lia|].
  rewrite (bind_ok _ _ _ _ _ E4).
  destruct (py_index_ok graph chosen) as (node & En & _); [lia|].
  rewrite (bind_lift_ok _ _ _ _ En).
  assert (∃ node1 s5,
            (if decide (name node ≠ "output")
             then let* o := random_choice (operations self) in
                  ret (set_op (Some o) node)
             else ret node) s4 = (Ok node1, s5) ∧ log s5 = log s4)
    as (node1 & s5 & E5 & Hlog5).
  { destruct (decide _) as [Hnm|Hnm]; [|by exists node, s4].
    destruct (random_choice_ok (operations self) s4 Hops)
      as (o & s5 & Eo & _ & Hlogo).
    rewrite (bind_ok _ _ _ _ _ Eo). by eexists _, s5. }
  rewrite (bind_ok _ _ _ _ _ E5).
  destruct (rewire_ok graph (edge_dict_keys (arch base_model)) chosen node1 s5)
    as (node2 & s6 & E6 & Hlog6); [lia|].
  rewrite (bind_ok _ _ _ _ _ E6).
  eexists _, s6. split; [done|]. congruence.
Qed.

(** On a base graph that fails the sanity check the first statement to
    raise is one of the three assertions; nothing is drawn or logged. *)
Lemma mutate_candidate_asserts base_model s :
  ¬ sanity_ok (graph_values (arch base_model)) →
  mutate_candidate self base_model s = (Raise AssertionError, s).
Proof.
  intros Hbad. unfold mutate_candidate.
  set (graph := graph_values (arch base_model)) in *.
  destruct (bool_decide_reflect (1 < length graph)%nat) as [Hlen|]; [|done].
  assert (graph ≠ []) as Hne by (intros E; rewrite E in Hlen; cbn in Hlen; lia).
  destruct (py_index_last graph Hne) as (lst & El & Hl).
  destruct (py_index_ok graph 0) as (fst & Ef & Hf); [lia|].
  unfold py_assert at 1. unfold bind at 1. unfold ret at 1.
  rewrite (bind_lift_ok _ _ _ _ El).
  destruct (bool_decide_reflect (name lst = "output")) as [Hlast|]; [|done].
  unfold py_assert at 1. unfold bind at 1. unfold ret at 1.
  rewrite (bind_lift_ok _ _ _ _ Ef).
  destruct (bool_decide_reflect (name fst = "input")) as [Hhead|]; [|done].
  destruct Hbad. repeat split; [done| |].
  - by rewrite Hl, <- Hlast.
  - change (Z.to_nat 0) with 0%nat in Hf.
    by rewrite head_lookup, Hf, <- Hhead.
Qed.
End get_neighbors_facts.

Section get_neighbors_loop_facts.
Context `{Compiler} (self : DiscreteSearchSpaceSegmentation).
Context (base_model : ArchWithMetaData) (parent_id : MetaVal).

(** The handler neither changes the loop's locals nor raises once
    [nbr_model] is bound; it writes two log lines. *)
Lemma neighbor_failed_bound e st s m :
  nbr_model st = Some m →
  ∃ s', neighbor_failed base_model e st s = (Ok st, s')
        ∧ length (log s') = (length (log s) + 2)%nat.
Proof.
  intros Hm. unfold neighbor_failed. rewrite Hm.
  eexists. split; [reflexivity|]. cbn. rewrite !length_app. cbn. lia.
Qed.

Lemma neighbor_failed_unbound e st s :
  nbr_model st = None →
  neighbor_failed base_model e st s = (Raise UnboundLocalError, s).
Proof. intros Hm. unfold neighbor_failed. by rewrite Hm. Qed.

Lemma neighbor_failed_nb_tries e st s st' s' :
  neighbor_failed base_model e st s = (Ok st', s') → st' = st.
Proof.
  unfold neighbor_failed. destruct (nbr_model st); [|done].
  by intros [= <- _].
Qed.

(** Every iteration that completes has incremented [nb_tries]. *)
Lemma get_neighbors_body_nb_tries st s st' s' :
  get_neighbors_body self base_model parent_id st s = (Ok st', s') →
  nb_tries st' = nb_tries st + 1.
Proof.
  unfold get_neighbors_body.
  intros (cand & s1 & _ & Hc)%bind_inv_ok. unfold compile_candidate in Hc.
  destruct (new_model _ _ _ _) as [m|e].
  2:{ by apply neighbor_failed_nb_tries in Hc as ->. }
  destruct (validate_forward m) as [sh|e].
  2:{ by apply neighbor_failed_nb_tries in Hc as ->. }
  destruct (decide _).
  2:{ by apply neighbor_failed_nb_tries in Hc as ->. }
  destruct (within_mac_bounds self (MAdd m)); by injection Hc as <- _.
Qed.

(** The fuel never cuts the loop short: when it returns, the condition of
    line 189 is false. *)
Lemma get_neighbors_loop_exit fuel patience st s st' s' :
  (Z.to_nat (patience - nb_tries st) ≤ fuel)%nat →
  get_neighbors_loop self fuel base_model parent_id patience st s
    = (Ok st', s') →
  ¬ (nb_tries st' < patience ∧ length (neighbors st') = 0%nat).
Proof.
  revert st s. induction fuel as [|fuel IH]; intros st s Hfuel;
    cbn [get_neighbors_loop].
  { intros [= <- _]. lia. }
  destruct (bool_decide_reflect (nb_tries st < patience)) as [Hlt|Hge]; cbn.
  2:{ intros [= <- _]. lia. }
  destruct (bool_decide_reflect (length (neighbors st) = 0%nat)) as [Hn|Hn].
  2:{ intros [= <- _]. lia. }
  intros (st1 & s1 & Hb & Hl)%bind_inv_ok.
  apply get_neighbors_body_nb_tries in Hb.
  eapply IH; [|exact Hl]. lia.
Qed.

(** A first candidate the compiler cannot construct makes the handler read
    the unbound [nbr_model]. *)
Lemma get_neighbors_loop_first_construction_fails patience s :
  space_ok self → sanity_ok (graph_values (arch base_model)) →
  1 ≤ patience →
  (∀ g c p i, ∃ e, new_model g c p i = Raise e) →
  ∃ s', get_neighbors_loop self (Z.to_nat patience) base_model parent_id
          patience (MkNbrState [] 0 None) s = (Raise UnboundLocalError, s')
        ∧ log s' = log s.
Proof.
  intros Hspace Hsane Hpat Hfail.
  destruct (Z.to_nat patience) as [|fuel] eqn:Efuel; [lia|].
  cbn [get_neighbors_loop nb_tries neighbors length].
  rewrite !bool_decide_eq_true_2 by (done || lia). cbn [andb].
  destruct (mutate_candidate_ok self base_model s Hspace Hsane)
    as (cand & s1 & Ec & Hlog).
  exists s1. split; [|done].
  unfold get_neighbors_body. erewrite bind_raise; [done|].
  rewrite (bind_ok _ _ _ _ _ Ec). unfold compile_candidate.
  destruct (Hfail cand.1.1 cand.1.2 cand.2 (img_size self)) as [e ->].
  by apply neighbor_failed_unbound.
Qed.

(** When every candidate is constructed but fails shape validation, each
    of the [patience] iterations is caught and logged, then the loop gives
    up with no neighbor. *)
Lemma get_neighbors_loop_validation_fails fuel patience st s :
  space_ok self → sanity_ok (graph_values (arch base_model)) →
  (∀ g c p i, ∃ m, new_model g c p i = Ok m) →
  (∀ m, validate_forward m ≠ Ok [1; 19; model_img_size m; model_img_size m]) →
  neighbors st = [] → nb_tries st + Z.of_nat fuel = patience →
  ∃ st' s',
    get_neighbors_loop self fuel base_model parent_id patience st s
      = (Ok st', s')
    ∧ neighbors st' = [] ∧ nb_tries st' = patience
    ∧ length (log s') = (length (log s) + 2 * fuel)%nat.
Proof.
  intros Hspace Hsane Hctor Hval. revert st s.
  induction fuel as [|fuel IH]; intros st s Hnb Htries;
    cbn [get_neighbors_loop].
  { exists st, s. repeat split; [done|lia|lia]. }
  rewrite Hnb. cbn [length].
  rewrite !bool_decide_eq_true_2 by (done || lia). cbn [andb].
  destruct (mutate_candidate_ok self base_model s Hspace Hsane)
    as (cand & s1 & Ec & Hlog).
  assert (∃ st1 s2,
            get_neighbors_body self base_model parent_id st s = (Ok st1, s2)
            ∧ neighbors st1 = [] ∧ nb_tries st1 = nb_tries st + 1
            ∧ length (log s2) = (length (log s) + 2)%nat)
    as (st1 & s2 & Eb & Hnb1 & Ht1 & Hlog2).
  { unfold get_neighbors_body. rewrite (bind_ok _ _ _ _ _ Ec).
    unfold compile_candidate.
    destruct (Hctor cand.1.1 cand.1.2 cand.2 (img_size self)) as [m ->].
    cbn [neighbors nb_tries nbr_model].
    set (st1 := MkNbrState (neighbors st) (nb_tries st + 1) (Some m)).
    assert (∀ e, ∃ s2, neighbor_failed base_model e st1 s1 = (Ok st1, s2)
              ∧ length (log s2) = (length (log s) + 2)%nat) as Hh.
    { intros e. destruct (neighbor_failed_bound e st1 s1 m eq_refl)
        as (s2 & E & Hl). exists s2. split; [done|]. by rewrite Hl, Hlog. }
    destruct (validate_forward m) as [sh|e] eqn:Ev.
    - destruct (decide _) as [->|_]; [by destruct (Hval m)|].
      destruct (Hh AssertionError) as (s2 & E & Hl). by exists st1, s2.
    - destruct (Hh e) as (s2 & E & Hl). by exists st1, s2. }
  rewrite (bind_ok _ _ _ _ _ Eb).
  destruct (IH st1 s2) as (st' & s' & El & ? & ? & Hl); [done|lia|].
  exists st', s'. repeat split; [done..|lia].
Qed.
End get_neighbors_loop_facts.

Section get_neighbors_top.
Context `{Compiler} (self : DiscreteSearchSpaceSegmentation).
Context (base_model : ArchWithMetaData).

Lemma get_neighbors_run_unfold patience s parent_id :
  metadata base_model !! "archid" = Some parent_id →
  get_neighbors_run self base_model patience s
  = get_neighbors_loop self (Z.to_nat patience) base_model parent_id patience
      (MkNbrState [] 0 None) s.
Proof.
  intros Hid. unfold get_neighbors_run, meta_get. by rewrite Hid.
Qed.

Lemma get_neighbors_asserts patience s :
  is_Some (metadata base_model !! "archid") →
  ¬ sanity_ok (graph_values (arch base_model)) →
  1 ≤ patience →
  get_neighbors self base_model patience s = (Raise AssertionError, s).
Proof.
  intros [pid Hid] Hbad Hpat. unfold get_neighbors.
  erewrite bind_raise; [done|].
  rewrite (get_neighbors_run_unfold _ _ _ Hid).
  destruct (Z.to_nat patience) as [|fuel] eqn:Efuel; [lia|].
  cbn [get_neighbors_loop nb_tries neighbors length].
  rewrite !bool_decide_eq_true_2 by (done || lia). cbn [andb].
  erewrite bind_raise; [done|].
  unfold get_neighbors_body. erewrite bind_raise; [done|].
  by apply mutate_candidate_asserts.
Qed.

Lemma get_neighbors_no_attempt patience s :
  is_Some (metadata base_model !! "archid") →
  patience ≤ 0 →
  get_neighbors self base_model patience s = (Ok [], s).
Proof.
  intros [pid Hid] Hpat. unfold get_neighbors.
  rewrite (bind_ok _ _ s (MkNbrState [] 0 None) s); [done|].
  rewrite (get_neighbors_run_unfold _ _ _ Hid).
  by replace (Z.to_nat patience) with 0%nat by lia.
Qed.

Lemma get_neighbors_first_construction_fails patience s :
  is_Some (metadata base_model !! "archid") →
  space_ok self → sanity_ok (graph_values (arch base_model)) →
  1 ≤ patience →
  (∀ g c p i, ∃ e, new_model g c p i = Raise e) →
  (get_neighbors self base_model patience s).1 = Raise UnboundLocalError.
Proof.
  intros [pid Hid] Hspace Hsane Hpat Hfail. unfold get_neighbors.
  destruct (get_neighbors_loop_first_construction_fails self base_model pid
              patience s Hspace Hsane Hpat Hfail) as (s' & E & _).
  erewrite bind_raise; [done|].
  rewrite (get_neighbors_run_unfold _ _ _ Hid). exact E.
Qed.

Lemma get_neighbors_validation_fails patience s :
  is_Some (metadata base_model !! "archid") →
  space_ok self → sanity_ok (graph_values (arch base_model)) →
  0 ≤ patience →
  (∀ g c p i, ∃ m, new_model g c p i = Ok m) →
  (∀ m, validate_forward m ≠ Ok [1; 19; model_img_size m; model_img_size m]) →
  ∃ st s',
    get_neighbors_run self base_model patience s = (Ok st, s')
    ∧ get_neighbors self base_model patience s = (Ok [], s')
    ∧ neighbors st = [] ∧ nb_tries st = patience
    ∧ length (log s') = (length (log s) + 2 * Z.to_nat patience)%nat.
Proof.
  intros [pid Hid] Hspace Hsane Hpat Hctor Hval.
  destruct (get_neighbors_loop_validation_fails self base_model pid
              (Z.to_nat patience) patience (MkNbrState [] 0 None) s)
    as (st & s' & E & Hn & Ht & Hl); [done..|cbn; lia|].
  exists st, s'. rewrite <- (get_neighbors_run_unfold _ _ _ Hid) in E.
  repeat split; [done| |done..].
  unfold get_neighbors. rewrite (bind_ok _ _ _ _ _ E). by rewrite Hn.
Qed.
End get_neighbors_top.

Lemma sanity_ok_chain6 : sanity_ok chain6.
Proof. repeat split. cbn. lia. Qed.

Lemma space_ok_example features lo hi : space_ok (example_space features lo hi).
Proof. by repeat split. Qed.

(** C10, as stated, fails: the assertions sit inside the retry loop, so with
    [patience = 0] no iteration runs and a base graph without its ['output']
    node yields the empty list. *)
Lemma get_neighbors_skips_asserts_without_attempt :
  ¬ (∀ (C : Compiler) (self : DiscreteSearchSpaceSegmentation)
       (base_model : ArchWithMetaData) (patience : Z) (s : Env),
       ¬ sanity_ok (graph_values (arch base_model)) →
       (get_neighbors self base_model patience s).1 = Raise AssertionError).
Proof.
  intros Hall.
  specialize (Hall (stub_compiler true true 10)
                (example_space ["scale"; "op"] 0 100)
                (stub_arch (H := stub_compiler true true 10)
                   (stub_model headless) "base") 0 (env0 [])).
  assert (¬ sanity_ok headless) as Hbad by (intros (_ & [=] & _)).
  specialize (Hall Hbad). vm_compute in Hall. discriminate.
Qed.

(** C10, amended: for a base architecture (carrying its ['archid']) whose
    graph violates a structural invariant -- length greater than 1, first
    node ['input'], last node ['output'] -- and [patience >= 1],
    [get_neighbors] raises an uncaught [AssertionError] in its first
    iteration, before anything is drawn or logged and outside the [try]
    block; with [patience <= 0] no iteration runs and it returns the empty
    list. *)
Theorem get_neighbors_sanity_asserts `{Compiler}
    (self : DiscreteSearchSpaceSegmentation) (base_model : ArchWithMetaData)
    (patience : Z) (s : Env) :
  is_Some (metadata base_model !! "archid") →
  ¬ sanity_ok (graph_values (arch base_model)) →
  (1 ≤ patience →
   get_neighbors self base_model patience s = (Raise AssertionError, s))
  ∧ (patience ≤ 0 → get_neighbors self base_model patience s = (Ok [], s)).
Proof.
  intros Hid Hbad. split.
  - by apply get_neighbors_asserts.
  - by apply get_neighbors_no_attempt.
Qed.

Lemma get_neighbors_sanity_asserts_witness :
  let C := stub_compiler true true 10 in
  let self := example_space ["scale"; "op"] 0 100 in
  let base_model := stub_arch (H := C) (stub_model headless) "base" in
  get_neighbors self base_model 5 (env0 [3; 1; 4]%nat)
  = (Raise AssertionError, env0 [3; 1; 4]%nat).
Proof.
  intros C self base_model.
  apply (get_neighbors_sanity_asserts (H := C) self base_model 5
           (env0 [3; 1; 4]%nat)).
  - by eexists.
  - intros (_ & [=] & _).
  - lia.
Defined.

(** C1, the failing run: with a compiler whose constructor rejects the
    candidate, a base graph with four interior nodes and [patience = 5],
    [get_neighbors] does not return the empty list; the [except] clause
    reads [nbr_model], which the failed constructor call never bound, and
    [UnboundLocalError] reaches the caller -- whatever the random draws. *)
Theorem get_neighbors_construction_failure_escapes (s : Env) :
  (get_neighbors (H := stub_compiler false true 10)
     (example_space ["scale"; "op"] 0 100)
     (stub_arch (H := stub_compiler false true 10) (stub_model chain6) "base")
     5 s).1
  = Raise UnboundLocalError.
Proof.
  apply (get_neighbors_first_construction_fails
           (H := stub_compiler false true 10)).
  - by eexists.
  - apply space_ok_example.
  - apply sanity_ok_chain6.
  - lia.
  - intros g c p i. cbn. eauto.
Qed.

(** The scenario of C1 where it holds: every candidate is constructed and
    fails shape validation; the five failures are caught and logged and the
    empty list is returned after exactly five attempts. *)
Lemma get_neighbors_validation_failure_caught (s : Env) :
  ∃ st s',
    get_neighbors_run (H := stub_compiler true false 10)
      (example_space ["scale"; "op"] 0 100)
      (stub_arch (H := stub_compiler true false 10) (stub_model chain6) "base")
      5 s = (Ok st, s')
    ∧ neighbors st = [] ∧ nb_tries st = 5
    ∧ length (log s') = (length (log s) + 10)%nat.
Proof.
  destruct (get_neighbors_validation_fails (H := stub_compiler true false 10)
              (example_space ["scale"; "op"] 0 100)
              (stub_arch (H := stub_compiler true false 10)
                 (stub_model chain6) "base") 5 s)
    as (st & s' & E & _ & ? & ? & ?).
  - by eexists.
  - apply space_ok_example.
  - apply sanity_ok_chain6.
  - lia.
  - intros g c p i. cbn. eauto.
  - intros m. cbn. discriminate.
  - eauto 6.
Qed.

(** ** [get_arch_repr] *)

Section get_arch_repr_facts.
Context `{Compiler} (self : DiscreteSearchSpaceSegmentation).

Lemma arch_features_scenario op_in op_out sc_in sc_out ch_map :
  operations self = ["conv"; "pool"] →
  "scale" ∈ encoder_features self → "op" ∈ encoder_features self →
  "channels" ∉ encoder_features self →
  ∃ x, arch_features self (scenario_graph op_in op_out sc_in sc_out) ch_map
       = Ok x
       ∧ length x = 3%nat ∧ Forall (λ row, length row = 7%nat) x.
Proof.
  intros Hops Hscale Hop Hch. unfold arch_features. rewrite Hops.
  destruct (decide ("scale" ∈ encoder_features self)); [|done].
  destruct (decide ("op" ∈ encoder_features self)); [|done].
  destruct (decide ("channels" ∈ encoder_features self)); [done|].
  cbn. eexists. split; [reflexivity|]. split; [done|].
  repeat constructor.
Qed.

Lemma arch_edges_scenario op_in op_out sc_in sc_out :
  arch_edges (scenario_graph op_in op_out sc_in sc_out)
  = Ok [(0, 1); (1, 2)]%nat.
Proof. by vm_compute. Qed.

Lemma get_arch_repr_scenario a s op_in op_out sc_in sc_out archid :
  graph_values (arch a) = scenario_graph op_in op_out sc_in sc_out →
  metadata a !! "archid" = Some archid →
  operations self = ["conv"; "pool"] →
  "scale" ∈ encoder_features self → "op" ∈ encoder_features self →
  "channels" ∉ encoder_features self →
  ∃ d, get_arch_repr self a s = (Ok d, s)
       ∧ shape (data_x d) = (3, 7)%nat
       ∧ Forall (λ row, length row = 7%nat) (data_x d)
       ∧ data_edge_index d = ([0; 1], [1; 2])%nat
       ∧ data_archid d = archid.
Proof.
  intros Hg Hid Hops Hscale Hop Hch. unfold get_arch_repr. rewrite Hg.
  destruct (arch_features_scenario op_in op_out sc_in sc_out
              (channels_per_scale (arch a)) Hops Hscale Hop Hch)
    as (x & Ex & Hlen & Hrows).
  rewrite (bind_lift_ok _ _ _ _ Ex).
  rewrite (bool_decide_eq_true_2 _); [|split; [by destruct x|exact Hlen]].
  unfold py_assert at 1. unfold bind at 1. unfold ret at 1.
  rewrite (bind_lift_ok _ _ _ _ (arch_edges_scenario _ _ _ _)).
  unfold meta_get. rewrite Hid.
  eexists. split; [reflexivity|]. cbn [data_x data_edge_index data_archid].
  repeat split; [|done].
  unfold shape. destruct x as [|row x]; [done|].
  apply Forall_cons in Hrows as [-> _]. by rewrite Hlen.
Qed.
End get_arch_repr_facts.

(** C8: for the three-node graph [input, layer_0 (scale 1, op 'conv'),
    output], feature groups scale and op, the scale ladder [1, 2, 4, 8, 16]
    and the operator set ['conv', 'pool'], [get_arch_repr] returns a node
    feature matrix of 3 rows and 7 columns and the edge list [(0, 1), (1, 2)]:
    one edge per input reference, from predecessor to successor (in
    [edge_index], the row of sources above the row of destinations). *)
Theorem get_arch_repr_three_node_graph `{Compiler}
    (self : DiscreteSearchSpaceSegmentation) (a : ArchWithMetaData) (s : Env)
    (op_in op_out : option string) (sc_in sc_out : Z) (archid : MetaVal) :
  graph_values (arch a) = scenario_graph op_in op_out sc_in sc_out →
  metadata a !! "archid" = Some archid →
  operations self = ["conv"; "pool"] →
  "scale" ∈ encoder_features self → "op" ∈ encoder_features self →
  "channels" ∉ encoder_features self →
  arch_edges (graph_values (arch a)) = Ok [(0, 1); (1, 2)]%nat
  ∧ ∃ d, get_arch_repr self a s = (Ok d, s)
         ∧ shape (data_x d) = (3, 7)%nat
         ∧ Forall (λ row, length row = 7%nat) (data_x d)
         ∧ data_edge_index d = ([0; 1], [1; 2])%nat.
Proof.
  intros Hg Hid Hops Hscale Hop Hch. split.
  - rewrite Hg. apply arch_edges_scenario.
  - destruct (get_arch_repr_scenario self a s _ _ _ _ _ Hg Hid Hops Hscale
                Hop Hch) as (d & ? & ? & ? & ? & _).
    eauto 6.
Qed.

Lemma get_arch_repr_three_node_graph_witness :
  let C := stub_compiler true true 10 in
  let self := example_space ["scale"; "op"] 0 100 in
  let a := stub_arch (H := C) (stub_model chain3) "h" in
  arch_edges (graph_values (arch a)) = Ok [(0, 1); (1, 2)]%nat
  ∧ ∃ d, get_arch_repr self a (env0 []) = (Ok d, env0 [])
         ∧ shape (data_x d) = (3, 7)%nat
         ∧ Forall (λ row, length row = 7%nat) (data_x d)
         ∧ data_edge_index d = ([0; 1], [1; 2])%nat.
Proof.
  intros C self a.
  apply (get_arch_repr_three_node_graph (H := C) self a (env0 [])
           None None 1 1 (MStr "h")).
  - reflexivity.
  - reflexivity.
  - reflexivity.
  - set_solver.
  - set_solver.
  - cbn. intros Hin. repeat (apply elem_of_cons in Hin as [Hin|Hin]; [done|]).
    by apply elem_of_nil in Hin.
Defined.

(** ** Concrete runs *)

Lemma parent_ok_chain6 : parent_ok chain6.
Proof. split; compute_done. Qed.

Lemma random_sample_within_bounds_witness :
  let C := stub_compiler true true 10 in
  let self := example_space ["scale"; "op"] 0 100 in
  let a := stub_arch_sampled in
  min_mac self < MAdd (arch a) < max_mac self
  ∧ metadata a !! "macs" = Some (MInt (MAdd (arch a)))
  ∧ metadata a !! "parent" = Some MNone.
Proof.
  intros C self a.
  apply (random_sample_within_bounds (H := C) self 1 (env0 [4%nat])
           (random_sample (H := C) self 1 (env0 [4%nat])).2 a).
  by vm_compute.
Defined.

Lemma crossover_merged_graph_invariant_witness :
  graph_invariant merged_example ∧ NoDup (name <$> merged_example).
Proof.
  pose (C := stub_compiler true true 10).
  pose (parent := stub_arch (H := C) (stub_model chain6) "h1").
  pose (s := env0 [0; 2; 2; 3; 4; 5; 6]%nat).
  apply (crossover_merged_graph_invariant (H := C) parent parent parent parent
           3 s (crossover_splice parent parent 3 s).2 merged_example 1).
  - apply parent_ok_chain6.
  - apply parent_ok_chain6.
  - by vm_compute.
Defined.



Module FrameFacts.
Import Store Frame.
Local Open Scope store_scope.

Section rules.
Context (h0 : list Obj).
Abbreviation fresh := (fresh h0).
Abbreviation Inv := (Inv h0).
Abbreviation safe := (safe h0).

Lemma Inv_length w : Inv w → (length h0 ≤ length (heap w))%nat.
Proof.
  intros [Ht _]. apply (f_equal length) in Ht.
  rewrite length_take in Ht. lia.
Qed.

Lemma safe_ret {A} (a : A) (Post : A → Prop) :
  Post a → safe (sret a) Post.
Proof. intros HP w Hw. split; [done|]. by intros ? [= <-]. Qed.

Lemma safe_raise {A} e (Post : A → Prop) : safe (sraise e) Post.
Proof. intros w Hw. split; [done|]. by intros ? [=]. Qed.

Lemma safe_bind {A B} (m : SM A) (k : A → SM B) P Q :
  safe m P → (∀ a, P a → safe (k a) Q) → safe (sbind m k) Q.
Proof.
  intros Hm Hk w Hw. unfold sbind.
  destruct (Hm w Hw) as [Hi HP].
  destruct (m w) as [[a|e] w1]; cbn in *; [|split; [done|by intros ? [=]]].
  by apply Hk; [apply HP|].
Qed.

Lemma safe_weaken {A} (m : SM A) (P Q : A → Prop) :
  safe m P → (∀ a, P a → Q a) → safe m Q.
Proof.
  intros Hm HPQ w Hw. destruct (Hm w Hw) as [Hi HP].
  split; [done|]. intros a Ha. by apply HPQ, HP.
Qed.

Lemma safe_lift_m {A} (m : M A) : safe (lift_m m) (λ _, True).
Proof. intros w Hw. split; [exact Hw|done]. Qed.

Lemma safe_lift_r {A} (r : result A) : safe (lift_r r) (λ _, True).
Proof. intros w Hw. split; [exact Hw|done]. Qed.

Lemma safe_alloc o :
  (∀ nm op sc inp, o = ONode nm op sc inp → fresh inp) →
  safe (alloc o) fresh.
Proof.
  intros Ho w Hw. pose proof (Inv_length w Hw) as Hlen.
  destruct Hw as [Ht Hc]. split.
  - split; cbn.
    + by rewrite take_app_le.
    + intros l nm op sc inp Hl Hlook.
      apply lookup_app_Some in Hlook as [Hlook|[_ Hlook]]; [eauto|].
      apply list_lookup_singleton_Some in Hlook as [_ ->]. eauto.
  - intros a [= <-]. exact Hlen.
Qed.

Lemma safe_load l :
  safe (load l)
    (λ o, fresh l → ∀ nm op sc inp, o = ONode nm op sc inp → fresh inp).
Proof.
  intros w Hw. unfold load.
  destruct (heap w !! l) as [o|] eqn:E; cbn; (split; [done|]); [|done].
  intros a [= <-] Hl nm op sc inp ->. destruct Hw as [_ Hc]. eauto.
Qed.

Lemma safe_store l o :
  fresh l →
  (∀ nm op sc inp, o = ONode nm op sc inp → fresh inp) →
  safe (store l o) (λ _, True).
Proof.
  intros Hl Ho w Hw. unfold store.
  destruct (decide _) as [Hlt|]; cbn; (split; [|done]); [|done].
  destruct Hw as [Ht Hc]. split; cbn.
  - by rewrite take_insert_ge.
  - intros l' nm op sc inp Hl' Hlook.
    destruct (decide (l = l')) as [<-|Hne].
    + rewrite list_lookup_insert_eq in Hlook by done.
      injection Hlook as ->. eauto.
    + rewrite list_lookup_insert_ne in Hlook by done. eauto.
Qed.

Lemma safe_load_node l :
  safe (load_node l) (λ f, fresh l → fresh (f_inputs f)).
Proof.
  unfold load_node. eapply safe_bind; [apply safe_load|].
  intros [nm op sc inp| |] Ho; try apply safe_raise.
  apply safe_ret. cbn. eauto.
Qed.

Lemma safe_load_list l : safe (load_list l) (λ _, True).
Proof.
  unfold load_list. eapply safe_bind; [apply safe_load|].
  intros [| |] _; (apply safe_raise || by apply safe_ret).
Qed.

Lemma safe_load_ints l : safe (load_ints l) (λ _, True).
Proof.
  unfold load_ints. eapply safe_bind; [apply safe_load|].
  intros [| |] _; (apply safe_raise || by apply safe_ret).
Qed.

Lemma safe_store_list l items :
  fresh l → safe (store l (OList items)) (λ _, True).
Proof. intros Hl. by apply safe_store. Qed.

Lemma safe_set_field_name l s :
  fresh l → safe (set_field_name l s) (λ _, True).
Proof.
  intros Hl. unfold set_field_name.
  eapply safe_bind; [apply safe_load_node|]. intros f Hf.
  apply safe_store; [done|]. intros ???? [= _ _ _ <-]. auto.
Qed.

Lemma safe_set_field_op l o :
  fresh l → safe (set_field_op l o) (λ _, True).
Proof.
  intros Hl. unfold set_field_op.
  eapply safe_bind; [apply safe_load_node|]. intros f Hf.
  apply safe_store; [done|]. intros ???? [= _ _ _ <-]. auto.
Qed.

Lemma safe_set_field_inputs l i :
  fresh l → fresh i → safe (set_field_inputs l i) (λ _, True).
Proof.
  intros Hl Hi. unfold set_field_inputs.
  eapply safe_bind; [apply safe_load_node|]. intros f Hf.
  apply safe_store; [done|]. by intros ???? [= _ _ _ <-].
Qed.

Lemma safe_smapM {A B} (f : A → SM B) (l : list A) (P : B → Prop) :
  (∀ x, x ∈ l → safe (f x) P) → safe (smapM f l) (Forall P).
Proof.
  induction l as [|x l IH]; intros Hf; cbn [smapM].
  { by apply safe_ret. }
  eapply safe_bind; [apply Hf; set_solver|]. intros y Hy.
  eapply safe_bind; [apply IH; intros; apply Hf; set_solver|].
  intros ys Hys. apply safe_ret. by constructor.
Qed.

Lemma safe_smapM_any {A B} (f : A → SM B) (l : list A) :
  (∀ x, x ∈ l → safe (f x) (λ _, True)) → safe (smapM f l) (λ _, True).
Proof.
  intros Hf. eapply safe_weaken; [by apply safe_smapM|done].
Qed.

Lemma safe_siter {A} (f : A → SM unit) (l : list A) :
  (∀ x, x ∈ l → safe (f x) (λ _, True)) → safe (siter f l) (λ _, True).
Proof.
  induction l as [|x l IH]; intros Hf; cbn [siter].
  { by apply safe_ret. }
  eapply safe_bind; [apply Hf; set_solver|]. intros _ _.
  apply IH. intros; apply Hf; set_solver.
Qed.

Lemma safe_read_nodes ls : safe (read_nodes ls) (λ _, True).
Proof.
  apply safe_smapM_any.
  intros l _. unfold read_node.
  eapply safe_bind; [apply safe_load_node|]. intros f _.
  eapply safe_bind; [apply safe_load_list|]. intros items _.
  by apply safe_ret.
Qed.

(** *** [copy.deepcopy] returns fresh objects *)

Lemma memo_fresh_insert memo k v :
  memo_fresh h0 memo → fresh v → memo_fresh h0 (<[k := v]> memo).
Proof.
  intros Hm Hv k' v' Hk.
  destruct (decide (k = k')) as [<-|Hne].
  - rewrite lookup_insert_eq in Hk. by injection Hk as <-.
  - rewrite lookup_insert_ne in Hk by done. eauto.
Qed.

Lemma safe_deepcopy_inputs memo l :
  memo_fresh h0 memo →
  safe (deepcopy_inputs memo l) (λ r, fresh r.1 ∧ memo_fresh h0 r.2).
Proof.
  intros Hm. unfold deepcopy_inputs.
  destruct (memo !! l) as [l'|] eqn:E.
  { apply safe_ret. split; [by eapply Hm|done]. }
  eapply safe_bind; [apply safe_load_list|]. intros items _.
  eapply safe_bind; [by apply safe_alloc|]. intros l' Hl'.
  apply safe_ret. split; [done|]. by apply memo_fresh_insert.
Qed.

Lemma safe_deepcopy_node memo l :
  memo_fresh h0 memo →
  safe (deepcopy_node memo l) (λ r, fresh r.1 ∧ memo_fresh h0 r.2).
Proof.
  intros Hm. unfold deepcopy_node.
  destruct (memo !! l) as [l'|] eqn:E.
  { apply safe_ret. split; [by eapply Hm|done]. }
  eapply safe_bind; [apply safe_load_node|]. intros f _.
  eapply safe_bind; [by apply safe_deepcopy_inputs|]. intros r [Hr1 Hr2].
  eapply safe_bind.
  { apply safe_alloc. by intros ???? [= _ _ _ <-]. }
  intros l' Hl'. apply safe_ret. split; [done|].
  by apply memo_fresh_insert.
Qed.

Lemma safe_deepcopy_nodes memo ls :
  memo_fresh h0 memo → safe (deepcopy_nodes memo ls) (Forall fresh).
Proof.
  revert memo. induction ls as [|l ls IH]; intros memo Hm;
    cbn [deepcopy_nodes].
  { by apply safe_ret. }
  eapply safe_bind; [by apply safe_deepcopy_node|]. intros r [Hr1 Hr2].
  eapply safe_bind; [by apply IH|]. intros rest Hrest.
  apply safe_ret. by constructor.
Qed.

Lemma safe_deepcopy ls : safe (deepcopy ls) (Forall fresh).
Proof. apply safe_deepcopy_nodes. intros k v. by rewrite lookup_empty. Qed.

(** *** The two helpers *)

Lemma safe_random_neighbor pv cv :
  safe (random_neighbor pv cv) (λ _, True).
Proof.
  unfold random_neighbor.
  eapply safe_bind; [apply safe_load_ints|]. intros items _.
  eapply safe_bind; [by apply safe_alloc|]. intros copied _.
  eapply safe_bind; [apply safe_load_ints|]. intros items' _.
  eapply safe_bind; [by apply safe_alloc|]. intros sorted _.
  eapply safe_bind; [apply safe_load_ints|]. intros pv' _.
  apply safe_lift_m.
Qed.

Lemma safe_rename_loop prefix aio len i rename_map nodes :
  Forall fresh nodes →
  safe (rename_loop prefix aio len i rename_map nodes) (λ _, True).
Proof.
  revert i rename_map. induction nodes as [|node rest IH];
    intros i rename_map Hfresh; cbn [rename_loop].
  { by apply safe_ret. }
  apply Forall_cons in Hfresh as [Hnode Hrest].
  eapply safe_bind; [apply safe_load_node|]. intros f _.
  eapply (safe_bind _ _ (λ _, True)).
  { destruct (rename_map !! f_name f); [by apply safe_ret|].
    eapply safe_bind; [by apply safe_set_field_name|]. intros _ _.
    by apply safe_ret. }
  intros rename_map' _.
  eapply safe_bind; [apply safe_load_node|]. intros f' _.
  eapply safe_bind; [apply safe_load_list|]. intros items _.
  eapply (safe_bind _ _ (λ _, True)); [|intros _ _; by apply IH].
  destruct items as [|it items]; [by apply safe_ret|].
  eapply safe_bind; [by apply safe_alloc|]. intros renamed Hren.
  by apply safe_set_field_inputs.
Qed.

Lemma safe_rename_dag_node_list node_list prefix rio aio :
  safe (rename_dag_node_list node_list prefix rio aio) (Forall fresh).
Proof.
  unfold rename_dag_node_list.
  eapply safe_bind; [apply safe_deepcopy|]. intros copied Hc.
  eapply safe_bind; [by apply safe_rename_loop|]. intros _ _.
  by apply safe_ret.
Qed.
End rules.
End FrameFacts.

Module OperatorFrame.
Import Store Frame FrameFacts.
Local Open Scope store_scope.

Section operators.
Context `{Compiler} (self : DiscreteSearchSpaceSegmentation).
Context (bc_loc dc_loc pul_loc : loc).
Context (h0 : list Obj).
Abbreviation fresh := (fresh h0).
Abbreviation safe := (safe h0).

Lemma fresh_py_index (ls : list loc) i l :
  Forall fresh ls → py_index ls i = Ok l → fresh l.
Proof.
  intros Hf Hl%py_index_inv. rewrite Forall_forall in Hf. auto.
Qed.

(** [safe] for a location read out of a list of fresh ones. *)
Lemma safe_index (ls : list loc) i :
  Forall fresh ls → safe (lift_r (py_index ls i)) fresh.
Proof.
  intros Hf w Hw. split; [exact Hw|]. cbn. intros l Hl.
  by eapply fresh_py_index.
Qed.

Lemma safe_rewire graph edges chosen node :
  Forall fresh graph → fresh node →
  safe (rewire graph edges chosen node) (λ _, True).
Proof.
  intros Hg Hn. unfold rewire.
  eapply safe_bind; [apply safe_load_node|]. intros f _.
  destruct (decide _) as [Hyes|Hno]; [|by apply safe_ret].
  eapply safe_bind; [apply safe_lift_m|]. intros r _.
  eapply safe_bind; [apply safe_lift_m|]. intros idxs _.
  eapply safe_bind; [apply safe_load_node|]. intros f1 _.
  eapply safe_bind; [apply safe_load_list|]. intros items _.
  eapply safe_bind; [by apply safe_alloc|]. intros kept Hkept.
  eapply safe_bind; [by apply safe_set_field_inputs|]. intros _ _.
  eapply safe_bind.
  { apply safe_smapM_any. intros idx _.
    eapply safe_bind; [apply safe_lift_r|]. intros nd _.
    eapply safe_bind; [apply safe_load_node|]. intros nf _.
    eapply safe_bind; [apply safe_load_node|]. intros f2 _.
    eapply safe_bind; [apply safe_load_list|]. intros cur _.
    by apply safe_ret. }
  intros added _.
  eapply safe_bind; [apply safe_load_node|]. intros f3 Hf3.
  eapply safe_bind; [apply safe_load_list|]. intros cur _.
  apply safe_store_list. auto.
Qed.

Lemma safe_mutate_candidate base_graph base_model :
  safe (mutate_candidate self bc_loc dc_loc pul_loc base_graph base_model)
    (λ _, True).
Proof.
  unfold mutate_candidate.
  eapply safe_bind; [apply safe_deepcopy|]. intros graph Hg.
  eapply safe_bind; [apply safe_lift_m|]. intros _ _.
  eapply safe_bind; [apply safe_lift_r|]. intros last _.
  eapply safe_bind; [apply safe_load_node|]. intros lastf _.
  eapply safe_bind; [apply safe_lift_m|]. intros _ _.
  eapply safe_bind; [apply safe_lift_r|]. intros first _.
  eapply safe_bind; [apply safe_load_node|]. intros firstf _.
  eapply safe_bind; [apply safe_lift_m|]. intros _ _.
  eapply safe_bind; [apply safe_random_neighbor|]. intros bc _.
  eapply safe_bind; [apply safe_random_neighbor|]. intros dc _.
  eapply safe_bind; [apply safe_random_neighbor|]. intros pul _.
  eapply safe_bind; [apply safe_lift_m|]. intros chosen _.
  eapply safe_bind; [by apply safe_index|]. intros node Hnode.
  eapply safe_bind; [apply safe_load_node|]. intros f _.
  eapply (safe_bind _ _ _ (λ _, True)).
  { destruct (decide _) as [Hyes|Hno]; [|by apply safe_ret].
    eapply safe_bind; [apply safe_lift_m|]. intros o _.
    by apply safe_set_field_op. }
  intros _ _.
  eapply safe_bind; [by apply safe_rewire|]. intros _ _.
  by apply safe_ret.
Qed.

Lemma safe_get_neighbors_body base_graph base_model parent_id st :
  safe (get_neighbors_body self bc_loc dc_loc pul_loc base_graph base_model
          parent_id st) (λ _, True).
Proof.
  unfold get_neighbors_body.
  eapply safe_bind; [apply safe_mutate_candidate|]. intros cand _.
  eapply safe_bind; [apply safe_read_nodes|]. intros graph _.
  apply safe_lift_m.
Qed.

Lemma safe_get_neighbors_loop fuel base_graph base_model parent_id
    patience st :
  safe (get_neighbors_loop self bc_loc dc_loc pul_loc fuel base_graph
          base_model parent_id patience st) (λ _, True).
Proof.
  revert st. induction fuel as [|fuel IH]; intros st;
    cbn [get_neighbors_loop]; [by apply safe_ret|].
  destruct (_ && _); [|by apply safe_ret].
  eapply safe_bind; [apply safe_get_neighbors_body|]. intros st' _.
  apply IH.
Qed.

Lemma safe_get_neighbors base_graph base_model patience :
  safe (get_neighbors self bc_loc dc_loc pul_loc base_graph base_model
          patience) (λ _, True).
Proof.
  unfold get_neighbors.
  eapply safe_bind; [apply safe_lift_r|]. intros parent_id _.
  eapply safe_bind; [apply safe_get_neighbors_loop|]. intros st _.
  by apply safe_ret.
Qed.

Lemma safe_repair_slot left_half right_g right_n rp idx inputs_loc
    inp_idx inp :
  fresh inputs_loc →
  safe (repair_slot left_half right_g right_n rp idx inputs_loc inp_idx
          inp) (λ _, True).
Proof.
  intros Hl. unfold repair_slot.
  destruct (decide _) as [Hyes|Hno]; [by apply safe_ret|].
  eapply safe_bind; [apply safe_lift_r|]. intros i _.
  eapply safe_bind; [apply safe_lift_r|]. intros orig _.
  eapply safe_bind; [apply safe_load_node|]. intros origf _.
  eapply safe_bind.
  { apply safe_smapM_any. intros nd _.
    eapply safe_bind; [apply safe_load_node|]. intros nf _.
    by apply safe_ret. }
  intros candidates _.
  eapply (safe_bind _ _ _ (λ _, True)).
  { destruct (concat candidates); [by apply safe_ret|].
    eapply safe_bind; [apply safe_lift_m|]. intros c _.
    by apply safe_ret. }
  intros v _.
  eapply safe_bind; [apply safe_load_list|]. intros items _.
  by apply safe_store_list.
Qed.

Lemma safe_repair_slots remaining left_half right_g right_n rp idx
    inputs_loc inp_idx :
  fresh inputs_loc →
  safe (repair_slots remaining left_half right_g right_n rp idx
          inputs_loc inp_idx) (λ _, True).
Proof.
  intros Hl. revert inp_idx.
  induction remaining as [|remaining IH]; intros inp_idx;
    cbn [repair_slots]; [by apply safe_ret|].
  eapply safe_bind; [apply safe_load_list|]. intros items _.
  destruct (items !! inp_idx) as [inp|]; [|by apply safe_ret].
  eapply safe_bind; [by apply safe_repair_slot|]. intros _ _.
  apply IH.
Qed.

Lemma safe_repair_node left_half right_g right_n rp idx fields :
  fresh fields →
  safe (repair_node left_half right_g right_n rp idx fields) (λ _, True).
Proof.
  intros Hl. unfold repair_node.
  eapply safe_bind; [apply safe_load_node|]. intros f Hf.
  eapply safe_bind; [apply safe_load_list|]. intros items _.
  apply safe_repair_slots. auto.
Qed.

Lemma safe_splice left_g right_g right_n left_pivot lp rp :
  Forall fresh left_g → Forall fresh right_g →
  safe (splice left_g right_g right_n left_pivot lp rp) (Forall fresh).
Proof.
  intros Hlg Hrg. unfold splice.
  assert (Forall fresh (drop rp right_g)) as Hrh by by apply Forall_drop.
  eapply (safe_bind _ _ _ (λ _, True)).
  { apply safe_siter. intros fields Hin. rewrite elem_of_reverse in Hin.
    apply safe_repair_node. rewrite Forall_forall in Hrh. auto. }
  intros _ _.
  eapply safe_bind; [by apply safe_index|]. intros last Hlast.
  eapply safe_bind; [by apply safe_set_field_name|]. intros _ _.
  eapply safe_bind; [by apply safe_index|]. intros first Hfirst.
  eapply safe_bind; [apply safe_load_node|]. intros ff Hff.
  eapply safe_bind; [apply safe_load_list|]. intros items _.
  eapply (safe_bind _ _ _ (λ _, True)).
  { destruct (decide _) as [Hyes|Hno]; [by apply safe_ret|].
    apply safe_store_list. auto. }
  intros _ _. apply safe_rename_dag_node_list.
Qed.

Lemma safe_crossover_attempt left_n right_n st :
  safe (crossover_attempt left_n right_n st) (λ _, True).
Proof.
  unfold crossover_attempt.
  eapply safe_bind; [apply safe_deepcopy|]. intros left_g Hlg.
  eapply safe_bind; [apply safe_deepcopy|]. intros right_g Hrg.
  eapply safe_bind; [apply safe_lift_m|]. intros lp _.
  eapply safe_bind; [apply safe_lift_r|]. intros left_pivot _.
  eapply safe_bind; [apply safe_read_nodes|]. intros left_v _.
  eapply safe_bind; [apply safe_read_nodes|]. intros right_v _.
  eapply safe_bind; [apply safe_lift_r|]. intros candidates _.
  destruct candidates as [|c cs]; [by apply safe_ret|].
  eapply safe_bind; [apply safe_lift_m|]. intros rp _.
  eapply safe_bind; [by apply safe_splice|]. intros result_g _.
  by apply safe_ret.
Qed.

Lemma safe_crossover_loop fuel patience left_n right_n st :
  safe (crossover_loop fuel patience left_n right_n st) (λ _, True).
Proof.
  revert st. induction fuel as [|fuel IH]; intros st;
    cbn [crossover_loop]; [by apply safe_ret|].
  destruct (ss_result_g st); [by apply safe_ret|].
  destruct (bool_decide _); [|by apply safe_ret].
  eapply safe_bind; [apply safe_crossover_attempt|]. intros st' _.
  apply IH.
Qed.

Lemma safe_crossover model_1 model_2 patience :
  safe (crossover self model_1 model_2 patience) (λ _, True).
Proof.
  unfold crossover.
  eapply safe_bind; [apply safe_lift_m|]. intros ms _.
  destruct ms as [|left_m [|right_m [|]]]; try apply safe_raise.
  eapply safe_bind; [apply safe_rename_dag_node_list|]. intros left_g _.
  eapply safe_bind; [apply safe_rename_dag_node_list|]. intros right_g _.
  assert (∀ g, safe (smapM (λ n, let* f := load_node n in sret (f_name f)) g)
                 (λ _, True)) as Hnames.
  { intros g. apply safe_smapM_any.
    intros nd _. eapply safe_bind; [apply safe_load_node|]. intros f _.
    by apply safe_ret. }
  eapply safe_bind; [apply Hnames|]. intros left_n _.
  eapply safe_bind; [apply Hnames|]. intros right_n _.
  destruct (decide _) as [Hyes|Hno]; [by apply safe_ret|].
  eapply safe_bind; [apply safe_crossover_loop|]. intros st _.
  destruct (ss_result_g st) as [[|l result_g]|]; try by apply safe_ret.
  eapply safe_bind; [apply safe_read_nodes|]. intros graph _.
  eapply safe_bind; [apply safe_lift_m|]. intros a _.
  by apply safe_ret.
Qed.
End operators.

(** A function that is [safe] from the heap it was entered with has not
    changed any object of that heap, whether it returned or raised. *)
Lemma safe_unchanged {A} (m : SM A) (P : A → Prop) w :
  safe (heap w) m P → unchanged w (m w).2.
Proof.
  intros Hsafe. destruct (Hsafe w) as [[Ht _] _].
  { split; [by rewrite take_ge|].
    intros l ???? Hl Hlook. apply lookup_lt_Some in Hlook.
    unfold fresh in Hl. lia. }
  intros l Hl.
  rewrite <- (lookup_take_lt (heap (m w).2) (length (heap w)) l) by done.
  by rewrite Ht.
Qed.

Lemma safe_result {A} (m : SM A) (P : A → Prop) w a :
  safe (heap w) m P → (m w).1 = Ok a → P a.
Proof.
  intros Hsafe. destruct (Hsafe w) as [_ HP]; [|exact (HP a)].
  split; [by rewrite take_ge|].
  intros l ???? Hl Hlook. apply lookup_lt_Some in Hlook.
  unfold fresh in Hl. lia.
Qed.
End OperatorFrame.

(** ** The store-level renamer computes the value-level one *)
Module RenameRefinement.
Import Store Frame.
Local Open Scope store_scope.

Lemma sbind_ok {A B} (m : SM A) (k : A → SM B) w a w1 :
  m w = (Ok a, w1) → sbind m k w = k a w1.
Proof. intros E. unfold sbind. by rewrite E. Qed.

Lemma node_at_prefix h h' l n :
  h `prefix_of` h' → node_at h l n → node_at h' l n.
Proof.
  intros Hp (inp & Hl & Hinp). exists inp.
  split; by eapply prefix_lookup_Some.
Qed.

(** Writes confined to locations that hold nodes do not change the value of
    any other node. *)
Lemma node_at_unchanged h h' (written : list loc) l n :
  (∀ k, k ∉ written → (k < length h)%nat → h' !! k = h !! k) →
  Forall (λ k, ∃ n', node_at h k n') written →
  l ∉ written → node_at h l n → node_at h' l n.
Proof.
  intros Hsame Hw Hl (inp & Hn & Hinp). exists inp.
  rewrite !Hsame; [done|..|done|]; try by eapply lookup_lt_Some.
  intros Hin. rewrite Forall_forall in Hw.
  destruct (Hw _ Hin) as (n' & i' & Hk & _). rewrite Hinp in Hk. discriminate.
Qed.

Lemma load_node_at w l n :
  node_at (heap w) l n →
  ∃ inp, load_node l w = (Ok (MkFields (name n) (op n) (scale n) inp), w)
         ∧ heap w !! l = Some (ONode (name n) (op n) (scale n) inp)
         ∧ heap w !! inp = Some (OList (inputs n)).
Proof.
  intros (inp & Hl & Hinp). exists inp. split; [|done].
  unfold load_node, sbind, load. by rewrite Hl.
Qed.

Lemma load_list_at w l items :
  heap w !! l = Some (OList items) → load_list l w = (Ok items, w).
Proof. intros Hl. unfold load_list, sbind, load. by rewrite Hl. Qed.

Lemma read_node_at w l n : node_at (heap w) l n → read_node l w = (Ok n, w).
Proof.
  intros Hn. destruct (load_node_at w l n Hn) as (inp & E & _ & Hinp).
  unfold read_node. rewrite (sbind_ok _ _ _ _ _ E). cbn.
  rewrite (sbind_ok _ _ _ _ _ (load_list_at _ _ _ Hinp)). by destruct n.
Qed.

Lemma read_nodes_at w ls g :
  nodes_at (heap w) ls g → read_nodes ls w = (Ok g, w).
Proof.
  unfold read_nodes. induction 1 as [|l n ls g Hn _ IH]; [done|].
  cbn [smapM]. rewrite (sbind_ok _ _ _ _ _ (read_node_at _ _ _ Hn)).
  by rewrite (sbind_ok _ _ _ _ _ IH).
Qed.

(** *** [copy.deepcopy] *)

Lemma deepcopy_inputs_spec h0 w copied memo inp items :
  h0 `prefix_of` heap w → memo_ok h0 (heap w) copied memo →
  h0 !! inp = Some (OList items) → inp ∉ copied →
  ∃ inp' memo' w',
    deepcopy_inputs memo inp w = (Ok (inp', memo'), w')
    ∧ env w' = env w ∧ heap w `prefix_of` heap w'
    ∧ heap w' !! inp' = Some (OList items)
    ∧ memo_ok h0 (heap w') copied memo'.
Proof.
  intros Hp Hmemo Hinp Hnot. unfold deepcopy_inputs.
  destruct (memo !! inp) as [v|] eqn:Em.
  - destruct (Hmemo _ _ Em) as [?|(items' & Hk & Hv)]; [done|].
    exists v, memo, w. repeat split; [done| |done].
    rewrite Hinp in Hk. by injection Hk as <-.
  - rewrite (sbind_ok _ _ _ _ _
      (load_list_at _ _ _ (prefix_lookup_Some _ _ _ _ Hinp Hp))).
    cbn. eexists _, _, _. split; [reflexivity|]. cbn.
    split; [done|]. split; [by apply prefix_app_r|].
    split; [by rewrite lookup_app_r, Nat.sub_diag|].
    intros k v Hk. destruct (decide (inp = k)) as [<-|Hne].
    + rewrite lookup_insert_eq in Hk. injection Hk as <-.
      right. exists items. split; [done|].
      by rewrite lookup_app_r, Nat.sub_diag.
    + rewrite lookup_insert_ne in Hk by done.
      destruct (Hmemo _ _ Hk) as [?|(items' & ? & Hv)]; [by left|].
      right. exists items'. split; [done|]. by apply lookup_app_l_Some.
Qed.

Lemma deepcopy_node_spec h0 w copied memo l n :
  h0 `prefix_of` heap w → memo_ok h0 (heap w) copied memo →
  node_at h0 l n → l ∉ copied →
  Forall (λ k, ∃ n', node_at h0 k n') copied →
  ∃ l' memo' w',
    deepcopy_node memo l w = (Ok (l', memo'), w')
    ∧ env w' = env w ∧ heap w `prefix_of` heap w'
    ∧ node_at (heap w') l' n
    ∧ (length (heap w) ≤ l' < length (heap w'))%nat
    ∧ memo_ok h0 (heap w') (l :: copied) memo'.
Proof.
  intros Hp Hmemo Hn Hnot Hcopied. unfold deepcopy_node.
  pose proof Hn as (inp & Hl & Hinp).
  destruct (memo !! l) as [v|] eqn:Em.
  { destruct (Hmemo _ _ Em) as [?|(items' & Hk & _)]; [done|].
    rewrite Hl in Hk. discriminate. }
  destruct (load_node_at w l n (node_at_prefix _ _ _ _ Hp Hn))
    as (inp0 & E & Hl0 & _).
  assert (inp0 = inp) as ->.
  { pose proof (prefix_lookup_Some _ _ _ _ Hl Hp) as Hl'.
    rewrite Hl0 in Hl'. by injection Hl'. }
  rewrite (sbind_ok _ _ _ _ _ E). cbn [f_inputs f_name f_op f_scale].
  destruct (deepcopy_inputs_spec h0 w copied memo inp (inputs n))
    as (inp' & memo1 & w1 & E1 & Henv1 & Hp1 & Hinp' & Hmemo1);
    [done..| |].
  { intros Hin. rewrite Forall_forall in Hcopied.
    destruct (Hcopied _ Hin) as (n' & i' & Hk & _).
    rewrite Hinp in Hk. discriminate. }
  rewrite (sbind_ok _ _ _ _ _ E1). cbn.
  eexists _, _, _. split; [reflexivity|]. cbn.
  split; [done|]. split; [etrans; [done|by apply prefix_app_r]|].
  split; [|split].
  - exists inp'. split; [by rewrite lookup_app_r, Nat.sub_diag|].
    by apply lookup_app_l_Some.
  - rewrite length_app. cbn. apply prefix_length in Hp1. lia.
  - intros k v Hk. destruct (decide (l = k)) as [<-|Hne].
    { left. apply list_elem_of_here. }
    rewrite lookup_insert_ne in Hk by done.
    destruct (Hmemo1 _ _ Hk) as [?|(items' & ? & Hv)]; [left; by apply list_elem_of_further|].
    right. exists items'. split; [done|]. by apply lookup_app_l_Some.
Qed.

Lemma deepcopy_nodes_spec h0 ls : ∀ g memo copied w,
  h0 `prefix_of` heap w → memo_ok h0 (heap w) copied memo →
  nodes_at h0 ls g → NoDup ls → (∀ l, l ∈ ls → l ∉ copied) →
  Forall (λ k, ∃ n', node_at h0 k n') copied →
  ∃ ls' w',
    deepcopy_nodes memo ls w = (Ok ls', w')
    ∧ env w' = env w ∧ heap w `prefix_of` heap w'
    ∧ nodes_at (heap w') ls' g
    ∧ Forall (λ l', length (heap w) ≤ l' < length (heap w'))%nat ls'
    ∧ NoDup ls'.
Proof.
  induction ls as [|l ls IH]; intros g memo copied w Hp Hmemo Hat Hnd Hnot
    Hcopied.
  { apply Forall2_nil_inv_l in Hat as ->. exists [], w.
    repeat split; [done|constructor..]. }
  apply Forall2_cons_inv_l in Hat as (n & g' & Hn & Hat & ->).
  apply NoDup_cons in Hnd as [Hl Hnd].
  cbn [deepcopy_nodes].
  destruct (deepcopy_node_spec h0 w copied memo l n)
    as (l' & memo1 & w1 & E1 & Henv1 & Hp1 & Hn1 & Hrange & Hmemo1);
    [done..|apply Hnot; apply list_elem_of_here|done|].
  rewrite (sbind_ok _ _ _ _ _ E1). cbn.
  destruct (IH g' memo1 (l :: copied) w1)
    as (ls' & w' & E' & Henv' & Hp' & Hat' & Hrange' & Hnd');
    [by etrans|done..| | |].
  { intros k Hk [->|?]%elem_of_cons; [done|].
    apply (Hnot k); [by apply list_elem_of_further|done]. }
  { constructor; [eauto|done]. }
  rewrite (sbind_ok _ _ _ _ _ E'). exists (l' :: ls'), w'.
  split; [done|]. split; [by rewrite Henv'|]. split; [by etrans|].
  pose proof (prefix_length _ _ Hp1). pose proof (prefix_length _ _ Hp').
  split; [|split].
  - constructor; [by eapply node_at_prefix|done].
  - constructor; [lia|]. eapply Forall_impl; [exact Hrange'|].
    cbn. intros; lia.
  - constructor; [|done]. intros Hin. rewrite Forall_forall in Hrange'.
    specialize (Hrange' _ Hin). lia.
Qed.

Lemma deepcopy_spec w ls g :
  nodes_at (heap w) ls g → NoDup ls →
  ∃ ls' w',
    deepcopy ls w = (Ok ls', w')
    ∧ env w' = env w ∧ heap w `prefix_of` heap w'
    ∧ nodes_at (heap w') ls' g
    ∧ Forall (λ l', length (heap w) ≤ l')%nat ls'
    ∧ NoDup ls'.
Proof.
  intros Hat Hnd.
  destruct (deepcopy_nodes_spec (heap w) ls g ∅ [] w)
    as (ls' & w' & E & ? & ? & ? & Hr & ?); [done| |done..| | |].
  { intros k v. by rewrite lookup_empty. }
  { intros l _ Hin. by apply elem_of_nil in Hin. }
  { constructor. }
  exists ls', w'. repeat split; [done..| |done].
  eapply Forall_impl; [exact Hr|]. cbn. intros; lia.
Qed.
(** *** The renaming loop *)

Lemma load_node_obj w l nm o sc inp :
  heap w !! l = Some (ONode nm o sc inp) →
  load_node l w = (Ok (MkFields nm o sc inp), w).
Proof. intros Hl. unfold load_node, sbind, load. by rewrite Hl. Qed.

Lemma store_at w l o :
  (l < length (heap w))%nat →
  store l o w = (Ok tt, MkWorld (env w) (<[l := o]> (heap w))).
Proof. intros Hl. unfold store. by destruct (decide _). Qed.

Lemma set_field_name_at w l nm o sc inp s :
  heap w !! l = Some (ONode nm o sc inp) →
  set_field_name l s w
  = (Ok tt, MkWorld (env w) (<[l := ONode s o sc inp]> (heap w))).
Proof.
  intros Hl. unfold set_field_name.
  rewrite (sbind_ok _ _ _ _ _ (load_node_obj _ _ _ _ _ _ Hl)). cbn.
  apply store_at. by eapply lookup_lt_Some.
Qed.

Lemma set_field_inputs_at w l nm o sc inp i :
  heap w !! l = Some (ONode nm o sc inp) →
  set_field_inputs l i w
  = (Ok tt, MkWorld (env w) (<[l := ONode nm o sc i]> (heap w))).
Proof.
  intros Hl. unfold set_field_inputs.
  rewrite (sbind_ok _ _ _ _ _ (load_node_obj _ _ _ _ _ _ Hl)). cbn.
  apply store_at. by eapply lookup_lt_Some.
Qed.

(** Lines 49-61 for the node at [l]: the rename map is extended and the
    node renamed, unless its name is already a key. *)
Lemma rename_name_refines p aio len i m w l n inp :
  heap w !! l = Some (ONode (name n) (op n) (scale n) inp) →
  let m' := match m !! name n with
            | None => <[name n := rename_new_name p aio len i]> m
            | Some _ => m
            end in
  let n' := match m !! name n with
            | None => set_name (rename_new_name p aio len i) n
            | Some _ => n
            end in
  ∃ w1,
    (∀ B (K : gmap string string → SM B),
       (let* rename_map :=
          match m !! name n with
          | None =>
              let new_name := rename_new_name p aio len i in
              set_field_name l new_name;;
              sret (<[name n := new_name]> m)
          | Some _ => sret m
          end in K rename_map) w = K m' w1)
    ∧ env w1 = env w ∧ length (heap w1) = length (heap w)
    ∧ heap w1 !! l = Some (ONode (name n') (op n') (scale n') inp)
    ∧ inputs n' = inputs n
    ∧ ∀ k, k ≠ l → heap w1 !! k = heap w !! k.
Proof.
  intros Hl m' n'. subst m' n'. destruct (m !! name n) as [old|].
  { exists w. by repeat split. }
  eexists. split.
  { intros B K. unfold sbind at 1.
    rewrite (sbind_ok _ _ _ _ _ (set_field_name_at _ _ _ _ _ _ _ Hl)).
    reflexivity. }
  cbn. split; [done|]. split; [by rewrite length_insert|].
  split; [rewrite list_lookup_insert_eq; [done|by eapply lookup_lt_Some]|].
  split; [done|]. intros k Hk. by rewrite list_lookup_insert_ne.
Qed.

(** Lines 63-68 for the node at [l]: a non-empty ['inputs'] list is
    replaced by a new list object, an empty one is kept. *)
Lemma rename_inputs_refines m w l n inp :
  heap w !! l = Some (ONode (name n) (op n) (scale n) inp) →
  heap w !! inp = Some (OList (inputs n)) →
  ∃ w',
    (∀ B (K : SM B),
       (let* f := load_node l in
        let* items := load_list (f_inputs f) in
        match items with
        | [] => sret tt
        | _ => let* renamed := alloc (OList (omap (rename_input m) items)) in
               set_field_inputs l renamed
        end;; K) w = K w')
    ∧ env w' = env w
    ∧ node_at (heap w') l (set_inputs (rename_inputs m (inputs n)) n)
    ∧ (length (heap w) ≤ length (heap w'))%nat
    ∧ ∀ k, k ≠ l → (k < length (heap w))%nat → heap w' !! k = heap w !! k.
Proof.
  intros Hl Hinp.
  assert (inp ≠ l) as Hne by (intros ->; rewrite Hl in Hinp; discriminate).
  pose proof (lookup_lt_Some _ _ _ Hl) as Hlt.
  destruct (inputs n) as [|it items] eqn:Eitems.
  - exists w. split.
    { intros B K. rewrite (sbind_ok _ _ _ _ _ (load_node_obj _ _ _ _ _ _ Hl)).
      cbn [f_inputs].
      by rewrite (sbind_ok _ _ _ _ _ (load_list_at _ _ _ Hinp)). }
    split; [done|]. split; [|split; [lia|done]].
    by exists inp.
  - set (renamed := OList (omap (rename_input m) (it :: items))).
    set (w2 := MkWorld (env w) (heap w ++ [renamed])).
    assert (alloc renamed w = (Ok (length (heap w)), w2)) as Ea by done.
    assert (heap w2 !! l = Some (ONode (name n) (op n) (scale n) inp)) as Hl2.
    { cbn. by rewrite (lookup_app_l_Some _ _ _ _ Hl). }
    eexists. split.
    { intros B K. rewrite (sbind_ok _ _ _ _ _ (load_node_obj _ _ _ _ _ _ Hl)).
      cbn [f_inputs].
      rewrite (sbind_ok _ _ _ _ _ (load_list_at _ _ _ Hinp)).
      unfold sbind at 1. rewrite (sbind_ok _ _ _ _ _ Ea).
      rewrite (set_field_inputs_at _ _ _ _ _ _ _ Hl2). reflexivity. }
    cbn. split; [done|]. split; [|split].
    + exists (length (heap w)). cbn. split.
      * rewrite list_lookup_insert_eq; [done|]. rewrite length_app. lia.
      * rewrite list_lookup_insert_ne by lia.
        by rewrite lookup_app_r, Nat.sub_diag.
    + rewrite length_insert, length_app. lia.
    + intros k Hk Hklt. rewrite list_lookup_insert_ne by done.
      by rewrite lookup_app_l by lia.
Qed.

(** The loop of lines 48-68 on distinct node objects leaves them holding
    what the value-level loop computes, and changes nothing else that
    existed. *)
Lemma rename_loop_refines p aio len nodes : ∀ g i m w,
  NoDup nodes → nodes_at (heap w) nodes g →
  ∃ w',
    Store.rename_loop p aio len i m nodes w = (Ok tt, w')
    ∧ env w' = env w
    ∧ nodes_at (heap w') nodes (value_rename_loop p aio len i m g)
    ∧ (length (heap w) ≤ length (heap w'))%nat
    ∧ ∀ k, k ∉ nodes → (k < length (heap w))%nat →
        heap w' !! k = heap w !! k.
Proof.
  induction nodes as [|l rest IH]; intros g i m w Hnd Hat.
  { apply Forall2_nil_inv_l in Hat as ->. exists w. repeat split; [|lia].
    constructor. }
  apply Forall2_cons_inv_l in Hat as (n & g' & Hn & Hat & ->).
  apply NoDup_cons in Hnd as [Hl Hnd].
  cbn [Store.rename_loop].
  destruct Hn as (inp & Hln & Hinp).
  rewrite (sbind_ok _ _ _ _ _ (load_node_obj _ _ _ _ _ _ Hln)).
  cbn [f_name].
  destruct (rename_name_refines p aio len i m w l n inp Hln)
    as (w1 & E1 & Henv1 & Hlen1 & Hl1 & Hin1 & Hsame1).
  rewrite E1. clear E1.
  set (m' := match m !! name n with
             | None => <[name n := rename_new_name p aio len i]> m
             | Some _ => m end) in *.
  set (n' := match m !! name n with
             | None => set_name (rename_new_name p aio len i) n
             | Some _ => n end) in *.
  assert (inp ≠ l) as Hne by (intros ->; rewrite Hln in Hinp; discriminate).
  destruct (rename_inputs_refines m' w1 l n' inp Hl1)
    as (w2 & E2 & Henv2 & Hn2 & Hlen2 & Hsame2).
  { rewrite Hin1. by rewrite Hsame1. }
  rewrite E2. clear E2.
  assert (∀ k, k ∉ [l] → (k < length (heap w))%nat →
            heap w2 !! k = heap w !! k) as Hsame.
  { intros k Hk Hlt. rewrite Hsame2, Hsame1; [done|..]; try lia;
      intros ->; apply Hk, list_elem_of_here. }
  assert (Forall (λ k, ∃ n', node_at (heap w) k n') [l]) as Hwritten.
  { repeat constructor. exists n, inp. done. }
  assert (nodes_at (heap w2) rest g') as Hat2.
  { apply Forall2_same_length_lookup. split; [by eapply Forall2_length|].
    intros j l' n0 Hl' Hn0.
    eapply node_at_unchanged; [exact Hsame|exact Hwritten| |].
    - intros ->%list_elem_of_singleton. apply Hl.
      by eapply list_elem_of_lookup_2.
    - by eapply Forall2_lookup_lr. }
  destruct (IH g' (S i) m' w2 Hnd Hat2)
    as (w' & E' & Henv' & Hat' & Hlen' & Hsame').
  exists w'. split; [done|]. split; [by rewrite Henv', Henv2|].
  split; [|split; [lia|]].
  - assert (value_rename_loop p aio len i m (n :: g')
            = set_inputs (rename_inputs m' (inputs n')) n'
                :: value_rename_loop p aio len (S i) m' g') as ->.
    { subst m' n'. cbn [value_rename_loop]. by destruct (m !! name n). }
    constructor; [|done].
    eapply node_at_unchanged; [exact Hsame'| |done|done].
    apply Forall_forall. intros k [j Hj]%list_elem_of_lookup.
    destruct (Forall2_lookup_l _ _ _ _ _ Hat2 Hj) as (n0 & _ & Hn0). eauto.
  - intros k Hk Hlt. rewrite Hsame'.
    + apply Hsame; [|done]. intros ->%list_elem_of_singleton.
      apply Hk, list_elem_of_here.
    + intros Hin. by apply Hk, list_elem_of_further.
    + lia.
Qed.

(** The store-level renamer, run on distinct node objects that hold the
    node list [g], returns fresh node objects that hold the value-level
    renaming of [g]; the objects it was given still hold [g]. *)
Lemma rename_dag_node_list_refines w ls g prefix rio aio :
  NoDup ls → nodes_at (heap w) ls g →
  ∃ ls' w',
    Store.rename_dag_node_list ls prefix rio aio w = (Ok ls', w')
    ∧ env w' = env w
    ∧ read_nodes ls' w'
      = (Ok (value_rename_dag_node_list g prefix rio aio), w')
    ∧ read_nodes ls w' = (Ok g, w')
    ∧ Forall (λ l', length (heap w) ≤ l')%nat ls'.
Proof.
  intros Hnd Hat. unfold Store.rename_dag_node_list.
  destruct (deepcopy_spec w ls g Hat Hnd)
    as (ls1 & w1 & E1 & Henv1 & Hp1 & Hat1 & Hfresh1 & Hnd1).
  rewrite (sbind_ok _ _ _ _ _ E1).
  set (p := if decide (prefix = "") then "" else prefix +:+ "_").
  set (m0 := if rio then ∅ else <["output":="output"]> (<["input":="input"]> ∅)).
  destruct (rename_loop_refines p aio (length ls1) ls1 g 0 m0 w1 Hnd1 Hat1)
    as (w' & E' & Henv' & Hat' & Hlen' & Hsame').
  rewrite (sbind_ok _ _ _ _ _ E'). exists ls1, w'.
  split; [done|]. split; [by rewrite Henv'|].
  assert (length ls1 = length g) as Hlen by by eapply Forall2_length.
  split; [|split; [|done]].
  - apply read_nodes_at. unfold value_rename_dag_node_list.
    fold p. fold m0. by rewrite <- Hlen.
  - apply read_nodes_at.
    apply Forall2_same_length_lookup. split; [by eapply Forall2_length|].
    intros j l n Hl Hn.
    assert (node_at (heap w1) l n) as Hn1.
    { eapply node_at_prefix; [done|]. by eapply Forall2_lookup_lr. }
    eapply node_at_unchanged; [exact Hsame'| | |done].
    + apply Forall_forall. intros k [j' Hj']%list_elem_of_lookup.
      destruct (Forall2_lookup_l _ _ _ _ _ Hat1 Hj') as (n0 & _ & Hn0). eauto.
    + intros Hin. rewrite Forall_forall in Hfresh1.
      specialize (Hfresh1 _ Hin).
      destruct (Forall2_lookup_lr _ _ _ _ _ _ Hat Hl Hn) as (inp & Hl0 & _).
      apply lookup_lt_Some in Hl0. lia.
Qed.
End RenameRefinement.

(** C9: none of the four functions changes an object that existed when it
    was called -- in particular none reachable from its arguments -- whether
    it returns or raises: [rename_dag_node_list] returns a list of freshly
    allocated node objects and leaves the nodes it was given unchanged,
    [random_neighbor] leaves its domain list unchanged, and [get_neighbors]
    and [crossover] leave the node objects of the base and parent graphs
    unchanged: every store write goes to an object allocated by a deep copy
    made during the call.  The list [rename_dag_node_list] returns holds the
    value-level renaming of the graph it was given, which still reads as
    before. *)
Theorem operators_leave_arguments_unchanged `{Compiler}
    (self : DiscreteSearchSpaceSegmentation) (w : Store.World) :
  (∀ node_list prefix rio aio,
     Frame.unchanged w
       (Store.rename_dag_node_list node_list prefix rio aio w).2
     ∧ ∀ copied,
         (Store.rename_dag_node_list node_list prefix rio aio w).1 = Ok copied →
         Forall (λ l, length (Store.heap w) ≤ l)%nat copied)
  ∧ (∀ node_list g prefix rio aio,
       NoDup node_list → Frame.nodes_at (Store.heap w) node_list g →
       ∃ copied w',
         Store.rename_dag_node_list node_list prefix rio aio w = (Ok copied, w')
         ∧ Store.read_nodes copied w'
           = (Ok (rename_dag_node_list g prefix rio aio), w')
         ∧ Store.read_nodes node_list w' = (Ok g, w'))
  ∧ (∀ param_values current_value,
       Frame.unchanged w (Store.random_neighbor param_values current_value w).2)
  ∧ (∀ bc_loc dc_loc pul_loc base_graph base_model patience,
       Frame.unchanged w
         (Store.get_neighbors self bc_loc dc_loc pul_loc base_graph base_model
            patience w).2)
  ∧ (∀ model_1 model_2 patience,
       Frame.unchanged w (Store.crossover self model_1 model_2 patience w).2).
Proof.
  split; [|split; [|split; [|split]]].
  - intros node_list prefix rio aio. split.
    + eapply OperatorFrame.safe_unchanged,
        FrameFacts.safe_rename_dag_node_list.
    + intros copied Hc.
      eapply (OperatorFrame.safe_result _ _ w copied
                (FrameFacts.safe_rename_dag_node_list _ _ _ _ _) Hc).
  - intros node_list g prefix rio aio Hnd Hat.
    destruct (RenameRefinement.rename_dag_node_list_refines
                w node_list g prefix rio aio Hnd Hat)
      as (copied & w' & Hrun & _ & Hnew & Hold & _).
    by exists copied, w'.
  - intros. eapply OperatorFrame.safe_unchanged,
      FrameFacts.safe_random_neighbor.
  - intros. eapply OperatorFrame.safe_unchanged,
      OperatorFrame.safe_get_neighbors.
  - intros. eapply OperatorFrame.safe_unchanged,
      OperatorFrame.safe_crossover.
Qed.

Lemma operators_leave_arguments_unchanged_witness :
  ∃ copied w',
    Store.rename_dag_node_list chain6_locs "left" true false chain6_world
      = (Ok copied, w')
    ∧ Store.read_nodes copied w'
      = (Ok (rename_dag_node_list chain6 "left" true false), w')
    ∧ Store.read_nodes chain6_locs w' = (Ok chain6, w').
Proof.
  apply (proj1 (proj2 (@operators_leave_arguments_unchanged
                         (stub_compiler true true 10)
                         (example_space [] 0 100) chain6_world))).
  - apply (bool_decide_unpack _). reflexivity.
  - repeat (constructor; [eexists; split; reflexivity|]). constructor.
Defined.

(** * Further properties *)

(** ** [random_neighbor]: more properties *)

Lemma py_min_from_le_best {A} (key : A → Z) best (l : list A) :
  key (py_min_from key best l) ≤ key best.
Proof.
  revert best. induction l as [|x l IH]; intros best; simpl; [lia|].
  destruct (decide (key x < key best)) as [Hlt|Hge]; [|apply IH].
  specialize (IH x). lia.
Qed.

Lemma py_min_from_least {A} (key : A → Z) best (l : list A) y :
  y ∈ l → key (py_min_from key best l) ≤ key y.
Proof.
  revert best. induction l as [|x l IH]; intros best Hy; simpl.
  - by apply elem_of_nil in Hy.
  - apply elem_of_cons in Hy as [->|Hy]; [|by apply IH].
    destruct (decide (key x < key best)) as [Hlt|Hge].
    + apply py_min_from_le_best.
    + pose proof (py_min_from_le_best key best l). lia.
Qed.

Lemma py_min_least {A} (key : A → Z) (l : list A) x y :
  py_min key l = Ok x → y ∈ l → key x ≤ key y.
Proof.
  destruct l as [|b l]; [done|]. simpl. intros [= <-] Hy.
  apply elem_of_cons in Hy as [->|Hy].
  - apply py_min_from_le_best.
  - by apply py_min_from_least.
Qed.

Lemma StronglySorted_lookup_le (l : list Z) i j a b :
  StronglySorted Z.le l → (i ≤ j)%nat →
  l !! i = Some a → l !! j = Some b → a ≤ b.
Proof.
  intros Hs. revert i j. induction Hs as [|x l Hs IH Hall]; intros i j Hij Hi Hj.
  - done.
  - destruct i as [|i], j as [|j]; simpl in *.
    + simplify_eq. lia.
    + simplify_eq. rewrite Forall_forall in Hall.
      apply Hall. by eapply list_elem_of_lookup_2.
    + lia.
    + eapply (IH i j); [lia|done..].
Qed.

(** The anchor index of lines 25-28 holds a value nearest to the current
    one. *)
Lemma random_neighbor_sorted_inv (l : list Z) (v : Z) s x s' :
  random_neighbor_sorted l v s = (Ok x, s') →
  ∃ (idx : nat) (off : Z) a,
    l !! idx = Some a ∧ (∀ y, y ∈ l → Z.abs (a - v) ≤ Z.abs (y - v))
    ∧ -1 ≤ off ≤ 1 ∧ 0 ≤ Z.of_nat idx + off
    ∧ l !! Z.to_nat (Z.of_nat idx + off) = Some x.
Proof.
  unfold random_neighbor_sorted. intros Hrun.
  apply bind_inv_ok in Hrun as (idx & s1 & Hidx & Hrun).
  apply bind_inv_ok in Hrun as (off & s2 & Hoff & Hrun).
  apply randint_inv in Hoff as [Hoff _].
  unfold lift in Hrun. injection Hrun as Hx _.
  assert (0 ≤ Z.of_nat idx + off) as Hnn by (repeat case_decide; lia).
  assert (∃ a, l !! idx = Some a
               ∧ ∀ y, y ∈ l → Z.abs (a - v) ≤ Z.abs (y - v))
    as (a & Ha & Hnear).
  { destruct (od_get v (od_of_enumerate 0 l [])) as [i|] eqn:Ev.
    - injection Hidx as -> _.
      apply od_of_enumerate_get in Ev as [Ev|[_ Ev]]; [done|].
      rewrite Nat.sub_0_r in Ev. exists v. split; [done|]. intros; lia.
    - apply bind_inv_ok in Hidx as (k & s0 & Hk & Hidx).
      unfold lift in Hk. injection Hk as Hk _.
      destruct (od_get k (od_of_enumerate 0 l [])) as [i|] eqn:Ek; [|done].
      injection Hidx as -> _.
      apply od_of_enumerate_get in Ek as [Ek|[_ Ek]]; [done|].
      rewrite Nat.sub_0_r in Ek. exists k. split; [done|].
      intros y Hy.
      apply (py_min_least (λ k, Z.abs (k - v)) _ _ y Hk).
      apply od_of_enumerate_keys. by left. }
  exists idx, off, a. repeat split; try done; try (repeat case_decide; lia).
  by apply py_index_nonneg_inv.
Qed.

Lemma random_neighbor_one_step_aux (domain : list Z) (v : Z) s x s' :
  random_neighbor domain v s = (Ok x, s') →
  ∃ a, a ∈ domain
    ∧ (∀ y, y ∈ domain → Z.abs (a - v) ≤ Z.abs (y - v))
    ∧ ∀ y, y ∈ domain → ¬ (Z.min a x < y < Z.max a x).
Proof.
  unfold random_neighbor. intros Hrun.
  set (l := merge_sort Z.le domain) in *.
  assert (l ≡ₚ domain) as Hp by apply merge_sort_Permutation.
  assert (StronglySorted Z.le l) as Hs
    by (apply StronglySorted_merge_sort; apply _).
  apply random_neighbor_sorted_inv in Hrun
    as (idx & off & a & Ha & Hnear & Hoff & Hnn & Hx).
  exists a. split; [|split].
  - rewrite <- Hp. by eapply list_elem_of_lookup_2.
  - intros y Hy. apply Hnear. by rewrite Hp.
  - intros y Hy. rewrite <- Hp in Hy.
    apply list_elem_of_lookup in Hy as [j Hj].
    assert (off = -1 ∨ off = 0 ∨ off = 1) as [-> | [-> | ->]] by lia.
    + replace (Z.to_nat (Z.of_nat idx + -1)) with (idx - 1)%nat in Hx by lia.
      assert (x ≤ a)
        by (eapply (StronglySorted_lookup_le l (idx - 1) idx); [done|lia|done..]).
      destruct (decide (j ≤ idx - 1)%nat) as [Hle|Hgt].
      * assert (y ≤ x)
          by (eapply (StronglySorted_lookup_le l j (idx - 1)); done).
        lia.
      * assert (a ≤ y)
          by (eapply (StronglySorted_lookup_le l idx j); [done|lia|done..]).
        lia.
    + replace (Z.to_nat (Z.of_nat idx + 0)) with idx in Hx by lia.
      simplify_eq. lia.
    + replace (Z.to_nat (Z.of_nat idx + 1)) with (S idx) in Hx by lia.
      assert (a ≤ x)
        by (eapply (StronglySorted_lookup_le l idx (S idx)); [done|lia|done..]).
      destruct (decide (j ≤ idx)%nat) as [Hle|Hgt].
      * assert (y ≤ a)
          by (eapply (StronglySorted_lookup_le l j idx); done).
        lia.
      * assert (x ≤ y)
          by (eapply (StronglySorted_lookup_le l (S idx) j); [done|lia|done..]).
        lia.
Qed.

(** X1: [random_neighbor] raises exactly when the domain is empty: then the
    [min] of line 28 has nothing to choose from and [ValueError] is raised
    before anything is drawn. *)
Theorem random_neighbor_raises_iff_empty (domain : list Z)
    (current_value : Z) (s : Env) :
  random_neighbor [] current_value s = (Raise ValueError, s)
  ∧ ((∃ e, (random_neighbor domain current_value s).1 = Raise e)
     ↔ domain = []).
Proof.
  split; [reflexivity|]. split.
  - intros [e He]. destruct domain as [|d domain]; [done|].
    destruct (random_neighbor_spec (d :: domain) current_value s)
      as (x & s1 & E & _); [done|].
    rewrite E in He. discriminate.
  - intros ->. by exists ValueError.
Qed.

(** X2: the value [random_neighbor] returns lies at most one step, in the
    sorted domain, from a domain value nearest to the current value (the
    current value itself when the domain holds it): no domain value lies
    strictly between the two. *)
Theorem random_neighbor_one_step (domain : list Z) (current_value : Z)
    (s s' : Env) (x : Z) :
  random_neighbor domain current_value s = (Ok x, s') →
  ∃ a, a ∈ domain
    ∧ (∀ y, y ∈ domain → Z.abs (a - current_value) ≤ Z.abs (y - current_value))
    ∧ ∀ y, y ∈ domain → ¬ (Z.min a x < y < Z.max a x).
Proof. apply random_neighbor_one_step_aux. Qed.

Lemma random_neighbor_one_step_witness :
  ∃ a, a ∈ [24; 8; 16; 32]
    ∧ (∀ y, y ∈ [24; 8; 16; 32] → Z.abs (a - 19) ≤ Z.abs (y - 19))
    ∧ ∀ y, y ∈ [24; 8; 16; 32] → ¬ (Z.min a 24 < y < Z.max a 24).
Proof.
  apply (random_neighbor_one_step [24; 8; 16; 32] 19 (env0 [2%nat])
           (random_neighbor [24; 8; 16; 32] 19 (env0 [2%nat])).2 24).
  reflexivity.
Defined.

(** X3: the order in which the domain is listed does not matter: on two
    domains that are permutations of each other [random_neighbor] behaves the
    same, draw for draw. *)
Theorem random_neighbor_order_irrelevant (domain domain' : list Z)
    (current_value : Z) (s : Env) :
  domain ≡ₚ domain' →
  random_neighbor domain current_value s
  = random_neighbor domain' current_value s.
Proof.
  intros Hp. unfold random_neighbor. f_equal.
  apply (Sorted_unique Z.le).
  - apply Sorted_merge_sort; apply _.
  - apply Sorted_merge_sort; apply _.
  - by rewrite !merge_sort_Permutation.
Qed.

Lemma random_neighbor_order_irrelevant_witness :
  random_neighbor [8; 16; 24] 16 (env0 [2%nat])
  = random_neighbor [24; 8; 16] 16 (env0 [2%nat]).
Proof.
  apply (random_neighbor_order_irrelevant [8; 16; 24] [24; 8; 16]).
  symmetry. apply (Permutation_cons_append [8; 16] 24).
Defined.

(** ** [rename_dag_node_list]: more properties *)

(** The guard of line 63 changes nothing: filtering an empty list gives the
    empty list. *)
Lemma rename_inputs_omap m inps :
  rename_inputs m inps = omap (rename_input m) inps.
Proof. by destruct inps. Qed.

Lemma rename_inputs_length m inps :
  (length (rename_inputs m inps) ≤ length inps)%nat.
Proof.
  rewrite rename_inputs_omap. induction inps as [|e inps IH]; simpl; [lia|].
  destruct (rename_input m e); simpl; fold (omap (rename_input m) inps); lia.
Qed.

Lemma rename_loop_inputs_length p aio len i m nodes j n o :
  rename_loop p aio len i m nodes !! j = Some n → nodes !! j = Some o →
  (length (inputs n) ≤ length (inputs o))%nat.
Proof.
  revert i m j. induction nodes as [|node rest IH]; intros i m j; [done|].
  cbn [rename_loop].
  destruct (m !! name node); (destruct j as [|j]; cbn [lookup list_lookup];
    [intros [= <-] [= <-]; apply rename_inputs_length | apply IH]).
Qed.

(** The name a node ends up with, when no two nodes share a name: its own
    when the rename map held it from the start, the positional one
    otherwise. *)
Lemma rename_loop_names_seeded p aio len nodes i m j o n :
  NoDup (name <$> nodes) →
  nodes !! j = Some o →
  rename_loop p aio len i m nodes !! j = Some n →
  name n = match m !! name o with
           | Some _ => name o
           | None => rename_new_name p aio len (i + j)
           end.
Proof.
  revert i m j. induction nodes as [|node rest IH]; intros i m j Hnd; [done|].
  apply NoDup_cons in Hnd as [Hnot Hnd]. cbn [rename_loop].
  destruct j as [|j]; cbn [lookup list_lookup].
  - intros [= <-]. rewrite Nat.add_0_r.
    destruct (m !! name node); by intros [= <-].
  - intros Ho Hn.
    assert (name o ≠ name node) as Hne.
    { intros E. apply Hnot. rewrite <- E.
      apply list_elem_of_fmap_2. by eapply list_elem_of_lookup_2. }
    replace (i + S j)%nat with (S i + j)%nat by lia.
    destruct (m !! name node) eqn:Em.
    + by apply (IH _ _ _ Hnd Ho Hn).
    + rewrite (IH _ _ _ Hnd Ho Hn). by rewrite lookup_insert_ne.
Qed.


(** Every input of a node whose references all resolve is translated, none
    is dropped. *)
Lemma rename_inputs_resolved (P : string → Prop) m inps :
  (∀ e, e ∈ inps → ∃ k, e = Some k ∧ k ≠ "" ∧ P k ∧ is_Some (m !! k)) →
  Forall2 (λ e e', ∃ k s, e = Some k ∧ e' = Some s ∧ P k ∧ m !! k = Some s)
    inps (rename_inputs m inps).
Proof.
  rewrite rename_inputs_omap.
  induction inps as [|e inps IH]; intros Hres; simpl; [constructor|].
  destruct (Hres e) as (k & -> & Hk & HP & [s Hs]); [by left|].
  simpl. destruct (decide (k = "")); [done|]. rewrite Hs. simpl.
  constructor; [by exists k, s|].
  apply IH. intros e' He'. apply Hres. by right.
Qed.

Lemma rename_loop_edges (P : string → Prop) p aio len nodes i m j o n :
  nodes !! j = Some o →
  rename_loop p aio len i m nodes !! j = Some n →
  (∀ e, e ∈ inputs o → ∃ k, e = Some k ∧ k ≠ "" ∧ P k
     ∧ (is_Some (m !! k)
        ∨ ∃ b ob, (b ≤ j)%nat ∧ nodes !! b = Some ob ∧ name ob = k)) →
  Forall2 (λ e e', ∃ k s, e = Some k ∧ e' = Some s ∧ P k
     ∧ (m !! k = Some s
        ∨ ∃ b ob nb, (b ≤ j)%nat ∧ nodes !! b = Some ob ∧ name ob = k
            ∧ rename_loop p aio len i m nodes !! b = Some nb ∧ name nb = s))
    (inputs o) (inputs n).
Proof.
  revert i m j. induction nodes as [|node rest IH]; intros i m j; [done|].
  cbn [rename_loop].
  set (new_name := rename_new_name p aio len i).
  set (step := match m !! name node with
               | Some _ => (m, node)
               | None => (<[name node := new_name]> m, set_name new_name node)
               end).
  assert (∃ m' node', step = (m', node')
            ∧ inputs node' = inputs node
            ∧ (∀ k, is_Some (m !! k) → is_Some (m' !! k))
            ∧ is_Some (m' !! name node)
            ∧ (∀ k s, m' !! k = Some s →
                 m !! k = Some s ∨ k = name node ∧ s = name node'))
    as (m' & node' & -> & Hinp & Hmono & Hhead & Hback).
  { unfold step. destruct (m !! name node) as [s0|] eqn:Em.
    - exists m, node. rewrite Em. eauto 10.
    - eexists _, _. split; [done|]. split; [done|]. split; [|split].
      + intros k [s Hs]. destruct (decide (name node = k)) as [<-|Hne].
        * by rewrite lookup_insert_eq.
        * rewrite lookup_insert_ne by done. by rewrite Hs.
      + by rewrite lookup_insert_eq.
      + intros k s. destruct (decide (name node = k)) as [<-|Hne].
        * rewrite lookup_insert_eq. intros [= <-]. by right.
        * rewrite lookup_insert_ne by done. by left. }
  destruct j as [|j]; cbn [lookup list_lookup].
  - intros [= <-] [= <-] Hres. cbn [inputs set_inputs]. rewrite Hinp.
    eapply Forall2_impl.
    + apply (rename_inputs_resolved P). intros e He.
      destruct (Hres e He)
        as (k & -> & Hk & HP & [Hs|(b & ob & Hb & Hob & <-)]).
      * exists k. split; [done|]. split; [done|]. split; [done|].
        by apply Hmono.
      * assert (b = 0%nat) as -> by lia. injection Hob as <-.
        exists (name node). eauto.
    + intros e e' (k & s & -> & -> & HP & Hs). exists k, s.
      split; [done|]. split; [done|]. split; [done|].
      destruct (Hback _ _ Hs) as [Hm|[-> ->]]; [by left|].
      right. exists 0%nat, node. eexists. split; [lia|].
      split; [done|]. split; [done|]. split; [done|]. done.
  - intros Ho Hn Hres.
    eapply Forall2_impl.
    + apply (IH (S i) m' j Ho Hn). intros e He.
      destruct (Hres e He)
        as (k & -> & Hk & HP & [Hs|(b & ob & Hb & Hob & <-)]).
      * exists k. split; [done|]. split; [done|]. split; [done|].
        left. by apply Hmono.
      * exists (name ob). split; [done|]. split; [done|]. split; [done|].
        destruct b as [|b]; cbn [lookup list_lookup] in Hob.
        -- left. by injection Hob as <-.
        -- right. exists b, ob. split; [lia|done].
    + intros e e'
        (k & s & -> & -> & HP & [Hs|(b & ob & nb & Hb & Hob & Hk & Hnb & Hs)]).
      * exists k, s. split; [done|]. split; [done|]. split; [done|].
        destruct (Hback _ _ Hs) as [Hm|[-> ->]]; [by left|].
        right. exists 0%nat, node. eexists. split; [lia|].
        split; [done|]. split; [done|]. split; [done|]. done.
      * exists k, s. split; [done|]. split; [done|]. split; [done|]. right.
        exists (S b), ob, nb. split; [lia|done].
Qed.

Lemma NoDup_fmap_lookup_inj {A B} (f : A → B) (l : list A) i j a b :
  NoDup (f <$> l) → l !! i = Some a → l !! j = Some b → f a = f b → i = j.
Proof.
  intros Hnd Ha Hb Hab.
  eapply (NoDup_lookup _ i j (f a) Hnd).
  - by rewrite list_lookup_fmap, Ha.
  - by rewrite list_lookup_fmap, Hb, Hab.
Qed.

Lemma rename_keeps_edges l prefix rio aio j o n :
  NoDup (name <$> l) → "" ∉ name <$> l → inputs_earlier l →
  l !! j = Some o →
  rename_dag_node_list l prefix rio aio !! j = Some n →
  Forall2 (λ e e', ∃ b m m',
             (b < j)%nat ∧ l !! b = Some m ∧ e = Some (name m)
             ∧ rename_dag_node_list l prefix rio aio !! b = Some m'
             ∧ e' = Some (name m'))
    (inputs o) (inputs n).
Proof.
  intros Hnd Hnonempty Hearlier Ho Hn. unfold rename_dag_node_list in *.
  set (p := if decide (prefix = "") then "" else prefix +:+ "_") in *.
  set (m0 := if rio then (∅ : gmap string string)
             else <["output" := "output"]> (<["input" := "input"]> ∅)) in *.
  set (r := rename_loop p aio (length l) 0 m0 l) in *.
  eapply Forall2_impl.
  - apply (rename_loop_edges
             (λ k, ∃ b m, (b < j)%nat ∧ l !! b = Some m ∧ name m = k)
             _ _ _ _ _ _ _ _ _ Ho Hn).
    intros e He.
    destruct (Hearlier _ _ _ Ho He) as (s & b & m & -> & Hb & Hm & <-).
    exists (name m). split; [done|]. split; [|split].
    + intros E. apply Hnonempty. rewrite <- E.
      apply list_elem_of_fmap_2. by eapply list_elem_of_lookup_2.
    + by exists b, m.
    + right. exists b, m. split; [lia|done].
  - intros e e' (k & s & -> & -> & (b & m & Hb & Hm & <-) & Hks).
    destruct (lookup_lt_is_Some_2 r b) as [m' Hm'].
    { unfold r. rewrite rename_loop_length. by eapply lookup_lt_Some. }
    exists b, m, m'. split; [done|]. split; [done|]. split; [done|].
    split; [done|]. f_equal.
    destruct Hks as [Hs|(b' & ob & nb & Hb' & Hob & Hk & Hnb & <-)].
    + pose proof (rename_loop_names_seeded _ _ _ _ _ _ _ _ _ Hnd Hm Hm') as E.
      rewrite Hs in E. rewrite E.
      unfold m0 in Hs. destruct rio.
      * by rewrite lookup_empty in Hs.
      * destruct (decide ("output" = name m)) as [Eo|Hno].
        { rewrite <- Eo in Hs. rewrite lookup_insert_eq in Hs.
          injection Hs as <-. done. }
        rewrite lookup_insert_ne in Hs by done.
        destruct (decide ("input" = name m)) as [Ei|Hni].
        { rewrite <- Ei in Hs. rewrite lookup_insert_eq in Hs.
          injection Hs as <-. done. }
        rewrite lookup_insert_ne in Hs by done.
        by rewrite lookup_empty in Hs.
    + assert (b' = b) as -> by (by eapply (NoDup_fmap_lookup_inj name l)).
      unfold r in Hm'. rewrite Hnb in Hm'. by injection Hm' as <-.
Qed.

Lemma pretty_nat_nonempty_layer p i : layer_name p i ≠ "".
Proof.
  unfold layer_name. destruct p; [discriminate|discriminate].
Qed.

Lemma rename_inputs_compose (m1 m2 m3 : gmap string string) inps :
  (∀ k s, m1 !! k = Some s → s ≠ "" ∧ m2 !! s = m3 !! k) →
  (∀ k, m1 !! k = None → m3 !! k = None) →
  rename_inputs m2 (rename_inputs m1 inps) = rename_inputs m3 inps.
Proof.
  intros Hval Hnone. rewrite !rename_inputs_omap.
  induction inps as [|e inps IH]; [done|]. simpl.
  destruct e as [k|]; simpl; [|done].
  destruct (decide (k = "")) as [->|Hk]; [done|].
  destruct (m1 !! k) as [s|] eqn:E1; simpl.
  - destruct (Hval _ _ E1) as [Hs E23]. rewrite <- E23.
    destruct (decide (s = "")); [done|].
    destruct (m2 !! s); simpl; [f_equal|]; exact IH.
  - rewrite (Hnone _ E1). simpl. exact IH.
Qed.

Lemma rename_loop_compose p q aio len len' i m1 m2 m3 nodes :
  NoDup (name <$> nodes) →
  (∀ o, o ∈ nodes → m1 !! name o = None) →
  (∀ k s, m1 !! k = Some s → s ≠ "" ∧ m2 !! s = m3 !! k ∧ is_Some (m3 !! k)) →
  (∀ k, m1 !! k = None → m3 !! k = None) →
  (∀ j, (i ≤ j)%nat → m2 !! layer_name p j = None) →
  rename_loop q aio len i m2 (rename_loop p false len' i m1 nodes)
  = rename_loop q aio len i m3 nodes.
Proof.
  revert i m1 m2 m3. induction nodes as [|node rest IH];
    intros i m1 m2 m3 Hnd Hfresh Hval Hnone Hfut; [done|].
  apply NoDup_cons in Hnd as [Hnot Hnd].
  cbn [rename_loop]. rewrite (Hfresh node) by set_solver.
  cbn [rename_new_name rename_loop name set_inputs set_name].
  rewrite (Hfut i) by lia. rewrite (Hnone (name node)) by (apply Hfresh; set_solver).
  cbn [name set_name inputs set_inputs op scale].
  set (qn := rename_new_name q aio len i).
  assert (∀ k s, <[name node := layer_name p i]> m1 !! k = Some s →
            s ≠ "" ∧ <[layer_name p i := qn]> m2 !! s
                     = <[name node := qn]> m3 !! k
            ∧ is_Some (<[name node := qn]> m3 !! k)) as Hval'.
  { intros k s. destruct (decide (name node = k)) as [<-|Hne].
    - rewrite lookup_insert_eq. intros [= <-].
      split; [apply pretty_nat_nonempty_layer|].
      by rewrite !lookup_insert_eq.
    - rewrite lookup_insert_ne by done. intros Hs.
      destruct (Hval _ _ Hs) as (Hs1 & E & Hsome).
      split; [done|]. rewrite (lookup_insert_ne m3) by done.
      split; [|done]. rewrite lookup_insert_ne; [done|].
      intros <-. rewrite (Hfut i) in E by lia. rewrite <- E in Hsome.
      by destruct Hsome. }
  assert (∀ k, <[name node := layer_name p i]> m1 !! k = None →
            <[name node := qn]> m3 !! k = None) as Hnone'.
  { intros k. destruct (decide (name node = k)) as [<-|Hne].
    - by rewrite lookup_insert_eq.
    - rewrite !lookup_insert_ne by done. apply Hnone. }
  f_equal.
  - unfold set_inputs, set_name. cbn. f_equal.
    apply rename_inputs_compose; [|done].
    intros k s Hs. destruct (Hval' _ _ Hs) as (? & ? & ?). done.
  - apply IH; [done| |done|done|].
    + intros o Ho. rewrite lookup_insert_ne; [apply Hfresh; set_solver|].
      intros E. apply Hnot. rewrite E. by apply list_elem_of_fmap_2.
    + intros j Hj. rewrite lookup_insert_ne; [apply Hfut; lia|].
      intros E. apply layer_name_inj in E. lia.
Qed.

Lemma rename_twice l p q aio :
  NoDup (name <$> l) →
  rename_dag_node_list (rename_dag_node_list l p true false) q true aio
  = rename_dag_node_list l q true aio.
Proof.
  intros Hnd. unfold rename_dag_node_list. rewrite rename_loop_length.
  apply rename_loop_compose; [done|..].
  - intros; apply lookup_empty.
  - intros k s Hs. by rewrite lookup_empty in Hs.
  - intros; apply lookup_empty.
  - intros; apply lookup_empty.
Qed.

Ltac earlier_at k :=
  by (eexists _, k, _; split; [reflexivity|]; split; [lia|];
      split; reflexivity).

Lemma inputs_earlier_chain6 : inputs_earlier chain6.
Proof.
  intros i n inp Hi Hin.
  do 6 (destruct i as [|i];
    [injection Hi as <-; cbn in Hin;
     repeat (apply elem_of_cons in Hin as [->|Hin]);
     try (by apply elem_of_nil in Hin);
     first [ earlier_at 0%nat | earlier_at 1%nat | earlier_at 2%nat
           | earlier_at 3%nat | earlier_at 4%nat ]
    |]; cbn in Hi).
  done.
Qed.

(** X4: renaming neither adds nor drops a node, and it changes nothing of a
    node but its name and its inputs: the node at every position keeps its
    scale and its operator, and its list of inputs never grows. *)
Theorem rename_dag_node_list_keeps_nodes (node_list : list Node)
    (prefix : string) (rename_input_output add_input_output : bool) :
  length (rename_dag_node_list node_list prefix rename_input_output
            add_input_output) = length node_list
  ∧ ∀ j n,
      rename_dag_node_list node_list prefix rename_input_output
        add_input_output !! j = Some n →
      ∃ o, node_list !! j = Some o ∧ scale n = scale o ∧ op n = op o
           ∧ (length (inputs n) ≤ length (inputs o))%nat.
Proof.
  split; [apply rename_dag_node_list_length|].
  intros j n Hn. unfold rename_dag_node_list in Hn.
  destruct (rename_loop_lookup_orig _ _ _ _ _ _ _ _ Hn) as (o & Ho & Hs & Hop).
  exists o. repeat split; try done.
  by eapply rename_loop_inputs_length.
Qed.

(** X5: in a list whose node names are unique every node gets the name its
    position dictates: [prefix_layer_j] ([layer_j] for the empty prefix), or
    ['input'] / ['output'] at the two ends with [add_input_output] -- except
    that with [rename_input_output=False] a node named ['input'] or
    ['output'] keeps that name wherever it stands. *)
Theorem rename_dag_node_list_names (node_list : list Node) (prefix : string)
    (rename_input_output add_input_output : bool) (j : nat) (o n : Node) :
  NoDup (name <$> node_list) →
  node_list !! j = Some o →
  rename_dag_node_list node_list prefix rename_input_output add_input_output
    !! j = Some n →
  name n =
    if bool_decide (rename_input_output = false
                    ∧ (name o = "input" ∨ name o = "output"))
    then name o
    else if bool_decide (add_input_output = true ∧ j = 0%nat) then "input"
    else if bool_decide (add_input_output = true ∧ S j = length node_list)
         then "output"
    else (if decide (prefix = "") then "" else prefix +:+ "_")
           +:+ "layer_" +:+ pretty j.
Proof.
  intros Hnd Ho Hn. unfold rename_dag_node_list in Hn.
  rewrite (rename_loop_names_seeded _ _ _ _ _ _ _ _ _ Hnd Ho Hn).
  destruct rename_input_output.
  - rewrite lookup_empty. rewrite bool_decide_eq_false_2 by (by intros [? _]).
    unfold rename_new_name, layer_name. cbn [Nat.add].
    destruct add_input_output.
    + destruct (decide (j = 0%nat)) as [->|Hj0].
      * by rewrite bool_decide_eq_true_2.
      * rewrite (bool_decide_eq_false_2 (_ ∧ j = 0%nat)) by (by intros [_ ?]).
        destruct (decide (Z.of_nat j = Z.of_nat (length node_list) - 1))
          as [Hlast|Hnl].
        -- rewrite bool_decide_eq_true_2; [done|]. split; [done|lia].
        -- rewrite bool_decide_eq_false_2; [done|]. intros [_ ?]. lia.
    + by rewrite !bool_decide_eq_false_2 by (by intros [? _]).
  - destruct (decide (name o = "output")) as [Eo|Hno].
    { rewrite Eo, lookup_insert_eq. rewrite bool_decide_eq_true_2; [done|].
      split; [done|]. by right. }
    rewrite lookup_insert_ne by done.
    destruct (decide (name o = "input")) as [Ei|Hni].
    { rewrite Ei, lookup_insert_eq. rewrite bool_decide_eq_true_2; [done|].
      split; [done|]. by left. }
    rewrite lookup_insert_ne by done. rewrite lookup_empty.
    rewrite bool_decide_eq_false_2 by (intros [_ [?|?]]; done).
    unfold rename_new_name, layer_name. cbn [Nat.add].
    destruct add_input_output.
    + destruct (decide (j = 0%nat)) as [->|Hj0].
      * by rewrite bool_decide_eq_true_2.
      * rewrite (bool_decide_eq_false_2 (_ ∧ j = 0%nat)) by (by intros [_ ?]).
        destruct (decide (Z.of_nat j = Z.of_nat (length node_list) - 1))
          as [Hlast|Hnl].
        -- rewrite bool_decide_eq_true_2; [done|]. split; [done|lia].
        -- rewrite bool_decide_eq_false_2; [done|]. intros [_ ?]. lia.
    + by rewrite !bool_decide_eq_false_2 by (by intros [? _]).
Qed.

Lemma rename_dag_node_list_names_witness :
  name (MkNode "right_layer_4" (Some "conv") 1
          [Some "right_layer_3"; Some "right_layer_1"])
  = "right_layer_4".
Proof.
  apply (rename_dag_node_list_names chain6 "right" true false 4
           (MkNode "layer_3" (Some "conv") 1 [Some "layer_2"; Some "layer_0"])).
  - apply (bool_decide_unpack _). reflexivity.
  - reflexivity.
  - reflexivity.
Defined.



(** X7: renaming a list of uniquely named nodes a second time gives what
    renaming the original list with the second prefix gives; in particular
    renaming twice with the same prefix is renaming once. *)
Theorem rename_dag_node_list_twice (node_list : list Node)
    (prefix prefix' : string) (add_input_output : bool) :
  NoDup (name <$> node_list) →
  rename_dag_node_list
    (rename_dag_node_list node_list prefix true false)
    prefix' true add_input_output
  = rename_dag_node_list node_list prefix' true add_input_output.
Proof. apply rename_twice. Qed.

Lemma rename_dag_node_list_twice_witness :
  rename_dag_node_list (rename_dag_node_list chain6 "left" true false)
    "" true true
  = rename_dag_node_list chain6 "" true true.
Proof.
  apply (rename_dag_node_list_twice chain6 "left" "" true).
  apply (bool_decide_unpack _). reflexivity.
Defined.

(** X8: renaming a well-formed graph (unique non-empty names, every input the
    name of a strictly earlier node) loses no edge: the inputs of the node at
    each position are, one for one and in order, the new names of the nodes
    its inputs named before. *)
Theorem rename_dag_node_list_keeps_edges (node_list : list Node)
    (prefix : string) (rename_input_output add_input_output : bool)
    (j : nat) (o n : Node) :
  NoDup (name <$> node_list) → "" ∉ name <$> node_list →
  inputs_earlier node_list →
  node_list !! j = Some o →
  rename_dag_node_list node_list prefix rename_input_output add_input_output
    !! j = Some n →
  Forall2 (λ e e', ∃ b m m',
             (b < j)%nat ∧ node_list !! b = Some m ∧ e = Some (name m)
             ∧ rename_dag_node_list node_list prefix rename_input_output
                 add_input_output !! b = Some m'
             ∧ e' = Some (name m'))
    (inputs o) (inputs n).
Proof. apply rename_keeps_edges. Qed.

Lemma rename_dag_node_list_keeps_edges_witness :
  Forall2 (λ e e', ∃ b m m',
             (b < 4)%nat ∧ chain6 !! b = Some m ∧ e = Some (name m)
             ∧ rename_dag_node_list chain6 "left" true false !! b = Some m'
             ∧ e' = Some (name m'))
    [Some "layer_2"; Some "layer_0"]
    [Some "left_layer_3"; Some "left_layer_1"].
Proof.
  apply (rename_dag_node_list_keeps_edges chain6 "left" true false 4
           (MkNode "layer_3" (Some "conv") 1 [Some "layer_2"; Some "layer_0"])
           (MkNode "left_layer_4" (Some "conv") 1
              [Some "left_layer_3"; Some "left_layer_1"])).
  - apply (bool_decide_unpack _). reflexivity.
  - apply (bool_decide_unpack _). reflexivity.
  - apply inputs_earlier_chain6.
  - reflexivity.
  - reflexivity.
Defined.

(** ** [get_neighbors]: more properties *)

Lemma random_neighbor_inv (domain : list Z) (v : Z) s x s' :
  random_neighbor domain v s = (Ok x, s') → x ∈ domain.
Proof.
  unfold random_neighbor. intros Hrun.
  apply random_neighbor_sorted_inv in Hrun
    as (idx & off & a & _ & _ & _ & _ & Hx).
  rewrite <- (merge_sort_Permutation Z.le domain).
  by eapply list_elem_of_lookup_2.
Qed.

Lemma sample_loop_length {A} (k : nat) (pool : list A) s l s' :
  sample_loop k pool s = (Ok l, s') → length l = k.
Proof.
  revert pool s l s'. induction k as [|k IH]; intros pool s l s';
    cbn [sample_loop].
  { by intros [= <- _]. }
  intros (i & s1 & _ & Hrun)%bind_inv_ok.
  apply bind_inv_ok in Hrun as (x & s2 & _ & Hrun).
  apply bind_inv_ok in Hrun as (rest & s3 & Hrest & Hrun).
  injection Hrun as <- _. cbn. f_equal. by eapply IH.
Qed.

Lemma res_map_inv {A B} (f : A → result B) (l : list A) ys :
  res_map f l = Ok ys → Forall2 (λ x y, f x = Ok y) l ys.
Proof.
  revert ys. induction l as [|x l IH]; intros ys; cbn [res_map].
  { intros [= <-]. constructor. }
  destruct (f x) as [y|e] eqn:Ex; [|done]. cbn [res_bind].
  destruct (res_map f l) as [ys'|e]; [|done]. cbn [res_bind].
  intros [= <-]. constructor; [done|]. by apply IH.
Qed.

Section mutation_facts.
Context `{Compiler} (self : DiscreteSearchSpaceSegmentation).

(** What the rewiring of lines 228-239 does to the chosen node. *)
Lemma rewire_inv graph edges chosen node s node' s' :
  rewire graph edges chosen node s = (Ok node', s') →
  name node' = name node ∧ op node' = op node ∧ scale node' = scale node
  ∧ ((name node = "input" ∧ inputs node' = inputs node)
     ∨ ∃ added,
         inputs node'
         = filter (λ inp, (out_degree edges inp ≤ 1)%nat) (inputs node)
             ++ added
         ∧ (length added ≤ 3)%nat
         ∧ ∀ e, e ∈ added →
             ∃ idx nd, 0 ≤ idx < chosen ∧ graph !! Z.to_nat idx = Some nd
                       ∧ e = Some (name nd)).
Proof.
  unfold rewire. destruct (decide (name node ≠ "input")) as [Hni|Hi].
  2:{ intros [= <- _]. repeat split; try done. left. split; [|done].
      by destruct (decide (name node = "input")). }
  intros (r & s1 & Hr & Hrun)%bind_inv_ok.
  apply randint_inv in Hr as [Hr _].
  apply bind_inv_ok in Hrun as (idxs & s2 & Hidxs & Hrun).
  apply bind_inv_ok in Hrun as (names & s3 & Hnames & Hrun).
  injection Hrun as <- _. repeat split; try done. right.
  eexists. split; [reflexivity|].
  unfold lift in Hnames. injection Hnames as Hnames _.
  apply res_map_inv in Hnames.
  assert (length idxs ≤ 3)%nat as Hlen.
  { unfold random_sample_k in Hidxs. destruct (decide _); [|done].
    apply sample_loop_length in Hidxs. lia. }
  split.
  - etransitivity; [apply length_filter|].
    by rewrite <- (Forall2_length _ _ _ Hnames).
  - intros e He. apply list_elem_of_filter in He as [_ He].
    apply list_elem_of_lookup in He as [t Ht].
    destruct (Forall2_lookup_r _ _ _ _ _ Hnames Ht) as (idx & Hidx & Hf).
    assert (idx ∈ seqZ 0 chosen) as Hin.
    { eapply random_sample_k_elem; [exact Hidxs|].
      by eapply list_elem_of_lookup_2. }
    apply elem_of_seqZ in Hin.
    destruct (py_index graph idx) as [nd|] eqn:End; [|done].
    cbn in Hf. injection Hf as <-.
    exists idx, nd. split; [lia|]. split; [|done].
    apply py_index_nonneg_inv in End; [done|lia].
Qed.

Lemma mutate_candidate_inv base_model s g cfg pul s' :
  mutate_candidate self base_model s = (Ok (g, cfg, pul), s') →
  let graph := graph_values (arch base_model) in
  sanity_ok graph
  ∧ base_channels cfg ∈ base_channels_list self
  ∧ delta_channels cfg ∈ delta_channels_list self
  ∧ mult_delta cfg = mult_delta (channels_per_scale (arch base_model))
  ∧ pul ∈ post_upsample_layers_list self
  ∧ ∃ (c : nat) (old new : Node),
      (1 ≤ c)%nat ∧ graph !! c = Some old ∧ g = <[c := new]> graph
      ∧ name new = name old ∧ scale new = scale old
      ∧ (name old = "output" → op new = op old)
      ∧ (name old ≠ "output" → ∃ o, o ∈ operations self ∧ op new = Some o)
      ∧ ((name old = "input" ∧ inputs new = inputs old)
         ∨ ∃ added,
             inputs new
             = filter (λ inp, (out_degree (edge_dict_keys (arch base_model))
                                 inp ≤ 1)%nat) (inputs old) ++ added
             ∧ (length added ≤ 3)%nat
             ∧ ∀ e, e ∈ added →
                 ∃ idx nd, (idx < c)%nat ∧ graph !! idx = Some nd
                           ∧ e = Some (name nd)).
Proof.
  intros Hrun graph.
  assert (sanity_ok graph) as Hsane.
  { destruct (decide ((1 < length graph)%nat
                       ∧ name <$> last graph = Some "output"
                       ∧ name <$> head graph = Some "input")) as [Hs|Hs];
      [done|].
    rewrite (mutate_candidate_asserts self base_model s Hs) in Hrun. done. }
  split; [done|].
  unfold mutate_candidate in Hrun. fold graph in Hrun.
  apply bind_inv_ok in Hrun as ([] & s0 & _ & Hrun).
  apply bind_inv_ok in Hrun as (lst & s0' & _ & Hrun).
  apply bind_inv_ok in Hrun as ([] & s0'' & _ & Hrun).
  apply bind_inv_ok in Hrun as (fst & s0''' & _ & Hrun).
  apply bind_inv_ok in Hrun as ([] & s0'''' & _ & Hrun).
  apply bind_inv_ok in Hrun as (bc & s1 & Hbc & Hrun).
  apply bind_inv_ok in Hrun as (dc & s2 & Hdc & Hrun).
  apply bind_inv_ok in Hrun as (pul1 & s3 & Hpul & Hrun).
  apply bind_inv_ok in Hrun as (chosen & s4 & Hchosen & Hrun).
  apply bind_inv_ok in Hrun as (node & s5 & Hnode & Hrun).
  apply bind_inv_ok in Hrun as (node1 & s6 & Hnode1 & Hrun).
  apply bind_inv_ok in Hrun as (node2 & s7 & Hnode2 & Hrun).
  injection Hrun as <- <- <- _. cbn [base_channels delta_channels mult_delta].
  apply random_neighbor_inv in Hbc, Hdc, Hpul.
  apply randint_inv in Hchosen as [Hchosen _].
  unfold lift in Hnode. injection Hnode as Hnode _.
  apply py_index_nonneg_inv in Hnode; [|lia].
  repeat (split; [done|]).
  exists (Z.to_nat chosen), node, node2.
  split; [lia|]. split; [done|]. split; [done|].
  apply rewire_inv in Hnode2 as (Hn2 & Ho2 & Hs2 & Hin2).
  assert (name node1 = name node ∧ scale node1 = scale node
          ∧ inputs node1 = inputs node
          ∧ (name node = "output" → op node1 = op node)
          ∧ (name node ≠ "output" →
             ∃ o, o ∈ operations self ∧ op node1 = Some o))
    as (Hn1 & Hs1 & Hi1 & Ho1 & Ho1').
  { destruct (decide (name node ≠ "output")) as [Hno|Hout].
    - apply bind_inv_ok in Hnode1 as (o & so & Ho & Hret).
      injection Hret as <- _. apply random_choice_inv in Ho.
      repeat split; try done. intros _. by exists o.
    - injection Hnode1 as <- _. repeat split; done. }
  split; [congruence|]. split; [congruence|].
  split; [intros Ho; rewrite Ho2; by apply Ho1|].
  split; [intros Ho; rewrite Ho2; by apply Ho1'|].
  rewrite Hn1, Hi1 in Hin2.
  destruct Hin2 as [Hin2|(added & Hadd & Hlen & Hfrom)]; [by left|].
  right. exists added. split; [done|]. split; [done|].
  intros e He. destruct (Hfrom e He) as (idx & nd & Hidx & Hnd & ->).
  exists (Z.to_nat idx), nd. split; [lia|done].
Qed.
End mutation_facts.

Section neighbor_result.
Context `{Compiler} (self : DiscreteSearchSpaceSegmentation).
Context (base_model : ArchWithMetaData) (parent_id : MetaVal).

Lemma compile_candidate_inv st cand s st' s' :
  compile_candidate self base_model parent_id st cand s = (Ok st', s') →
  neighbors st' = neighbors st
  ∨ ∃ a, neighbors st' = neighbors st ++ [a]
         ∧ min_mac self < MAdd (arch a) < max_mac self
         ∧ validate_forward (arch a)
           = Ok [1; 19; model_img_size (arch a); model_img_size (arch a)]
         ∧ metadata a
           = <["macs" := MInt (MAdd (arch a))]>
               (<["parent" := parent_id]>
                  (<["archid" := MStr (to_hash (arch a))]>
                     (<["datasetname" := MStr (datasetname self)]> ∅)))
         ∧ new_model cand.1.1 cand.1.2 cand.2 (img_size self) = Ok (arch a).
Proof.
  unfold compile_candidate.
  destruct (new_model _ _ _ _) as [m|e] eqn:Em.
  2:{ intros Hf. apply neighbor_failed_nb_tries in Hf as ->. by left. }
  destruct (validate_forward m) as [sh|e] eqn:Ev.
  2:{ intros Hf. apply neighbor_failed_nb_tries in Hf as ->. by left. }
  destruct (decide _) as [Hsh|Hsh].
  2:{ intros Hf. apply neighbor_failed_nb_tries in Hf as ->. by left. }
  destruct (within_mac_bounds self (MAdd m)) eqn:Eb.
  - intros [= <- _]. right. eexists. split; [reflexivity|].
    cbn [arch metadata]. apply within_mac_bounds_spec in Eb.
    split; [done|]. split; [by rewrite Ev, Hsh|]. done.
  - intros [= <- _]. by left.
Qed.

Lemma get_neighbors_body_inv st s st' s' :
  neighbors st = [] →
  get_neighbors_body self base_model parent_id st s = (Ok st', s') →
  neighbors st' = [] ∨ ∃ a, neighbors st' = [a] ∧ accepted_neighbor self base_model parent_id a.
Proof.
  intros Hnil. unfold get_neighbors_body.
  intros (cand & s1 & Hcand & Hc)%bind_inv_ok.
  apply compile_candidate_inv in Hc
    as [Hc|(a & Hc & Hb & Hv & Hm & Hnew)]; cbn [neighbors] in Hc;
    rewrite Hnil in Hc; [by left|].
  right. exists a. split; [done|]. repeat split; try done; try apply Hb.
  by exists cand, s, s1.
Qed.

Lemma get_neighbors_loop_inv fuel patience st s st' s' :
  neighbors st = [] ∨ (∃ a, neighbors st = [a] ∧ accepted_neighbor self base_model parent_id a) →
  get_neighbors_loop self fuel base_model parent_id patience st s
    = (Ok st', s') →
  neighbors st' = [] ∨ ∃ a, neighbors st' = [a] ∧ accepted_neighbor self base_model parent_id a.
Proof.
  revert st s. induction fuel as [|fuel IH]; intros st s Hst;
    cbn [get_neighbors_loop].
  { by intros [= <- _]. }
  destruct (bool_decide_reflect (nb_tries st < patience)) as [Hlt|Hge]; cbn.
  2:{ by intros [= <- _]. }
  destruct (bool_decide_reflect (length (neighbors st) = 0%nat)) as [Hn|Hn].
  2:{ by intros [= <- _]. }
  intros (st1 & s1 & Hb & Hl)%bind_inv_ok.
  eapply IH; [|exact Hl].
  eapply get_neighbors_body_inv; [|exact Hb].
  by apply nil_length_inv.
Qed.
End neighbor_result.

Section neighbor_theorems.
Context `{Compiler} (self : DiscreteSearchSpaceSegmentation).
Context (base_model : ArchWithMetaData).

Lemma get_neighbors_inv patience s l s' :
  get_neighbors self base_model patience s = (Ok l, s') →
  ∃ parent_id, metadata base_model !! "archid" = Some parent_id
    ∧ (l = [] ∨ ∃ a, l = [a] ∧ accepted_neighbor self base_model parent_id a).
Proof.
  unfold get_neighbors. intros (st & s1 & Hrun & Hret)%bind_inv_ok.
  injection Hret as <- _. unfold get_neighbors_run in Hrun.
  apply bind_inv_ok in Hrun as (pid & s0 & Hpid & Hloop).
  unfold lift, meta_get in Hpid.
  destruct (metadata base_model !! "archid") as [p|] eqn:Ep; [|done].
  injection Hpid as <- _. exists p. split; [done|].
  eapply get_neighbors_loop_inv; [|exact Hloop]. by left.
Qed.

Lemma get_neighbors_first_attempt patience s :
  is_Some (metadata base_model !! "archid") →
  space_ok self → sanity_ok (graph_values (arch base_model)) →
  1 ≤ patience →
  (∀ g c p i, ∃ m, new_model g c p i = Ok m) →
  (∀ m, validate_forward m = Ok [1; 19; model_img_size m; model_img_size m]) →
  (∀ m, min_mac self < MAdd m < max_mac self) →
  ∃ a s', get_neighbors self base_model patience s = (Ok [a], s')
          ∧ log s' = log s.
Proof.
  intros [pid Hid] Hspace Hsane Hpat Hnew Hval Hmac.
  destruct (mutate_candidate_ok self base_model s Hspace Hsane)
    as (cand & s1 & Hcand & Hlog).
  destruct (Hnew cand.1.1 cand.1.2 cand.2 (img_size self)) as [m Hm].
  assert (within_mac_bounds self (MAdd m) = true) as Eb
    by apply within_mac_bounds_spec, Hmac.
  set (a := MkArch _ m
              (<["macs" := MInt (MAdd m)]>
                 (<["parent" := pid]>
                    (<["archid" := MStr (to_hash m)]>
                       (<["datasetname" := MStr (datasetname self)]> ∅))))).
  assert (get_neighbors_run self base_model patience s
          = (Ok (MkNbrState [a] 1 (Some m)), s1)) as Hrun.
  { rewrite (get_neighbors_run_unfold _ _ _ _ _ Hid).
    destruct (Z.to_nat patience) as [|fuel] eqn:Efuel; [lia|].
    cbn [get_neighbors_loop nb_tries neighbors length].
    rewrite !bool_decide_eq_true_2 by (done || lia). cbn [andb].
    rewrite (bind_ok _ _ s (MkNbrState [a] 1 (Some m)) s1).
    - destruct fuel as [|fuel]; cbn [get_neighbors_loop]; [done|].
      by destruct (bool_decide _).
    - unfold get_neighbors_body. rewrite (bind_ok _ _ _ _ _ Hcand).
      unfold compile_candidate. rewrite Hm, Hval.
      rewrite decide_True by done. rewrite Eb. reflexivity. }
  exists a, s1. split; [|done].
  unfold get_neighbors. by rewrite (bind_ok _ _ _ _ _ Hrun).
Qed.
End neighbor_theorems.

Lemma mutation_keeps_invariant `{Compiler}
    (self : DiscreteSearchSpaceSegmentation) base_model s cand s' :
  mutate_candidate self base_model s = (Ok cand, s') →
  inputs_earlier (graph_values (arch base_model)) →
  graph_invariant cand.1.1
  ∧ name <$> cand.1.1 = name <$> graph_values (arch base_model)
  ∧ scale <$> cand.1.1 = scale <$> graph_values (arch base_model).
Proof.
  destruct cand as [[g cfg] pul]. intros Hrun Hearlier. cbn [fst snd].
  apply mutate_candidate_inv in Hrun
    as ((Hlen & Hlast & Hhead) & _ & _ & _ & _
        & c & old & new & Hc & Hold & -> & Hname & Hscale & _ & _ & Hinp).
  set (graph := graph_values (arch base_model)) in *.
  assert (name <$> <[c := new]> graph = name <$> graph) as Hnames.
  { rewrite list_fmap_insert, Hname.
    apply list_insert_id. by rewrite list_lookup_fmap, Hold. }
  assert (scale <$> <[c := new]> graph = scale <$> graph) as Hscales.
  { rewrite list_fmap_insert, Hscale.
    apply list_insert_id. by rewrite list_lookup_fmap, Hold. }
  split; [|done].
  assert (∀ j m, graph !! j = Some m →
            ∃ m', <[c := new]> graph !! j = Some m' ∧ name m' = name m)
    as Hkeep.
  { intros j m Hm. destruct (decide (c = j)) as [->|Hne].
    - exists new. rewrite list_lookup_insert_eq by (by eapply lookup_lt_Some).
      split; [done|]. congruence.
    - exists m. by rewrite list_lookup_insert_ne. }
  split; [|split].
  - rewrite head_lookup, <- list_lookup_fmap, Hnames, list_lookup_fmap,
      <- head_lookup. done.
  - rewrite <- fmap_last, Hnames, fmap_last. done.
  - intros i n inp Hn Hin.
    assert (∃ s0 j m, inp = Some s0 ∧ (j < i)%nat ∧ graph !! j = Some m
                        ∧ name m = s0) as (s0 & j & m & -> & Hj & Hm & <-).
    { destruct (decide (c = i)) as [->|Hne].
      - rewrite list_lookup_insert_eq in Hn by (by eapply lookup_lt_Some).
        injection Hn as <-.
        destruct Hinp as [[_ Hsame]|(added & Hadd & _ & Hfrom)].
        + rewrite Hsame in Hin. by eapply Hearlier.
        + rewrite Hadd in Hin. apply elem_of_app in Hin as [Hin|Hin].
          * apply list_elem_of_filter in Hin as [_ Hin]. by eapply Hearlier.
          * destruct (Hfrom _ Hin) as (idx & nd & Hidx & Hnd & ->).
            by exists (name nd), idx, nd.
      - rewrite list_lookup_insert_ne in Hn by done. by eapply Hearlier. }
    destruct (Hkeep _ _ Hm) as (m' & Hm' & Hnm).
    by exists (name m), j, m'.
Qed.

(** X9: [get_neighbors] returns at most one neighbour.  The neighbour it
    returns was built from a mutated copy of the base graph, has passed the
    shape validation, has a measured cost strictly between [min_mac] and
    [max_mac], and carries the metadata [datasetname], [archid] (its hash),
    [parent] (the ['archid'] of the base model) and [macs]. *)
Theorem get_neighbors_at_most_one `{Compiler}
    (self : DiscreteSearchSpaceSegmentation) (base_model : ArchWithMetaData)
    (patience : Z) (s s' : Env) (l : list ArchWithMetaData) :
  get_neighbors self base_model patience s = (Ok l, s') →
  ∃ parent_id, metadata base_model !! "archid" = Some parent_id
    ∧ (l = [] ∨ ∃ a, l = [a] ∧ accepted_neighbor self base_model parent_id a).
Proof. apply get_neighbors_inv. Qed.

Lemma get_neighbors_at_most_one_witness :
  ∃ parent_id,
    metadata (stub_arch (H := stub_compiler true true 10)
                (stub_model chain6) "base") !! "archid" = Some parent_id
    ∧ ([chain6_neighbor] = []
       ∨ ∃ a, [chain6_neighbor] = [a]
              ∧ accepted_neighbor (example_space ["scale"; "op"] 0 100)
                  (stub_arch (H := stub_compiler true true 10)
                     (stub_model chain6) "base") parent_id a).
Proof.
  apply (get_neighbors_at_most_one (H := stub_compiler true true 10)
           (example_space ["scale"; "op"] 0 100)
           (stub_arch (H := stub_compiler true true 10)
              (stub_model chain6) "base")
           5 (env0 [1; 2; 0; 2; 1; 1; 0; 1]%nat) (env0 [])).
  vm_compute. reflexivity.
Defined.

(** X10: [get_neighbors] reads [base_model.metadata['archid']] before
    anything else: without that key it raises [KeyError] whatever the
    patience and the graph, having drawn and logged nothing. *)
Theorem get_neighbors_missing_archid `{Compiler}
    (self : DiscreteSearchSpaceSegmentation) (base_model : ArchWithMetaData)
    (patience : Z) (s : Env) :
  metadata base_model !! "archid" = None →
  get_neighbors self base_model patience s = (Raise KeyError, s).
Proof.
  intros Hid. unfold get_neighbors, get_neighbors_run, meta_get.
  rewrite Hid. reflexivity.
Qed.

Lemma get_neighbors_missing_archid_witness :
  get_neighbors (H := stub_compiler true true 10)
    (example_space ["scale"; "op"] 0 100)
    (MkArch (stub_compiler true true 10) (stub_model headless) ∅)
    0 (env0 [3; 1]%nat)
  = (Raise KeyError, env0 [3; 1]%nat).
Proof.
  apply (get_neighbors_missing_archid (H := stub_compiler true true 10)).
  reflexivity.
Defined.

(** X11: the mutation of lines 191-239 changes exactly one node of the copy,
    never the first: the node keeps its name and scale, gets an operator of
    the search space unless it is the ['output'] node, and at most three
    inputs more than it had; the channel counts and the post-upsample count
    are taken from the search space's domains and [mult_delta] from the base
    model. *)
Theorem get_neighbors_mutation_touches_one_node `{Compiler}
    (self : DiscreteSearchSpaceSegmentation) (base_model : ArchWithMetaData)
    (s s' : Env) (cand : list Node * ChannelCfg * Z) :
  mutate_candidate self base_model s = (Ok cand, s') →
  base_channels cand.1.2 ∈ base_channels_list self
  ∧ delta_channels cand.1.2 ∈ delta_channels_list self
  ∧ mult_delta cand.1.2 = mult_delta (channels_per_scale (arch base_model))
  ∧ cand.2 ∈ post_upsample_layers_list self
  ∧ ∃ (c : nat) (old new : Node),
      (1 ≤ c)%nat ∧ graph_values (arch base_model) !! c = Some old
      ∧ cand.1.1 = <[c := new]> (graph_values (arch base_model))
      ∧ name new = name old ∧ scale new = scale old
      ∧ (name old = "output" → op new = op old)
      ∧ (name old ≠ "output" → ∃ o, o ∈ operations self ∧ op new = Some o)
      ∧ (length (inputs new) ≤ length (inputs old) + 3)%nat.
Proof.
  destruct cand as [[g cfg] pul]. intros Hrun. cbn [fst snd].
  apply mutate_candidate_inv in Hrun
    as (_ & Hbc & Hdc & Hmd & Hpul
        & c & old & new & Hc & Hold & -> & Hname & Hscale & Hop & Hop' & Hinp).
  repeat (split; [done|]).
  exists c, old, new. repeat (split; [done|]).
  destruct Hinp as [[_ ->]|(added & -> & Hlen & _)]; [lia|].
  rewrite length_app.
  pose proof (length_filter
    (λ inp, (out_degree (edge_dict_keys (arch base_model)) inp ≤ 1)%nat)
    (inputs old)). lia.
Qed.

Lemma get_neighbors_mutation_touches_one_node_witness :
  16 ∈ [8; 16; 24; 32; 40; 48] ∧ 8 ∈ [8; 16; 24; 32; 40; 48]
  ∧ false = false ∧ 1 ∈ [1; 2; 3]
  ∧ ∃ (c : nat) (old new : Node),
      (1 ≤ c)%nat ∧ chain6 !! c = Some old
      ∧ mutated_chain6 = <[c := new]> chain6
      ∧ name new = name old ∧ scale new = scale old
      ∧ (name old = "output" → op new = op old)
      ∧ (name old ≠ "output" → ∃ o, o ∈ ["conv"; "pool"] ∧ op new = Some o)
      ∧ (length (inputs new) ≤ length (inputs old) + 3)%nat.
Proof.
  apply (get_neighbors_mutation_touches_one_node
           (H := stub_compiler true true 10)
           (example_space ["scale"; "op"] 0 100)
           (stub_arch (H := stub_compiler true true 10)
              (stub_model chain6) "base")
           (env0 [1; 2; 0; 2; 1; 1; 0; 1]%nat) (env0 [])
           (mutated_chain6, MkChannelCfg 16 8 false, 1)).
  vm_compute. reflexivity.
Defined.

(** X12: a base graph whose inputs all name strictly earlier nodes stays
    that way under the mutation: the graph handed to the compiler satisfies
    the graph invariant (first node ['input'], last node ['output'], inputs
    at strictly earlier positions), with the names and scales of the base
    graph. *)
Theorem get_neighbors_mutation_keeps_invariant `{Compiler}
    (self : DiscreteSearchSpaceSegmentation) (base_model : ArchWithMetaData)
    (s s' : Env) (cand : list Node * ChannelCfg * Z) :
  mutate_candidate self base_model s = (Ok cand, s') →
  inputs_earlier (graph_values (arch base_model)) →
  graph_invariant cand.1.1
  ∧ name <$> cand.1.1 = name <$> graph_values (arch base_model)
  ∧ scale <$> cand.1.1 = scale <$> graph_values (arch base_model).
Proof. apply mutation_keeps_invariant. Qed.

Lemma get_neighbors_mutation_keeps_invariant_witness :
  graph_invariant mutated_chain6
  ∧ name <$> mutated_chain6 = name <$> chain6
  ∧ scale <$> mutated_chain6 = scale <$> chain6.
Proof.
  apply (get_neighbors_mutation_keeps_invariant
           (H := stub_compiler true true 10)
           (example_space ["scale"; "op"] 0 100)
           (stub_arch (H := stub_compiler true true 10)
              (stub_model chain6) "base")
           (env0 [1; 2; 0; 2; 1; 1; 0; 1]%nat) (env0 [])
           (mutated_chain6, MkChannelCfg 16 8 false, 1)).
  - vm_compute. reflexivity.
  - apply inputs_earlier_chain6.
Defined.

(** X13: when no integer lies strictly between [min_mac] and [max_mac]
    (as with [min_mac = max_mac], which [__init__] accepts) the search space
    yields nothing: the loop of [random_sample] never ends with an
    architecture, however long it runs, and [get_neighbors] returns the empty
    list whenever it returns. *)
Theorem empty_mac_window_yields_nothing `{Compiler}
    (self : DiscreteSearchSpaceSegmentation) :
  max_mac self ≤ min_mac self + 1 →
  (∀ fuel s a s', random_sample self fuel s ≠ (Ok (Some a), s'))
  ∧ (∀ base_model patience s l s',
       get_neighbors self base_model patience s = (Ok l, s') → l = []).
Proof.
  intros Hwin. split.
  - intros fuel s a s' Hrun.
    apply random_sample_accepted in Hrun as [Hb _]. lia.
  - intros base_model patience s l s' Hrun.
    apply get_neighbors_inv in Hrun
      as (pid & _ & [->|(a & _ & Hb & _)]); [done|lia].
Qed.

Lemma empty_mac_window_yields_nothing_witness :
  (∀ fuel s a s',
     random_sample (H := stub_compiler true true 10)
       (example_space ["scale"; "op"] 10 10) fuel s ≠ (Ok (Some a), s'))
  ∧ (∀ base_model patience s l s',
       get_neighbors (H := stub_compiler true true 10)
         (example_space ["scale"; "op"] 10 10) base_model patience s
       = (Ok l, s') → l = []).
Proof.
  apply (empty_mac_window_yields_nothing (H := stub_compiler true true 10)
           (example_space ["scale"; "op"] 10 10)).
  simpl. lia.
Defined.

(** X14: when the compiler accepts every candidate, the shape validation
    passes and every cost lies within the bounds, the first attempt
    succeeds: for a base model with an ['archid'] and a graph that passes
    the sanity check, [get_neighbors] with a patience of at least one
    returns exactly one neighbour and logs nothing. *)
Theorem get_neighbors_first_attempt_succeeds `{Compiler}
    (self : DiscreteSearchSpaceSegmentation) (base_model : ArchWithMetaData)
    (patience : Z) (s : Env) :
  is_Some (metadata base_model !! "archid") →
  space_ok self → sanity_ok (graph_values (arch base_model)) →
  1 ≤ patience →
  (∀ g c p i, ∃ m, new_model g c p i = Ok m) →
  (∀ m, validate_forward m = Ok [1; 19; model_img_size m; model_img_size m]) →
  (∀ m, min_mac self < MAdd m < max_mac self) →
  ∃ a s', get_neighbors self base_model patience s = (Ok [a], s')
          ∧ log s' = log s.
Proof. apply get_neighbors_first_attempt. Qed.

Lemma get_neighbors_first_attempt_succeeds_witness :
  ∃ a s',
    get_neighbors (H := stub_compiler true true 10)
      (example_space ["scale"; "op"] 0 100)
      (stub_arch (H := stub_compiler true true 10) (stub_model chain6) "base")
      5 (env0 [1; 2; 0; 2; 1; 1; 0; 1]%nat) = (Ok [a], s')
    ∧ log s' = log (env0 [1; 2; 0; 2; 1; 1; 0; 1]%nat).
Proof.
  apply (get_neighbors_first_attempt_succeeds
           (H := stub_compiler true true 10)).
  - by eexists.
  - apply space_ok_example.
  - apply sanity_ok_chain6.
  - lia.
  - intros g c p i. by eexists.
  - intros m. reflexivity.
  - intros m. simpl. lia.
Defined.

(** ** [get_arch_repr]: more properties *)














(** [torch.cat] along axis 1 of tensors of [n] rows each. *)
Lemma torch_cat_fold (ts : list (list (list Q))) (a : list (list Q))
    (n : nat) :
  length a = n → Forall (λ t, length t = n) ts →
  ∃ x,
    foldl (λ acc t',
             res_bind acc (λ a,
               if decide (length a = length t')
               then Ok (zip_with app a t')
               else Raise RuntimeError)) (Ok a) ts = Ok x
    ∧ length x = n
    ∧ ∀ i r, a !! i = Some r →
        x !! i
        = Some (r ++ concat ((λ t : list (list Q), default [] (t !! i))
                               <$> ts)).
Proof.
  intros Hlen Hall. revert a Hlen.
  induction Hall as [|t ts Ht _ IH]; intros a Hlen.
  - exists a. split; [done|]. split; [done|]. intros i r Hr. cbn.
    by rewrite app_nil_r.
  - cbn [foldl res_bind].
    rewrite decide_True by lia.
    destruct (IH (zip_with app a t)) as (x & Ex & Hx & Hrows).
    { rewrite length_zip_with. lia. }
    exists x. split; [done|]. split; [done|].
    intros i r Hr.
    destruct (lookup_lt_is_Some_2 t i) as [rt Hrt].
    { apply lookup_lt_Some in Hr. lia. }
    rewrite (Hrows i (r ++ rt)).
    + rewrite fmap_cons. cbn [concat]. cbn beta. f_equal.
      rewrite <- app_assoc. do 2 f_equal.
      exact (eq_sym (f_equal (default []) Hrt)).
    + rewrite lookup_zip_with, Hr. cbn. by rewrite Hrt.
Qed.

Lemma filter_nonempty_id (ts : list Tensor) (n : nat) :
  n ≠ 0%nat → Forall (λ t, length t = n) ts →
  filter (λ t : Tensor, t ≠ []) ts = ts.
Proof.
  intros Hn Hall. induction Hall as [|t ts Ht _ IH]; [done|].
  rewrite filter_cons, decide_True, IH; [done|].
  intros ->. cbn in Ht. lia.
Qed.

Lemma torch_cat_axis1_rows (ts : list (list (list Q))) (n : nat) :
  ts ≠ [] → n ≠ 0%nat → Forall (λ t, length t = n) ts →
  ∃ x, torch_cat_axis1 ts = Ok x ∧ length x = n
    ∧ ∀ i, (i < n)%nat →
        x !! i
        = Some (concat ((λ t : list (list Q), default [] (t !! i)) <$> ts)).
Proof.
  intros Hne Hn Hall. unfold torch_cat_axis1.
  rewrite (filter_nonempty_id ts n Hn Hall).
  destruct ts as [|t ts]; [done|].
  apply Forall_cons in Hall as [Ht Hall].
  destruct (torch_cat_fold ts t n Ht Hall) as (x & Ex & Hx & Hrows).
  exists x. split; [done|]. split; [done|].
  intros i Hi. destruct (lookup_lt_is_Some_2 t i) as [r Hr]; [lia|].
  etransitivity; [exact (Hrows i r Hr)|].
  rewrite fmap_cons. cbn [concat]. cbn beta.
  do 2 f_equal. exact (eq_sym (f_equal (default []) Hr)).
Qed.


Section arch_repr_facts.
Context `{Compiler} (self : DiscreteSearchSpaceSegmentation).

Lemma default_lookup_fmap {A B} (f : A → list B) (l : list A) i a :
  l !! i = Some a → default [] ((f <$> l) !! i) = f a.
Proof. intros Ha. by rewrite list_lookup_fmap, Ha. Qed.

Lemma default_lookup_fmap2 {A B C} (g : B → list C) (h : A → B)
    (l : list A) i a :
  l !! i = Some a → default [] ((g <$> (h <$> l)) !! i) = g (h a).
Proof. intros Ha. by rewrite !list_lookup_fmap, Ha. Qed.

Lemma arch_features_rows graph ch_map :
  graph ≠ [] →
  "scale" ∈ encoder_features self ∨ "op" ∈ encoder_features self
    ∨ "channels" ∈ encoder_features self →
  ∃ x, arch_features self graph ch_map = Ok x
    ∧ length x = length graph
    ∧ ∀ i n, graph !! i = Some n →
        x !! i
        = Some ((if decide ("scale" ∈ encoder_features self)
                 then (λ b : bool, if b then 1%Q else 0%Q)
                        <$> onehot (scale n) [1; 2; 4; 8; 16]
                 else [])
                ++ (if decide ("op" ∈ encoder_features self)
                    then (λ b : bool, if b then 1%Q else 0%Q)
                           <$> onehot (op n) (Some <$> operations self)
                    else [])
                ++ (if decide ("channels" ∈ encoder_features self)
                    then [float32_div64 (base_channels ch_map);
                          float32_div64 (delta_channels ch_map)]
                    else [])).
Proof.
  intros Hne Hfeat. unfold arch_features.
  assert (length graph ≠ 0%nat) as Hlen by (by destruct graph).
  set (t1 := tensor_of_bools
               ((λ n, onehot (scale n) [1; 2; 4; 8; 16]) <$> graph)).
  set (t2 := tensor_of_bools
               ((λ n, onehot (op n) (Some <$> operations self)) <$> graph)).
  set (t3 := fmap (M:=list)
               (λ _ : Node, [float32_div64 (base_channels ch_map);
                             float32_div64 (delta_channels ch_map)]) graph).
  assert (length t1 = length graph) as H1
    by (unfold t1, tensor_of_bools; by rewrite !length_fmap).
  assert (length t2 = length graph) as H2
    by (unfold t2, tensor_of_bools; by rewrite !length_fmap).
  assert (length t3 = length graph) as H3
    by (unfold t3; by rewrite !length_fmap).
  assert (∀ i n, graph !! i = Some n →
            default [] (t1 !! i)
            = (λ b : bool, if b then 1%Q else 0%Q)
                <$> onehot (scale n) [1; 2; 4; 8; 16]) as R1.
  { intros i n Hn.
    exact (default_lookup_fmap2
             (fmap (λ b : bool, if b then 1%Q else 0%Q))
             (λ n, onehot (scale n) [1; 2; 4; 8; 16]) graph i n Hn). }
  assert (∀ i n, graph !! i = Some n →
            default [] (t2 !! i)
            = (λ b : bool, if b then 1%Q else 0%Q)
                <$> onehot (op n) (Some <$> operations self)) as R2.
  { intros i n Hn.
    exact (default_lookup_fmap2
             (fmap (λ b : bool, if b then 1%Q else 0%Q))
             (λ n, onehot (op n) (Some <$> operations self)) graph i n Hn). }
  assert (∀ i n, graph !! i = Some n →
            default [] (t3 !! i)
            = [float32_div64 (base_channels ch_map);
               float32_div64 (delta_channels ch_map)]) as R3.
  { intros i n Hn.
    exact (default_lookup_fmap
             (λ _ : Node, [float32_div64 (base_channels ch_map);
                           float32_div64 (delta_channels ch_map)])
             graph i n Hn). }
  assert (∀ ts : list (list (list Q)),
            ts ≠ [] → Forall (λ t, length t = length graph) ts →
            ∃ x, torch_cat_axis1 ts = Ok x ∧ length x = length graph
              ∧ ∀ i n, graph !! i = Some n →
                  x !! i
                  = Some (concat ((λ t : list (list Q), default [] (t !! i))
                                    <$> ts))) as Hcat.
  { intros ts Hts Hall.
    destruct (torch_cat_axis1_rows ts (length graph) Hts Hlen Hall)
      as (x & Ex & Hx & Hrows).
    exists x. split; [done|]. split; [done|].
    intros i n Hn. apply Hrows. by eapply lookup_lt_Some. }
  destruct (decide ("scale" ∈ encoder_features self)) as [Hs|Hs];
    destruct (decide ("op" ∈ encoder_features self)) as [Ho|Ho];
    destruct (decide ("channels" ∈ encoder_features self)) as [Hc|Hc];
    cbn [app];
    try (exfalso; by destruct Hfeat as [?|[?|?]]).
  - destruct (Hcat [t1; t2; t3]) as (x & Ex & Hx & Hrows);
      [done|by repeat constructor|].
    exists x. split; [done|]. split; [done|]. intros i n Hn.
    etransitivity; [exact (Hrows i n Hn)|].
    cbn [fmap list_fmap concat app]. rewrite ?app_nil_r. f_equal.
    repeat first [ exact (R1 i n Hn) | exact (R2 i n Hn) | exact (R3 i n Hn)
                 | apply (f_equal2 (@app Q)) ].
  - destruct (Hcat [t1; t2]) as (x & Ex & Hx & Hrows);
      [done|by repeat constructor|].
    exists x. split; [done|]. split; [done|]. intros i n Hn.
    etransitivity; [exact (Hrows i n Hn)|].
    cbn [fmap list_fmap concat app]. rewrite ?app_nil_r. f_equal.
    repeat first [ exact (R1 i n Hn) | exact (R2 i n Hn) | exact (R3 i n Hn)
                 | apply (f_equal2 (@app Q)) ].
  - destruct (Hcat [t1; t3]) as (x & Ex & Hx & Hrows);
      [done|by repeat constructor|].
    exists x. split; [done|]. split; [done|]. intros i n Hn.
    etransitivity; [exact (Hrows i n Hn)|].
    cbn [fmap list_fmap concat app]. rewrite ?app_nil_r. f_equal.
    repeat first [ exact (R1 i n Hn) | exact (R2 i n Hn) | exact (R3 i n Hn)
                 | apply (f_equal2 (@app Q)) ].
  - destruct (Hcat [t1]) as (x & Ex & Hx & Hrows);
      [done|by repeat constructor|].
    exists x. split; [done|]. split; [done|]. intros i n Hn.
    etransitivity; [exact (Hrows i n Hn)|].
    cbn [fmap list_fmap concat app]. rewrite ?app_nil_r. f_equal.
    repeat first [ exact (R1 i n Hn) | exact (R2 i n Hn) | exact (R3 i n Hn)
                 | apply (f_equal2 (@app Q)) ].
  - destruct (Hcat [t2; t3]) as (x & Ex & Hx & Hrows);
      [done|by repeat constructor|].
    exists x. split; [done|]. split; [done|]. intros i n Hn.
    etransitivity; [exact (Hrows i n Hn)|].
    cbn [fmap list_fmap concat app]. rewrite ?app_nil_r. f_equal.
    repeat first [ exact (R1 i n Hn) | exact (R2 i n Hn) | exact (R3 i n Hn)
                 | apply (f_equal2 (@app Q)) ].
  - destruct (Hcat [t2]) as (x & Ex & Hx & Hrows);
      [done|by repeat constructor|].
    exists x. split; [done|]. split; [done|]. intros i n Hn.
    etransitivity; [exact (Hrows i n Hn)|].
    cbn [fmap list_fmap concat app]. rewrite ?app_nil_r. f_equal.
    repeat first [ exact (R1 i n Hn) | exact (R2 i n Hn) | exact (R3 i n Hn)
                 | apply (f_equal2 (@app Q)) ].
  - destruct (Hcat [t3]) as (x & Ex & Hx & Hrows);
      [done|by repeat constructor|].
    exists x. split; [done|]. split; [done|]. intros i n Hn.
    etransitivity; [exact (Hrows i n Hn)|].
    cbn [fmap list_fmap concat app]. rewrite ?app_nil_r. f_equal.
    repeat first [ exact (R1 i n Hn) | exact (R2 i n Hn) | exact (R3 i n Hn)
                 | apply (f_equal2 (@app Q)) ].
Qed.


Lemma get_arch_repr_no_feature a s :
  "scale" ∉ encoder_features self → "op" ∉ encoder_features self →
  "channels" ∉ encoder_features self →
  get_arch_repr self a s = (Raise RuntimeError, s).
Proof.
  intros Hs Ho Hc. unfold get_arch_repr, arch_features.
  rewrite !decide_False by done. reflexivity.
Qed.

(** An empty graph gives tensors of one dimension, which [torch.cat] skips;
    the assertion of line 301 then fails. *)
Lemma get_arch_repr_empty a s :
  graph_values (arch a) = [] →
  "scale" ∈ encoder_features self ∨ "op" ∈ encoder_features self
    ∨ "channels" ∈ encoder_features self →
  get_arch_repr self a s = (Raise AssertionError, s).
Proof.
  intros Hg Hfeat. unfold get_arch_repr, arch_features. rewrite Hg.
  destruct (decide ("scale" ∈ encoder_features self));
    destruct (decide ("op" ∈ encoder_features self));
    destruct (decide ("channels" ∈ encoder_features self));
    try reflexivity.
  exfalso. by destruct Hfeat as [?|[?|?]].
Qed.


End arch_repr_facts.

(** An integer of at most [p] significant bits is not rounded. *)
Lemma round_bits_small p n : 0 < p → Z.abs n ≤ 2 ^ p → round_bits p n = n.
Proof.
  intros Hp Hn. unfold round_bits.
  destruct (decide (Z.abs n < 2 ^ p)) as [Hlt|Hge].
  - rewrite decide_True; [done|].
    destruct (decide (Z.abs n = 0)) as [->|Hnz]; [cbn; lia|].
    assert (Z.log2 (Z.abs n) < p); [|lia].
    apply Z.log2_lt_pow2; lia.
  - assert (Z.abs n = 2 ^ p) as Habs by lia. rewrite Habs.
    rewrite Z.log2_pow2 by lia.
    replace (p + 1 - p) with 1 by lia.
    rewrite decide_False by lia. cbn zeta.
    replace (2 ^ p) with (2 ^ (p - 1) * 2 ^ 1)
      by (rewrite <- Z.pow_add_r by lia; f_equal; lia).
    rewrite Z.div_mul, Z.mod_mul by lia.
    rewrite decide_False by (change (2 ^ (1 - 1)) with 1; lia).
    rewrite <- Z.pow_add_r by lia. replace (p - 1 + 1) with p by lia.
    rewrite <- Habs. rewrite Z.mul_comm. apply Z.abs_sgn.
Qed.

(** Channel counts up to [2^24] are stored exactly. *)
Lemma float32_div64_exact n :
  Z.abs n ≤ 2 ^ 24 → float32_div64 n = (inject_Z n / 64)%Q.
Proof.
  intros Hn. unfold float32_div64.
  rewrite (round_bits_small 53 n) by lia.
  by rewrite (round_bits_small 24 n) by lia.
Qed.

(** The cell of a one-hot row at the position of category [c] is 1 when
    [c] is the encoded value and 0 otherwise. *)
Lemma onehot_lookup {A} `{EqDecision A} (x : A) (categories : list A) k c :
  categories !! k = Some c →
  ((λ b : bool, if b then 1%Q else 0%Q) <$> onehot x categories) !! k
  = Some (if decide (x = c) then 1%Q else 0%Q).
Proof.
  intros Hk. unfold onehot. rewrite !list_lookup_fmap, Hk. cbn. f_equal.
  destruct (decide (x = c)) as [->|Hne].
  - by rewrite bool_decide_eq_true_2.
  - by rewrite bool_decide_eq_false_2 by (intros E; by destruct Hne).
Qed.

Lemma onehot_length {A} `{EqDecision A} (x : A) (categories : list A) :
  length ((λ b : bool, if b then 1%Q else 0%Q) <$> onehot x categories)
  = length categories.
Proof. unfold onehot. by rewrite !length_fmap. Qed.

Lemma arch_features_cells `{Compiler} (self : DiscreteSearchSpaceSegmentation)
    (graph : list Node) (ch_map : ChannelCfg) :
  graph ≠ [] →
  "scale" ∈ encoder_features self ∨ "op" ∈ encoder_features self
    ∨ "channels" ∈ encoder_features self →
  Z.abs (base_channels ch_map) ≤ 2 ^ 24 →
  Z.abs (delta_channels ch_map) ≤ 2 ^ 24 →
  ∃ x, arch_features self graph ch_map = Ok x
    ∧ length x = length graph
    ∧ ∀ i n, graph !! i = Some n →
        ∃ sc ops ch : list Q,
          x !! i = Some (sc ++ ops ++ ch)
          ∧ (if decide ("scale" ∈ encoder_features self)
             then length sc = 5%nat
                  ∧ ∀ k lvl, [1; 2; 4; 8; 16] !! k = Some lvl →
                      sc !! k
                      = Some (if decide (scale n = lvl) then 1%Q else 0%Q)
             else sc = [])
          ∧ (if decide ("op" ∈ encoder_features self)
             then length ops = length (operations self)
                  ∧ ∀ k o, operations self !! k = Some o →
                      ops !! k
                      = Some (if decide (op n = Some o) then 1%Q else 0%Q)
             else ops = [])
          ∧ ch = if decide ("channels" ∈ encoder_features self)
                 then [inject_Z (base_channels ch_map) / 64;
                       inject_Z (delta_channels ch_map) / 64]%Q
                 else [].
Proof.
  intros Hne Hfeat Hb Hd.
  destruct (arch_features_rows self graph ch_map Hne Hfeat)
    as (x & Ex & Hx & Hrows).
  exists x. split; [done|]. split; [done|]. intros i n Hn.
  eexists _, _, _. split; [exact (Hrows i n Hn)|].
  split; [|split].
  - destruct (decide ("scale" ∈ encoder_features self)); [|done].
    split; [by rewrite onehot_length|].
    intros k lvl Hk. by apply onehot_lookup.
  - destruct (decide ("op" ∈ encoder_features self)); [|done].
    split; [by rewrite onehot_length, length_fmap|].
    intros k o Hk. apply onehot_lookup.
    by rewrite list_lookup_fmap, Hk.
  - destruct (decide ("channels" ∈ encoder_features self)); [|done].
    by rewrite !float32_div64_exact.
Qed.

(** X15: the node feature matrix has one row per node.  A row is made of up
    to three blocks, always in this order whatever the order of
    [encoder_features], each present iff its feature is selected: five cells
    for the scale, of which the one at the position of the node's scale in
    [1, 2, 4, 8, 16] is 1 and the others 0; one cell per operator of the
    search space, 1 at the node's operator and 0 elsewhere (all 0 for a node
    without operator); and the two channel counts divided by 64, exactly so
    for counts of magnitude up to [2^24], which float32 holds without
    rounding. *)
Theorem get_arch_repr_feature_rows `{Compiler}
    (self : DiscreteSearchSpaceSegmentation) (graph : list Node)
    (ch_map : ChannelCfg) :
  graph ≠ [] →
  "scale" ∈ encoder_features self ∨ "op" ∈ encoder_features self
    ∨ "channels" ∈ encoder_features self →
  Z.abs (base_channels ch_map) ≤ 2 ^ 24 →
  Z.abs (delta_channels ch_map) ≤ 2 ^ 24 →
  ∃ x, arch_features self graph ch_map = Ok x
    ∧ length x = length graph
    ∧ ∀ i n, graph !! i = Some n →
        ∃ sc ops ch : list Q,
          x !! i = Some (sc ++ ops ++ ch)
          ∧ (if decide ("scale" ∈ encoder_features self)
             then length sc = 5%nat
                  ∧ ∀ k lvl, [1; 2; 4; 8; 16] !! k = Some lvl →
                      sc !! k
                      = Some (if decide (scale n = lvl) then 1%Q else 0%Q)
             else sc = [])
          ∧ (if decide ("op" ∈ encoder_features self)
             then length ops = length (operations self)
                  ∧ ∀ k o, operations self !! k = Some o →
                      ops !! k
                      = Some (if decide (op n = Some o) then 1%Q else 0%Q)
             else ops = [])
          ∧ ch = if decide ("channels" ∈ encoder_features self)
                 then [inject_Z (base_channels ch_map) / 64;
                       inject_Z (delta_channels ch_map) / 64]%Q
                 else [].
Proof. apply arch_features_cells. Qed.

Lemma get_arch_repr_feature_rows_witness :
  let self := example_space ["channels"; "scale"] 0 100 in
  ∃ x, arch_features self chain3 (MkChannelCfg 8 16 false) = Ok x
    ∧ length x = length chain3
    ∧ ∀ i n, chain3 !! i = Some n →
        ∃ sc ops ch : list Q,
          x !! i = Some (sc ++ ops ++ ch)
          ∧ (if decide ("scale" ∈ encoder_features self)
             then length sc = 5%nat
                  ∧ ∀ k lvl, [1; 2; 4; 8; 16] !! k = Some lvl →
                      sc !! k
                      = Some (if decide (scale n = lvl) then 1%Q else 0%Q)
             else sc = [])
          ∧ (if decide ("op" ∈ encoder_features self)
             then length ops = length (operations self)
                  ∧ ∀ k o, operations self !! k = Some o →
                      ops !! k
                      = Some (if decide (op n = Some o) then 1%Q else 0%Q)
             else ops = [])
          ∧ ch = if decide ("channels" ∈ encoder_features self)
                 then [inject_Z (base_channels (MkChannelCfg 8 16 false))
                         / 64;
                       inject_Z (delta_channels (MkChannelCfg 8 16 false))
                         / 64]%Q
                 else [].
Proof.
  intros self.
  apply (get_arch_repr_feature_rows (H := stub_compiler true true 10) self
           chain3 (MkChannelCfg 8 16 false)).
  - done.
  - left. apply (bool_decide_unpack _). reflexivity.
  - cbn. lia.
  - cbn. lia.
Defined.

(** X16: with none of ['scale'], ['op'], ['channels'] among the encoder
    features there is nothing to concatenate: [get_arch_repr] raises
    [RuntimeError] whatever the architecture. *)
Theorem get_arch_repr_no_known_feature `{Compiler}
    (self : DiscreteSearchSpaceSegmentation) (a : ArchWithMetaData)
    (s : Env) :
  "scale" ∉ encoder_features self → "op" ∉ encoder_features self →
  "channels" ∉ encoder_features self →
  get_arch_repr self a s = (Raise RuntimeError, s).
Proof. apply get_arch_repr_no_feature. Qed.

Lemma get_arch_repr_no_known_feature_witness :
  get_arch_repr (H := stub_compiler true true 10)
    (example_space ["depth"] 0 100)
    (stub_arch (H := stub_compiler true true 10) (stub_model chain3) "h")
    (env0 [])
  = (Raise RuntimeError, env0 []).
Proof.
  apply (get_arch_repr_no_known_feature (H := stub_compiler true true 10)).
  - apply (bool_decide_unpack _). reflexivity.
  - apply (bool_decide_unpack _). reflexivity.
  - apply (bool_decide_unpack _). reflexivity.
Defined.





(** ** [crossover]: more properties *)

Lemma untouched_scale : untouched_field scale.
Proof. by split. Qed.

Lemma untouched_op : untouched_field op.
Proof. by split. Qed.

Lemma rename_loop_untouched {B} (f : Node → B) p aio len i m nodes :
  untouched_field f →
  f <$> rename_loop p aio len i m nodes = f <$> nodes.
Proof.
  intros [Hn Hi]. revert i m.
  induction nodes as [|node rest IH]; intros i m; [done|].
  cbn [rename_loop]. destruct (m !! name node); cbn [fmap list_fmap].
  - f_equal; [by rewrite Hi|apply IH].
  - f_equal; [by rewrite Hi, Hn|apply IH].
Qed.

Lemma rename_untouched {B} (f : Node → B) l p rio aio :
  untouched_field f → f <$> rename_dag_node_list l p rio aio = f <$> l.
Proof. apply rename_loop_untouched. Qed.

Lemma fmap_alter_untouched {A B} (f : A → B) (g : A → A) i (l : list A) :
  (∀ x, f (g x) = f x) → f <$> alter g i l = f <$> l.
Proof.
  intros Hg. revert i. induction l as [|x l IH]; intros i; [done|].
  destruct i as [|i]; cbn; [by rewrite Hg|by rewrite IH].
Qed.

Lemma fmap_Forall2_eq {A B} (f : A → B) (l1 l2 : list A) :
  Forall2 (λ x y, f y = f x) l1 l2 → f <$> l2 = f <$> l1.
Proof. induction 1 as [|x y l1 l2 Hxy _ IH]; cbn; [done|by rewrite Hxy, IH]. Qed.

Section crossover_shape.
Context `{Compiler}.

Lemma repair_node_untouched {B} (f : Node → B) left_half right_g right_n q idx
    fields s n s' :
  untouched_field f →
  repair_node left_half right_g right_n q idx fields s = (Ok n, s') →
  f n = f fields.
Proof.
  intros [_ Hi]. unfold repair_node.
  intros (inps & s1 & _ & [= <- _])%bind_inv_ok. apply Hi.
Qed.

(** The splice keeps every field but names and inputs: the merged list is
    the left graph up to its pivot followed by the right graph from its
    pivot. *)
Lemma splice_untouched {B} (f : Node → B) left_g right_g right_n left_pivot
    lp rp s g s' :
  untouched_field f →
  splice left_g right_g right_n left_pivot lp rp s = (Ok g, s') →
  f <$> g = take (S lp) (f <$> left_g) ++ drop rp (f <$> right_g).
Proof.
  intros Hf. pose proof Hf as [Hn Hi]. unfold splice.
  intros (repaired & s1 & Hrep & Hs)%bind_inv_ok.
  apply mapM_inv in Hrep.
  assert (f <$> reverse repaired = f <$> drop rp right_g) as Hrev.
  { rewrite fmap_reverse.
    rewrite (fmap_Forall2_eq f (reverse (drop rp right_g)) repaired).
    - by rewrite fmap_reverse, reverse_involutive.
    - eapply Forall2_impl; [exact Hrep|]. cbn.
      intros x y (s2 & s3 & Hr). by eapply repair_node_untouched. }
  apply bind_inv_ok in Hs as (rh2 & s2 & Hrh2 & Hs).
  assert (f <$> rh2 = f <$> drop rp right_g) as Hrh2'.
  { destruct (reverse repaired) as [|r0 rs] eqn:Er; [done|].
    injection Hrh2 as <- _. rewrite <- Hrev.
    by apply fmap_alter_untouched. }
  apply bind_inv_ok in Hs as (first & s3 & _ & [= <- _]).
  rewrite rename_untouched by done. rewrite fmap_app, fmap_take.
  f_equal. rewrite <- fmap_drop, <- Hrh2'.
  destruct (decide _); [done|]. by apply fmap_alter_untouched.
Qed.

Lemma right_candidates_scale lg rg rn lp cands rp :
  0 ≤ lp →
  right_candidates lg rg rn lp = Ok cands → rp ∈ cands →
  ∃ pl pr, lg !! Z.to_nat lp = Some pl ∧ rg !! rp = Some pr
           ∧ scale pr = scale pl.
Proof.
  intros Hlp. unfold right_candidates.
  destruct (py_index lg lp) as [pivot|] eqn:Ep; [|done].
  cbn. intros [= <-] Hrp.
  apply py_index_nonneg_inv in Ep; [|done].
  apply list_elem_of_fmap in Hrp as ([i fields] & -> & Hin).
  apply list_elem_of_filter in Hin as [(Hsc & _ & _) Hin]. cbn in *.
  apply list_elem_of_lookup in Hin as [k Hk].
  rewrite list_lookup_imap in Hk.
  destruct (rg !! k) as [x|] eqn:E; [|done]. cbn in Hk.
  injection Hk as <- <-. eauto.
Qed.

(** A successful iteration cuts both graphs at interior nodes of one
    scale. *)
Lemma crossover_attempt_shape lg rg s g s' :
  crossover_attempt lg rg (name <$> lg) (name <$> rg) s = (Ok (Some g), s') →
  ∃ lp rp : nat,
    (1 ≤ lp)%nat ∧ (lp + 2 ≤ length lg)%nat
    ∧ (1 ≤ rp)%nat ∧ (rp + 2 ≤ length rg)%nat
    ∧ (scale <$> lg) !! lp = (scale <$> rg) !! rp
    ∧ scale <$> g = take (S lp) (scale <$> lg) ++ drop rp (scale <$> rg)
    ∧ op <$> g = take (S lp) (op <$> lg) ++ drop rp (op <$> rg).
Proof.
  unfold crossover_attempt. rewrite !length_fmap.
  intros (lp & s1 & Hlp & Hr)%bind_inv_ok.
  apply randint_inv in Hlp as [Hlp _].
  apply bind_inv_ok in Hr as (left_pivot & s2 & Hpiv & Hr).
  apply bind_inv_ok in Hr as (cands & s3 & Hc & Hr).
  injection Hc as Hc <-.
  destruct cands as [|c0 cs] eqn:Ec; [done|]. rewrite <- Ec in *.
  apply bind_inv_ok in Hr as (rp & s4 & Hrp & Hr).
  apply random_choice_inv in Hrp.
  apply bind_inv_ok in Hr as (g' & s5 & Hsp & [= <- _]).
  destruct (right_candidates_inv _ _ _ _ _ _ Hc Hrp) as (Hrp0 & Hrp1 & _).
  rewrite length_fmap in Hrp1.
  assert (0 ≤ lp) as Hlp0 by lia.
  destruct (right_candidates_scale _ _ _ _ _ _ Hlp0 Hc Hrp)
    as (pl & pr & Hpl & Hpr & Hsc).
  exists (Z.to_nat lp), rp.
  split; [lia|]. split; [lia|]. split; [lia|]. split; [lia|]. split.
  { rewrite !list_lookup_fmap, Hpl, Hpr. cbn. by rewrite Hsc. }
  split; by eapply splice_untouched; [|exact Hsp].
Qed.

Lemma crossover_loop_shape fuel patience lg rg nb s g n s' :
  crossover_loop fuel patience lg rg (name <$> lg) (name <$> rg) None nb s
    = (Ok (Some g, n), s') →
  ∃ s1 s2,
    crossover_attempt lg rg (name <$> lg) (name <$> rg) s1 = (Ok (Some g), s2).
Proof. intros [?|?]%crossover_loop_success; [done|done]. Qed.

(** [random.sample] of two out of two gives the two in either order. *)
Lemma sample_two {A} (a b : A) s l s' :
  random_sample_k [a; b] 2 s = (Ok l, s') → l = [a; b] ∨ l = [b; a].
Proof.
  unfold random_sample_k. rewrite decide_True by (cbn; lia).
  change (Z.to_nat 2) with 2%nat. cbn [sample_loop length].
  intros (i & s1 & Hi & Hr)%bind_inv_ok.
  apply randint_inv in Hi as [Hi _].
  apply bind_inv_ok in Hr as (x & s2 & Hx & Hr).
  apply bind_inv_ok in Hr as (rest & s3 & Hrest & [= <- _]).
  apply bind_inv_ok in Hrest as (j & s4 & Hj & Hrest).
  apply bind_inv_ok in Hrest as (y & s5 & Hy & Hrest).
  apply bind_inv_ok in Hrest as (rest' & s6 & [= <- _] & [= <- _]).
  injection Hx as Hx _. injection Hy as Hy _.
  assert (i = 0 ∨ i = 1) as [-> | ->] by (cbn in Hi; lia).
  - cbn in Hx. injection Hx as <-.
    change (delete (Z.to_nat 0) [a; b]) with [b] in Hj, Hy.
    apply randint_inv in Hj as [Hj _]. cbn in Hj.
    assert (j = 0) as -> by lia.
    cbn in Hy. injection Hy as <-. by left.
  - cbn in Hx. injection Hx as <-.
    change (delete (Z.to_nat 1) [a; b]) with [a] in Hj, Hy.
    apply randint_inv in Hj as [Hj _]. cbn in Hj.
    assert (j = 0) as -> by lia.
    cbn in Hy. injection Hy as <-. by right.
Qed.

Lemma crossover_splice_inv model_1 model_2 patience s left_m right_m g n s' :
  crossover_splice model_1 model_2 patience s
    = (Ok (left_m, right_m, Looped (Some g) n), s') →
  ((left_m = model_1 ∧ right_m = model_2)
   ∨ (left_m = model_2 ∧ right_m = model_1))
  ∧ ∃ s1 s2,
      crossover_attempt
        (rename_dag_node_list (graph_values (arch left_m)) "left" true false)
        (rename_dag_node_list (graph_values (arch right_m)) "right" true false)
        (name <$> rename_dag_node_list (graph_values (arch left_m)) "left"
                    true false)
        (name <$> rename_dag_node_list (graph_values (arch right_m)) "right"
                    true false) s1
      = (Ok (Some g), s2).
Proof.
  unfold crossover_splice.
  intros (ms & s1 & Hms & Hr)%bind_inv_ok.
  apply sample_two in Hms as [-> | ->].
  - destruct (decide _); [done|].
    apply bind_inv_ok in Hr as ([r nb] & s2 & Hloop & Hret).
    cbn in Hret. injection Hret as <- <- -> _ _.
    split; [by left|]. by eapply crossover_loop_shape.
  - destruct (decide _); [done|].
    apply bind_inv_ok in Hr as ([r nb] & s2 & Hloop & Hret).
    cbn in Hret. injection Hret as <- <- -> _ _.
    split; [by right|]. by eapply crossover_loop_shape.
Qed.

Lemma crossover_splice_shape model_1 model_2 patience s left_m right_m g n s' :
  crossover_splice model_1 model_2 patience s
    = (Ok (left_m, right_m, Looped (Some g) n), s') →
  ((left_m = model_1 ∧ right_m = model_2)
   ∨ (left_m = model_2 ∧ right_m = model_1))
  ∧ ∃ lp rp : nat,
      (1 ≤ lp)%nat ∧ (lp + 2 ≤ length (graph_values (arch left_m)))%nat
      ∧ (1 ≤ rp)%nat ∧ (rp + 2 ≤ length (graph_values (arch right_m)))%nat
      ∧ (scale <$> graph_values (arch left_m)) !! lp
        = (scale <$> graph_values (arch right_m)) !! rp
      ∧ scale <$> g
        = take (S lp) (scale <$> graph_values (arch left_m))
            ++ drop rp (scale <$> graph_values (arch right_m))
      ∧ op <$> g
        = take (S lp) (op <$> graph_values (arch left_m))
            ++ drop rp (op <$> graph_values (arch right_m))
      ∧ length g
        = (S lp + (length (graph_values (arch right_m)) - rp))%nat.
Proof.
  intros (Hlr & s1 & s2 & Ha)%crossover_splice_inv. split; [done|].
  apply crossover_attempt_shape in Ha
    as (lp & rp & Hlp & Hlp' & Hrp & Hrp' & Hsc & Hscales & Hops).
  rewrite !rename_dag_node_list_length in *.
  rewrite !(rename_untouched scale) in * by apply untouched_scale.
  rewrite !(rename_untouched op) in * by apply untouched_op.
  exists lp, rp. repeat (split; [done|]).
  rewrite <- (length_fmap scale g), Hscales.
  rewrite length_app, length_take, length_drop, !length_fmap. lia.
Qed.

(** The merged list before its final renaming has unique names. *)
Lemma crossover_splice_merged model_1 model_2 patience s left_m right_m g n s' :
  parent_ok (graph_values (arch model_1)) →
  parent_ok (graph_values (arch model_2)) →
  crossover_splice model_1 model_2 patience s
    = (Ok (left_m, right_m, Looped (Some g) n), s') →
  ∃ merged, g = rename_dag_node_list merged "" true true
            ∧ NoDup (name <$> merged).
Proof.
  intros Hp1 Hp2 (Hlr & s1 & s2 & Ha)%crossover_splice_inv.
  assert (parent_ok (graph_values (arch left_m))
          ∧ parent_ok (graph_values (arch right_m))) as [Hl Hrp].
  { by destruct Hlr as [[-> ->]|[-> ->]]. }
  apply (rename_parent_shape _ "left") in Hl; [|done].
  apply (rename_parent_shape _ "right") in Hrp; [|done].
  set (lg := rename_dag_node_list (graph_values (arch left_m)) "left"
               true false) in *.
  set (rg := rename_dag_node_list (graph_values (arch right_m)) "right"
               true false) in *.
  apply crossover_attempt_inv in Ha
    as (lp & rp & left_pivot & s5 & s6 & Hlp & Hpiv & Hrp0 & Hrp1 & [o Ho]
        & Hsp).
  rewrite list_lookup_fmap in Hpiv.
  destruct (lg !! Z.to_nat lp) as [pn|] eqn:Epn; [|done].
  injection Hpiv as <-.
  apply splice_inv in Hsp as (rh & -> & Hlast & Hm & Hnames).
  2:{ apply list_elem_of_fmap_2. apply elem_of_take. exists (Z.to_nat lp).
      split; [done|lia]. }
  eexists. split; [done|].
  by apply merged_names_nodup with (rg := rg) (rp := rp).
Qed.

Lemma crossover_splice_names model_1 model_2 patience s left_m right_m g n s'
    j nd :
  parent_ok (graph_values (arch model_1)) →
  parent_ok (graph_values (arch model_2)) →
  crossover_splice model_1 model_2 patience s
    = (Ok (left_m, right_m, Looped (Some g) n), s') →
  g !! j = Some nd →
  name nd = if decide (j = 0%nat) then "input"
            else if decide (S j = length g) then "output"
            else "layer_" +:+ pretty j.
Proof.
  intros Hp1 Hp2 Hsp Hj.
  destruct (crossover_splice_merged _ _ _ _ _ _ _ _ _ Hp1 Hp2 Hsp)
    as (merged & -> & Hnd).
  rewrite rename_dag_node_list_length.
  unfold rename_dag_node_list in Hj. cbn [decide] in Hj.
  apply rename_loop_names in Hj; [|done|intros; apply lookup_empty].
  rewrite Hj. unfold rename_new_name, layer_name. cbn [Nat.add].
  destruct (decide (j = 0%nat)); [done|].
  destruct (decide (Z.of_nat j = Z.of_nat (length merged) - 1)) as [E|E].
  - rewrite (decide_True (P := S j = length merged)) by lia. done.
  - rewrite (decide_False (P := S j = length merged)) by lia. done.
Qed.

Lemma random_choice_two {A} (a b : A) s x s' :
  random_choice [a; b] s = (Ok x, s') → x = a ∨ x = b.
Proof.
  intros Hx%random_choice_inv.
  apply elem_of_cons in Hx as [->|Hx]; [by left|].
  apply list_elem_of_singleton in Hx as ->. by right.
Qed.
End crossover_shape.

Lemma string_app_assoc (x y z : string) : (x +:+ y) +:+ z = x +:+ y +:+ z.
Proof.
  induction x as [|c x IH]; [done|].
  change (String c ((x +:+ y) +:+ z) = String c (x +:+ y +:+ z)).
  by rewrite IH.
Qed.

Section crossover_result.
Context `{Compiler} (self : DiscreteSearchSpaceSegmentation).

Lemma crossover_build_inv left_m right_m g s a s' :
  crossover_build self left_m right_m g s = (Ok a, s') →
  ∃ idl idr cfg pul,
    metadata left_m !! "archid" = Some (MStr idl)
    ∧ metadata right_m !! "archid" = Some (MStr idr)
    ∧ metadata a
      = <["parents" := MStr (idl +:+ "," +:+ idr)]>
          (<["parent" := MNone]>
             (<["archid" := MStr (to_hash (arch a))]>
                (<["datasetname" := MStr (datasetname self)]> ∅)))
    ∧ new_model g cfg pul (img_size self) = Ok (arch a)
    ∧ (cfg = channels_per_scale (arch left_m)
       ∨ cfg = channels_per_scale (arch right_m))
    ∧ (pul = post_upsample_layers (arch left_m)
       ∨ pul = post_upsample_layers (arch right_m)).
Proof.
  unfold crossover_build.
  intros (ch & s1 & Hch & Hr)%bind_inv_ok.
  apply bind_inv_ok in Hr as (pul & s2 & Hpul & Hr).
  apply bind_inv_ok in Hr as (built & s3 & Hbuilt & Hr).
  apply bind_inv_ok in Hr as (l_id & s4 & Hl & Hr).
  apply bind_inv_ok in Hr as (l_comma & s4' & Hlc & Hr).
  apply bind_inv_ok in Hr as (r_id & s5 & Hrid & Hr).
  apply bind_inv_ok in Hr as (parents & s6 & Hpar & [= <- _]).
  apply random_choice_two in Hch, Hpul.
  unfold load_from_graph in Hbuilt.
  apply bind_inv_ok in Hbuilt as (model & s7 & Hmodel & [= <- _]).
  injection Hmodel as Hmodel _.
  unfold lift, meta_get in Hl, Hrid.
  destruct (metadata left_m !! "archid") as [vl|] eqn:El; [|done].
  destruct (metadata right_m !! "archid") as [vr|] eqn:Er; [|done].
  injection Hl as <- _. injection Hrid as <- _.
  injection Hlc as Hlc _. injection Hpar as Hpar _.
  unfold meta_add in Hlc, Hpar.
  destruct vl as [|idl|]; try done. injection Hlc as <-.
  destruct vr as [|idr|]; try done.
  injection Hpar as <-. rewrite string_app_assoc.
  exists idl, idr, ch, pul. cbn [arch metadata].
  repeat (split; [done|]). split; [|done].
  by destruct ch.
Qed.

Lemma crossover_inv model_1 model_2 patience s a s' :
  crossover self model_1 model_2 patience s = (Ok (Some a), s') →
  ∃ left_m right_m g n s1 s2,
    crossover_splice model_1 model_2 patience s
      = (Ok (left_m, right_m, Looped (Some g) n), s1)
    ∧ crossover_build self left_m right_m g s1 = (Ok a, s2).
Proof.
  unfold crossover.
  intros ([[lm rm] ex] & s1 & Hsp & Hr)%bind_inv_ok. cbn [fst snd] in Hr.
  destruct ex as [|[g|] n]; [done| |done].
  destruct g as [|x g]; [done|].
  apply bind_inv_ok in Hr as (a' & s2 & Hb & [= <- _]).
  by exists lm, rm, (x :: g), n, s1, s2.
Qed.

Lemma crossover_lineage model_1 model_2 patience s a s' :
  crossover self model_1 model_2 patience s = (Ok (Some a), s') →
  ∃ left_m right_m idl idr g n s1 cfg pul,
    crossover_splice model_1 model_2 patience s
      = (Ok (left_m, right_m, Looped (Some g) n), s1)
    ∧ ((left_m = model_1 ∧ right_m = model_2)
       ∨ (left_m = model_2 ∧ right_m = model_1))
    ∧ metadata left_m !! "archid" = Some (MStr idl)
    ∧ metadata right_m !! "archid" = Some (MStr idr)
    ∧ metadata a
      = <["parents" := MStr (idl +:+ "," +:+ idr)]>
          (<["parent" := MNone]>
             (<["archid" := MStr (to_hash (arch a))]>
                (<["datasetname" := MStr (datasetname self)]> ∅)))
    ∧ new_model g cfg pul (img_size self) = Ok (arch a)
    ∧ (cfg = channels_per_scale (arch left_m)
       ∨ cfg = channels_per_scale (arch right_m))
    ∧ (pul = post_upsample_layers (arch left_m)
       ∨ pul = post_upsample_layers (arch right_m)).
Proof.
  intros (lm & rm & g & n & s1 & s2 & Hsp & Hb)%crossover_inv.
  apply crossover_build_inv in Hb
    as (idl & idr & cfg & pul & ? & ? & ? & ? & ? & ?).
  pose proof (crossover_splice_inv _ _ _ _ _ _ _ _ _ Hsp) as [Hlr _].
  exists lm, rm, idl, idr, g, n, s1, cfg, pul. done.
Qed.
End crossover_result.

Section crossover_disjoint.
Context `{Compiler} (self : DiscreteSearchSpaceSegmentation).

(** The interior nodes of [g1] and of [g2] have no scale in common. *)
Lemma right_candidates_disjoint lg rg lp :
  1 ≤ lp → lp + 2 ≤ Z.of_nat (length lg) →
  (∀ i j pl pr,
     (1 ≤ i)%nat → (i + 2 ≤ length lg)%nat → lg !! i = Some pl →
     (1 ≤ j)%nat → (j + 2 ≤ length rg)%nat → rg !! j = Some pr →
     scale pl ≠ scale pr) →
  right_candidates lg rg (name <$> rg) lp = Ok [].
Proof.
  intros Hlp Hlp' Hdis. unfold right_candidates.
  destruct (py_index_ok lg lp) as (pivot & -> & Hpiv); [lia|].
  cbn [res_bind].
  match goal with
  | |- context [filter ?P ?l] => assert (filter P l = []) as ->; [|done]
  end.
  apply elem_of_nil_inv. intros [j fields] Hin.
  apply list_elem_of_filter in Hin as [(Hsc & Hj0 & Hj1) Hin].
  cbn [fst snd] in *. rewrite length_fmap in Hj1.
  apply list_elem_of_lookup in Hin as [k Hk].
  rewrite list_lookup_imap in Hk.
  destruct (rg !! k) as [x|] eqn:E; [|done]. cbn in Hk.
  injection Hk as <- <-.
  eapply (Hdis (Z.to_nat lp) k pivot x); first [done | lia].
Qed.

Lemma attempts_miss_disjoint k lg rg s :
  (3 ≤ length lg)%nat →
  (∀ i j pl pr,
     (1 ≤ i)%nat → (i + 2 ≤ length lg)%nat → lg !! i = Some pl →
     (1 ≤ j)%nat → (j + 2 ≤ length rg)%nat → rg !! j = Some pr →
     scale pl ≠ scale pr) →
  ∃ s', attempts_miss k lg rg s s'.
Proof.
  intros Hlen Hdis. revert s. induction k as [|k IH]; intros s.
  { by exists s. }
  destruct (randint_spec 1 (Z.of_nat (length lg) - 2) s)
    as (lp & s1 & Hlp & Hrange & _); [lia|].
  destruct (IH s1) as [s' Hs']. exists s'. cbn [attempts_miss].
  exists lp, s1. split; [done|]. split; [|done].
  split; [done|].
  destruct (lookup_lt_is_Some_2 lg (Z.to_nat lp)) as [pivot Hpiv]; [lia|].
  exists pivot. split; [done|].
  intros j n Hj Hj' Hn E.
  eapply (Hdis (Z.to_nat lp) j pivot n); first [done | lia].
Qed.

Lemma crossover_disjoint_none model_1 model_2 patience s :
  (∀ i j ni nj,
     (1 ≤ i)%nat → (i + 2 ≤ length (graph_values (arch model_1)))%nat →
     graph_values (arch model_1) !! i = Some ni →
     (1 ≤ j)%nat → (j + 2 ≤ length (graph_values (arch model_2)))%nat →
     graph_values (arch model_2) !! j = Some nj →
     scale ni ≠ scale nj) →
  (crossover self model_1 model_2 patience s).1 = Ok None.
Proof.
  intros Hdis. apply crossover_none.
  destruct (sample_loop_ok 2 [model_1; model_2] s) as (l & s0 & Hl & _);
    [cbn; lia|].
  assert (random_sample_k [model_1; model_2] 2 s = (Ok l, s0)) as Hs.
  { unfold random_sample_k. by rewrite decide_True by (cbn; lia). }
  assert (∃ left_m right_m, l = [left_m; right_m]
            ∧ ∀ i j ni nj,
                (1 ≤ i)%nat →
                (i + 2 ≤ length (graph_values (arch left_m)))%nat →
                graph_values (arch left_m) !! i = Some ni →
                (1 ≤ j)%nat →
                (j + 2 ≤ length (graph_values (arch right_m)))%nat →
                graph_values (arch right_m) !! j = Some nj →
                scale ni ≠ scale nj) as (lm & rm & -> & Hdis').
  { destruct (sample_two _ _ _ _ _ Hs) as [-> | ->].
    - by exists model_1, model_2.
    - exists model_2, model_1. split; [done|].
      intros i j ni nj ? ? ? ? ? ? E. by eapply (Hdis j i nj ni). }
  exists lm, rm, s0. split; [done|].
  destruct (decide (degenerate lm rm)) as [Hdeg|Hndeg]; [by left|].
  right. unfold all_miss.
  apply attempts_miss_disjoint; [|done].
  unfold degenerate in Hndeg. lia.
Qed.
End crossover_disjoint.

Section encodable.
Context `{Compiler} (self : DiscreteSearchSpaceSegmentation).


End encodable.

(** X19: the node list of a successful crossover is, as far as scales and
    operators go, one parent up to an interior pivot followed by the other
    parent from an interior pivot of the same scale: it has between 4 and
    [len(left) + len(right) - 2] nodes, whatever [max_layers] says. *)
Theorem crossover_child_shape `{Compiler}
    (model_1 model_2 left_m right_m : ArchWithMetaData) (patience : Z)
    (s s' : Env) (g : list Node) (n : Z) :
  crossover_splice model_1 model_2 patience s
    = (Ok (left_m, right_m, Looped (Some g) n), s') →
  ((left_m = model_1 ∧ right_m = model_2)
   ∨ (left_m = model_2 ∧ right_m = model_1))
  ∧ ∃ lp rp : nat,
      (1 ≤ lp)%nat ∧ (lp + 2 ≤ length (graph_values (arch left_m)))%nat
      ∧ (1 ≤ rp)%nat ∧ (rp + 2 ≤ length (graph_values (arch right_m)))%nat
      ∧ (scale <$> graph_values (arch left_m)) !! lp
        = (scale <$> graph_values (arch right_m)) !! rp
      ∧ scale <$> g
        = take (S lp) (scale <$> graph_values (arch left_m))
            ++ drop rp (scale <$> graph_values (arch right_m))
      ∧ op <$> g
        = take (S lp) (op <$> graph_values (arch left_m))
            ++ drop rp (op <$> graph_values (arch right_m))
      ∧ length g
        = (S lp + (length (graph_values (arch right_m)) - rp))%nat.
Proof. apply crossover_splice_shape. Qed.

Lemma crossover_child_shape_witness :
  let C := stub_compiler true true 10 in
  let parent := stub_arch (H := C) (stub_model chain6) "h1" in
  ((parent = parent ∧ parent = parent) ∨ (parent = parent ∧ parent = parent))
  ∧ ∃ lp rp : nat,
      (1 ≤ lp)%nat ∧ (lp + 2 ≤ length (graph_values (arch parent)))%nat
      ∧ (1 ≤ rp)%nat ∧ (rp + 2 ≤ length (graph_values (arch parent)))%nat
      ∧ (scale <$> graph_values (arch parent)) !! lp
        = (scale <$> graph_values (arch parent)) !! rp
      ∧ scale <$> merged_example
        = take (S lp) (scale <$> graph_values (arch parent))
            ++ drop rp (scale <$> graph_values (arch parent))
      ∧ op <$> merged_example
        = take (S lp) (op <$> graph_values (arch parent))
            ++ drop rp (op <$> graph_values (arch parent))
      ∧ length merged_example
        = (S lp + (length (graph_values (arch parent)) - rp))%nat.
Proof.
  intros C parent.
  pose (s := env0 [0; 2; 2; 3; 4; 5; 6]%nat).
  apply (crossover_child_shape (H := C) parent parent parent parent
           3 s (crossover_splice parent parent 3 s).2 merged_example 1).
  by vm_compute.
Defined.

(** X20: for parents with unique node names none of which lists itself, the
    nodes of the merged list are named by position: ['input'] first,
    ['output'] last, [layer_j] at every position [j] in between. *)
Theorem crossover_child_names `{Compiler}
    (model_1 model_2 left_m right_m : ArchWithMetaData) (patience : Z)
    (s s' : Env) (g : list Node) (n : Z) (j : nat) (nd : Node) :
  parent_ok (graph_values (arch model_1)) →
  parent_ok (graph_values (arch model_2)) →
  crossover_splice model_1 model_2 patience s
    = (Ok (left_m, right_m, Looped (Some g) n), s') →
  g !! j = Some nd →
  name nd = if decide (j = 0%nat) then "input"
            else if decide (S j = length g) then "output"
            else "layer_" +:+ pretty j.
Proof. apply crossover_splice_names. Qed.

Lemma crossover_child_names_witness :
  name (MkNode "layer_3" (Some "pool") 2 [Some "layer_2"])
  = if decide (3 = 0)%nat then "input"
    else if decide (4 = length merged_example)%nat then "output"
    else "layer_" +:+ pretty 3%nat.
Proof.
  pose (C := stub_compiler true true 10).
  pose (parent := stub_arch (H := C) (stub_model chain6) "h1").
  pose (s := env0 [0; 2; 2; 3; 4; 5; 6]%nat).
  apply (crossover_child_names (H := C) parent parent parent parent
           3 s (crossover_splice parent parent 3 s).2 merged_example 1 3).
  - apply parent_ok_chain6.
  - apply parent_ok_chain6.
  - by vm_compute.
  - reflexivity.
Defined.

(** X21: the child [crossover] returns was built by the compiler from the
    merged node list, with the channel configuration of one parent and the
    post-upsample count of one parent; its metadata are [datasetname],
    [archid] (its hash), [parent = None] and [parents], the ['archid'] of
    the left and of the right parent joined by a comma -- and no ['macs']:
    neither the cost bounds nor the shape validation are applied to it. *)
Theorem crossover_child_lineage `{Compiler}
    (self : DiscreteSearchSpaceSegmentation)
    (model_1 model_2 a : ArchWithMetaData) (patience : Z) (s s' : Env) :
  crossover self model_1 model_2 patience s = (Ok (Some a), s') →
  ∃ left_m right_m idl idr g n s1 cfg pul,
    crossover_splice model_1 model_2 patience s
      = (Ok (left_m, right_m, Looped (Some g) n), s1)
    ∧ ((left_m = model_1 ∧ right_m = model_2)
       ∨ (left_m = model_2 ∧ right_m = model_1))
    ∧ metadata left_m !! "archid" = Some (MStr idl)
    ∧ metadata right_m !! "archid" = Some (MStr idr)
    ∧ metadata a
      = <["parents" := MStr (idl +:+ "," +:+ idr)]>
          (<["parent" := MNone]>
             (<["archid" := MStr (to_hash (arch a))]>
                (<["datasetname" := MStr (datasetname self)]> ∅)))
    ∧ new_model g cfg pul (img_size self) = Ok (arch a)
    ∧ (cfg = channels_per_scale (arch left_m)
       ∨ cfg = channels_per_scale (arch right_m))
    ∧ (pul = post_upsample_layers (arch left_m)
       ∨ pul = post_upsample_layers (arch right_m)).
Proof. apply crossover_lineage. Qed.

Lemma crossover_child_lineage_witness :
  let C := stub_compiler true true 10 in
  let self := example_space ["scale"; "op"] 0 100 in
  let parent := stub_arch (H := C) (stub_model chain6) "h1" in
  let a := crossover_child_example in
  ∃ left_m right_m idl idr g n s1 cfg pul,
    crossover_splice parent parent 3 (env0 [0; 2; 2; 3; 4; 5; 6]%nat)
      = (Ok (left_m, right_m, Looped (Some g) n), s1)
    ∧ ((left_m = parent ∧ right_m = parent)
       ∨ (left_m = parent ∧ right_m = parent))
    ∧ metadata left_m !! "archid" = Some (MStr idl)
    ∧ metadata right_m !! "archid" = Some (MStr idr)
    ∧ metadata a
      = <["parents" := MStr (idl +:+ "," +:+ idr)]>
          (<["parent" := MNone]>
             (<["archid" := MStr (to_hash (arch a))]>
                (<["datasetname" := MStr (datasetname self)]> ∅)))
    ∧ new_model g cfg pul (img_size self) = Ok (arch a)
    ∧ (cfg = channels_per_scale (arch left_m)
       ∨ cfg = channels_per_scale (arch right_m))
    ∧ (pul = post_upsample_layers (arch left_m)
       ∨ pul = post_upsample_layers (arch right_m)).
Proof.
  intros C self parent a.
  apply (crossover_child_lineage (H := C) self parent parent a 3
           (env0 [0; 2; 2; 3; 4; 5; 6]%nat) (env0 [])).
  by vm_compute.
Defined.

(** X22: parents whose interior nodes have no scale in common cannot be
    crossed: [crossover] returns [None] -- it raises nothing -- whatever the
    patience and the draws. *)
Theorem crossover_disjoint_scales_none `{Compiler}
    (self : DiscreteSearchSpaceSegmentation)
    (model_1 model_2 : ArchWithMetaData) (patience : Z) (s : Env) :
  (∀ i j ni nj,
     (1 ≤ i)%nat → (i + 2 ≤ length (graph_values (arch model_1)))%nat →
     graph_values (arch model_1) !! i = Some ni →
     (1 ≤ j)%nat → (j + 2 ≤ length (graph_values (arch model_2)))%nat →
     graph_values (arch model_2) !! j = Some nj →
     scale ni ≠ scale nj) →
  (crossover self model_1 model_2 patience s).1 = Ok None.
Proof. apply crossover_disjoint_none. Qed.

Lemma crossover_disjoint_scales_none_witness :
  let C := stub_compiler true true 10 in
  (crossover (H := C) (example_space ["scale"; "op"] 0 100)
     (stub_arch (H := C) (stub_model chain3) "h1")
     (stub_arch (H := C) (stub_model chain3_scale2) "h2")
     4 (env0 [1; 0; 3]%nat)).1 = Ok None.
Proof.
  intros C.
  apply (crossover_disjoint_scales_none (H := C)).
  intros i j ni nj Hi Hi' Hni Hj Hj' Hnj. cbn in Hi', Hj'.
  assert (i = 1%nat) as -> by lia. assert (j = 1%nat) as -> by lia.
  injection Hni as <-. injection Hnj as <-. done.
Defined.





(** ** [__init__] *)

Lemma res_assert_inv c (u : unit) : res_assert c = Ok u → c = true.
Proof. by destruct c. Qed.

Lemma res_bind_inv_ok {A B} (r : result A) (k : A → result B) b :
  res_bind r k = Ok b → ∃ a, r = Ok a ∧ k a = Ok b.
Proof. destruct r as [a|e]; [by exists a|done]. Qed.

Lemma py_range_inv start stop step l :
  py_range start stop step = Ok l →
  step ≠ 0
  ∧ l = (λ k, start + k * step) <$> seqZ 0 (range_len start stop step).
Proof.
  unfold py_range. destruct (decide (step = 0)); [done|].
  by intros [= <-].
Qed.

(** A range of at least one element starts at [start], and its step is
    positive when [start <= stop - 1]. *)
Lemma range_len_pos start stop step :
  step ≠ 0 → start < stop → 0 < range_len start stop step →
  0 < step
  ∧ ∀ k, 0 ≤ k < range_len start stop step → start + k * step < stop.
Proof.
  intros Hstep Hlt Hlen. unfold range_len in *.
  destruct (decide (0 < step)) as [Hpos|Hneg].
  - split; [done|]. rewrite decide_True in * by done.
    intros k [Hk0 Hk].
    assert (k ≤ (stop - start - 1) `div` step) as Hk' by lia.
    assert (step * ((stop - start - 1) `div` step) ≤ stop - start - 1)
      by (apply Z.mul_div_le; lia).
    nia.
  - rewrite decide_False in Hlen by lia. lia.
Qed.

Lemma range_len_ge_2 start stop step :
  0 < step → 2 ≤ range_len start stop step → start + step < stop.
Proof.
  intros Hpos Hlen. unfold range_len in Hlen.
  rewrite decide_True in Hlen by done.
  destruct (decide (start < stop)); [|lia].
  assert (1 ≤ (stop - start - 1) `div` step) as Hq by lia.
  assert (step * ((stop - start - 1) `div` step) ≤ stop - start - 1)
    by (apply Z.mul_div_le; lia).
  nia.
Qed.

Lemma py_range_step1 m : py_range 1 (m + 1) 1 = Ok (seqZ 1 m).
Proof.
  unfold py_range, range_len. rewrite decide_False by done.
  rewrite decide_True by done. f_equal.
  destruct (decide (1 < m + 1)) as [Hm|Hm].
  - replace ((m + 1 - 1 - 1) `div` 1 + 1) with m
      by (rewrite Z.div_1_r; lia).
    transitivity (Z.add 1 <$> seqZ 0 m);
      [|exact (fmap_add_seqZ 1 0 m)].
    apply list_fmap_ext. intros _ k _. lia.
  - rewrite !seqZ_nil by lia. done.
Qed.

Lemma py_range_elems start stop step l :
  py_range start stop step = Ok l → start < stop → l ≠ [] →
  0 < step
  ∧ Forall (λ c, start ≤ c < stop ∧ (c - start) `mod` step = 0) l
  ∧ head l = Some start.
Proof.
  intros (Hstep & ->)%py_range_inv Hlt Hne.
  assert (0 < range_len start stop step) as Hlen.
  { destruct (decide (0 < range_len start stop step)); [done|].
    rewrite seqZ_nil in Hne by lia. done. }
  destruct (range_len_pos start stop step Hstep Hlt Hlen) as [Hpos Hin].
  split; [done|]. split.
  - apply Forall_fmap, Forall_seqZ. intros k Hk. cbn.
    split; [split; [nia|apply Hin; lia]|].
    replace (start + k * step - start) with (k * step) by lia.
    by apply Z.mod_mul; lia.
  - rewrite head_lookup, list_lookup_fmap, lookup_seqZ_lt by lia.
    cbn. f_equal. lia.
Qed.

Lemma init_inv OPS_keys a obj :
  __init__ OPS_keys a = Ok obj →
  let op_subset := match a_op_subset a with
                   | Some sub => str_split comma sub
                   | None => []
                   end in
  a_datasetname a ≠ ""
  ∧ a_min_mac a ≤ a_max_mac a ∧ a_min_layers a ≤ a_max_layers a
  ∧ a_max_downsample_factor a ∈ [2; 4; 8; 16]
  ∧ 0 < a_max_skip_connection_length a
  ∧ a_max_scale_delta a ∈ [1; 2; 3]
  ∧ a_min_base_channels a ≤ a_max_base_channels a
  ∧ a_min_delta_channels a ≤ a_max_delta_channels a
  ∧ operations (space obj)
    = match op_subset with
      | [] => OPS_keys
      | _ => filter (λ op, op ∈ op_subset) OPS_keys
      end
  ∧ operations (space obj) ≠ []
  ∧ post_upsample_layers_list (space obj)
    = seqZ 1 (a_max_post_upsample_layers a)
  ∧ (length (post_upsample_layers_list (space obj)) < 5)%nat
  ∧ py_range (a_min_base_channels a) (a_max_base_channels a + 1)
      (a_base_channels_binwidth a) = Ok (base_channels_list (space obj))
  ∧ (1 < length (base_channels_list (space obj)))%nat
  ∧ py_range (a_min_delta_channels a) (a_max_delta_channels a + 1)
      (a_delta_channels_binwidth a) = Ok (delta_channels_list (space obj))
  ∧ (1 ≤ length (delta_channels_list (space obj)))%nat
  ∧ datasetname (space obj) = a_datasetname a
  ∧ min_mac (space obj) = a_min_mac a ∧ max_mac (space obj) = a_max_mac a
  ∧ encoder_features (space obj)
    = match a_encoder_features a with
      | None | Some [] => ["scale"; "channels"; "op"]
      | Some fs => fs
      end.
Proof.
  unfold __init__. intros Hrun.
  apply res_bind_inv_ok in Hrun
    as ([] & H1%res_assert_inv%bool_decide_eq_true & Hrun).
  apply res_bind_inv_ok in Hrun
    as ([] & H2%res_assert_inv%bool_decide_eq_true & Hrun).
  apply res_bind_inv_ok in Hrun
    as ([] & H3%res_assert_inv%bool_decide_eq_true & Hrun).
  apply res_bind_inv_ok in Hrun
    as ([] & H4%res_assert_inv%bool_decide_eq_true & Hrun).
  apply res_bind_inv_ok in Hrun
    as ([] & H5%res_assert_inv%bool_decide_eq_true & Hrun).
  apply res_bind_inv_ok in Hrun
    as ([] & H6%res_assert_inv%bool_decide_eq_true & Hrun).
  apply res_bind_inv_ok in Hrun
    as ([] & H7%res_assert_inv%bool_decide_eq_true & Hrun).
  rewrite py_range_step1 in Hrun. cbn [res_bind] in Hrun.
  apply res_bind_inv_ok in Hrun
    as ([] & H8%res_assert_inv%bool_decide_eq_true & Hrun).
  apply res_bind_inv_ok in Hrun as (bcl & Hbcl & Hrun).
  apply res_bind_inv_ok in Hrun
    as ([] & H9%res_assert_inv%bool_decide_eq_true & Hrun).
  apply res_bind_inv_ok in Hrun
    as ([] & H10%res_assert_inv%bool_decide_eq_true & Hrun).
  apply res_bind_inv_ok in Hrun as (dcl & Hdcl & Hrun).
  apply res_bind_inv_ok in Hrun
    as ([] & H11%res_assert_inv%bool_decide_eq_true & Hrun).
  apply res_bind_inv_ok in Hrun
    as ([] & H12%res_assert_inv%bool_decide_eq_true & Hrun).
  injection Hrun as <-. cbn [space operations post_upsample_layers_list
    base_channels_list delta_channels_list datasetname min_mac max_mac
    encoder_features].
  repeat split; try done; try lia.
  intros E. rewrite E in H2. cbn in H2. lia.
Qed.

Lemma init_facts OPS_keys a obj :
  __init__ OPS_keys a = Ok obj →
  datasetname (space obj) ≠ ""
  ∧ operations (space obj) ≠ []
  ∧ operations (space obj) ⊆ OPS_keys
  ∧ (a_op_subset a = None → operations (space obj) = OPS_keys)
  ∧ encoder_features (space obj) ≠ []
  ∧ min_mac (space obj) ≤ max_mac (space obj)
  ∧ 0 < a_base_channels_binwidth a
  ∧ a_min_base_channels a + a_base_channels_binwidth a
    ≤ a_max_base_channels a
  ∧ (2 ≤ length (base_channels_list (space obj)))%nat
  ∧ Forall (λ c, a_min_base_channels a ≤ c ≤ a_max_base_channels a
                 ∧ (c - a_min_base_channels a)
                     `mod` a_base_channels_binwidth a = 0)
      (base_channels_list (space obj))
  ∧ 0 < a_delta_channels_binwidth a
  ∧ head (delta_channels_list (space obj)) = Some (a_min_delta_channels a)
  ∧ Forall (λ c, a_min_delta_channels a ≤ c ≤ a_max_delta_channels a
                 ∧ (c - a_min_delta_channels a)
                     `mod` a_delta_channels_binwidth a = 0)
      (delta_channels_list (space obj))
  ∧ post_upsample_layers_list (space obj)
    = seqZ 1 (a_max_post_upsample_layers a)
  ∧ a_max_post_upsample_layers a ≤ 4.
Proof.
  intros Hrun. apply init_inv in Hrun
    as (Hname & Hmac & _ & _ & _ & _ & Hb & Hd & Hops & Hopsne & Hpost
        & Hpostlen & Hbcl & Hbclen & Hdcl & Hdclen & Hds & Hminmac & Hmaxmac
        & Hef).
  destruct (py_range_elems _ _ _ _ Hbcl) as (Hbpos & Hball & _); [lia| |].
  { intros E. rewrite E in Hbclen. cbn in Hbclen. lia. }
  destruct (py_range_elems _ _ _ _ Hdcl) as (Hdpos & Hdall & Hdhead); [lia| |].
  { intros E. rewrite E in Hdclen. cbn in Hdclen. lia. }
  split; [by rewrite Hds|]. split; [done|]. split.
  { rewrite Hops. destruct (match a_op_subset a with
                            | Some sub => str_split comma sub
                            | None => []
                            end); [done|].
    intros x Hx. by apply list_elem_of_filter in Hx as [_ Hx]. }
  split; [intros E; by rewrite Hops, E|].
  split.
  { rewrite Hef. by destruct (a_encoder_features a) as [[|]|]. }
  split; [by rewrite Hminmac, Hmaxmac|].
  split; [done|]. split.
  { apply py_range_inv in Hbcl as [_ Hbcl]. rewrite Hbcl in Hbclen.
    rewrite length_fmap, length_seqZ in Hbclen.
    pose proof (range_len_ge_2 (a_min_base_channels a)
                  (a_max_base_channels a + 1) (a_base_channels_binwidth a)
                  Hbpos). lia. }
  split; [lia|]. split.
  { eapply Forall_impl; [exact Hball|]. cbn. intros c [? ?]. split; [lia|done]. }
  split; [done|]. split; [done|]. split.
  { eapply Forall_impl; [exact Hdall|]. cbn. intros c [? ?]. split; [lia|done]. }
  split; [done|].
  rewrite Hpost, length_seqZ in Hpostlen. lia.
Qed.

Section init_and_mutation.
Context `{Compiler}.

(** With an empty post-upsample domain the mutation fails at line 207. *)
Lemma mutate_candidate_empty_post self base_model s :
  sanity_ok (graph_values (arch base_model)) →
  base_channels_list self ≠ [] → delta_channels_list self ≠ [] →
  post_upsample_layers_list self = [] →
  ∃ s', mutate_candidate self base_model s = (Raise ValueError, s').
Proof.
  intros (Hlen & Hlast & Hhead) Hbc Hdc Hpul. unfold mutate_candidate.
  set (graph := graph_values (arch base_model)) in *.
  rewrite bool_decide_eq_true_2 by done.
  assert (graph ≠ []) as Hne by (intros E; rewrite E in Hlen; cbn in Hlen; lia).
  destruct (py_index_last graph Hne) as (lst & El & Hl).
  destruct (py_index_ok graph 0) as (fst & Ef & Hf); [lia|].
  unfold py_assert at 1. unfold bind at 1. unfold ret at 1.
  rewrite (bind_lift_ok _ _ _ _ El).
  rewrite Hl in Hlast. injection Hlast as Hlast.
  rewrite bool_decide_eq_true_2 by done.
  unfold py_assert at 1. unfold bind at 1. unfold ret at 1.
  rewrite (bind_lift_ok _ _ _ _ Ef).
  rewrite <- head_lookup in Hf. rewrite Hf in Hhead. injection Hhead as Hhead.
  rewrite bool_decide_eq_true_2 by done.
  unfold py_assert at 1. unfold bind at 1. unfold ret at 1.
  destruct (random_neighbor_spec (base_channels_list self)
              (base_channels (channels_per_scale (arch base_model))) s Hbc)
    as (bc & s1 & E1 & _ & Hlog1).
  rewrite (bind_ok _ _ _ _ _ E1).
  destruct (random_neighbor_spec (delta_channels_list self)
              (delta_channels (channels_per_scale (arch base_model))) s1 Hdc)
    as (dc & s2 & E2 & _ & Hlog2).
  rewrite (bind_ok _ _ _ _ _ E2).
  rewrite Hpul. by exists s2.
Qed.

Lemma init_empty_post_raises OPS_keys a obj base_model patience s :
  __init__ OPS_keys a = Ok obj →
  is_Some (metadata base_model !! "archid") →
  sanity_ok (graph_values (arch base_model)) →
  1 ≤ patience →
  a_max_post_upsample_layers a ≤ 0 →
  (get_neighbors (space obj) base_model patience s).1 = Raise ValueError.
Proof.
  intros Hinit [pid Hid] Hsane Hpat Hle.
  pose proof (init_facts _ _ _ Hinit)
    as (_ & Hops & _ & _ & _ & _ & _ & _ & Hbc & _ & _ & Hdc & _ & Hpost & _).
  assert (base_channels_list (space obj) ≠ []) as Hbc'.
  { intros E. rewrite E in Hbc. cbn in Hbc. lia. }
  assert (delta_channels_list (space obj) ≠ []) as Hdc'.
  { intros E. by rewrite E in Hdc. }
  rewrite seqZ_nil in Hpost by lia.
  destruct (mutate_candidate_empty_post (space obj) base_model s
              Hsane Hbc' Hdc' Hpost) as [s' Hm].
  unfold get_neighbors. erewrite bind_raise; [done|].
  rewrite (get_neighbors_run_unfold _ _ _ _ _ Hid).
  destruct (Z.to_nat patience) as [|fuel] eqn:Efuel; [lia|].
  cbn [get_neighbors_loop nb_tries neighbors length].
  rewrite !bool_decide_eq_true_2 by (done || lia). cbn [andb].
  erewrite bind_raise; [done|].
  unfold get_neighbors_body. erewrite bind_raise; [done|]. exact Hm.
Qed.

Lemma init_space_ok OPS_keys a obj :
  __init__ OPS_keys a = Ok obj →
  1 ≤ a_max_post_upsample_layers a →
  space_ok (space obj)
  ∧ ∀ base_model s,
      sanity_ok (graph_values (arch base_model)) →
      ∃ cand s', mutate_candidate (space obj) base_model s = (Ok cand, s')
                 ∧ log s' = log s.
Proof.
  intros Hinit Hge.
  pose proof (init_facts _ _ _ Hinit)
    as (_ & Hops & _ & _ & _ & _ & _ & _ & Hbc & _ & _ & Hdc & _ & Hpost & _).
  assert (space_ok (space obj)) as Hok.
  { repeat split; try done.
    - intros E. rewrite E in Hbc. cbn in Hbc. lia.
    - intros E. by rewrite E in Hdc.
    - rewrite Hpost. intros E. apply (f_equal length) in E.
      rewrite length_seqZ in E. cbn in E. lia. }
  split; [done|]. intros base_model s Hsane.
  by apply mutate_candidate_ok.
Qed.
End init_and_mutation.

(** [split] never returns the empty list. *)
Lemma str_split_nonempty sep s : str_split sep s ≠ [].
Proof.
  destruct s as [|c s]; [done|]. cbn [str_split].
  destruct (decide (c = sep)); [done|].
  by destruct (str_split sep s).
Qed.

Lemma init_no_matching_op OPS_keys a sub :
  a_op_subset a = Some sub →
  Forall (λ op, op ∉ str_split comma sub) OPS_keys →
  __init__ OPS_keys a = Raise AssertionError.
Proof.
  intros Hsub Hnone. unfold __init__.
  destruct (bool_decide (a_datasetname a ≠ "")); [|done].
  cbn [res_assert res_bind]. rewrite Hsub.
  assert (filter (λ op, op ∈ str_split comma sub) OPS_keys = []) as Hf.
  { apply elem_of_nil_inv. intros x [Hx Hin]%list_elem_of_filter.
    rewrite Forall_forall in Hnone. by apply (Hnone x). }
  destruct (str_split comma sub) as [|w ws] eqn:Es.
  - by destruct (str_split_nonempty _ _ Es).
  - rewrite Hf. reflexivity.
Qed.

Lemma res_bind_assert_ok P `{Decision P} {B} (k : unit → result B) :
  P → (∃ b, k tt = Ok b) → ∃ b, res_bind (res_assert (bool_decide P)) k = Ok b.
Proof. intros HP Hk. by rewrite bool_decide_eq_true_2. Qed.

Lemma res_bind_ok_ex {A B} (r : result A) (k : A → result B) a :
  r = Ok a → (∃ b, k a = Ok b) → ∃ b, res_bind r k = Ok b.
Proof. by intros ->. Qed.

Lemma range_len_ge_2_iff start stop step :
  0 < step → 2 ≤ range_len start stop step ↔ start + step < stop.
Proof.
  intros Hpos. split; [by apply range_len_ge_2|]. intros Hlt.
  unfold range_len. rewrite !decide_True by lia.
  assert (1 ≤ (stop - start - 1) `div` step); [|lia].
  apply Z.div_le_lower_bound; lia.
Qed.

Lemma range_len_ge_1 start stop step :
  0 < step → start < stop → 1 ≤ range_len start stop step.
Proof.
  intros Hpos Hlt. unfold range_len. rewrite !decide_True by lia.
  assert (0 ≤ (stop - start - 1) `div` step); [|lia].
  apply Z.div_pos; lia.
Qed.

Lemma init_ok_iff OPS_keys a :
  (∃ obj, __init__ OPS_keys a = Ok obj) ↔
    a_datasetname a ≠ ""
    ∧ match a_op_subset a with
      | None => OPS_keys ≠ []
      | Some sub => ∃ op, op ∈ OPS_keys ∧ op ∈ str_split comma sub
      end
    ∧ a_min_mac a ≤ a_max_mac a
    ∧ a_min_layers a ≤ a_max_layers a
    ∧ a_max_downsample_factor a ∈ [2; 4; 8; 16]
    ∧ 0 < a_max_skip_connection_length a
    ∧ a_max_scale_delta a ∈ [1; 2; 3]
    ∧ a_max_post_upsample_layers a ≤ 4
    ∧ 0 < a_base_channels_binwidth a
    ∧ a_min_base_channels a + a_base_channels_binwidth a
      ≤ a_max_base_channels a
    ∧ 0 < a_delta_channels_binwidth a
    ∧ a_min_delta_channels a ≤ a_max_delta_channels a.
Proof.
  split.
  - intros [obj Hrun].
    pose proof (init_facts _ _ _ Hrun)
      as (_ & _ & _ & _ & _ & _ & Hbbw & Hb & _ & _ & Hdbw & _ & _ & _ & Hpost).
    apply init_inv in Hrun
      as (Hname & Hmac & Hlay & Hdf & Hskip & Hsd & _ & Hd & Hops & Hopsne
          & _).
    repeat split; try done.
    destruct (a_op_subset a) as [sub|]; [|by rewrite <- Hops].
    destruct (str_split comma sub) as [|w ws] eqn:Es;
      [by destruct (str_split_nonempty _ _ Es)|].
    destruct (operations (space obj)) as [|op ops]; [done|].
    assert (op ∈ op :: ops) as Hin by left.
    rewrite Hops in Hin. apply list_elem_of_filter in Hin as [Hin1 Hin2].
    by exists op.
  - intros (Hname & Hops & Hmac & Hlay & Hdf & Hskip & Hsd & Hpost & Hbbw & Hb
            & Hdbw & Hd).
    unfold __init__.
    apply res_bind_assert_ok; [done|]. cbv zeta.
    apply res_bind_assert_ok.
    { destruct (a_op_subset a) as [sub|].
      - destruct Hops as (op & Hin1 & Hin2).
        destruct (str_split comma sub) as [|w ws] eqn:Es; [by inversion Hin2|].
        assert (op ∈ filter (λ op, op ∈ w :: ws) OPS_keys) as Hin
          by by apply list_elem_of_filter.
        destruct (filter (λ op, op ∈ w :: ws) OPS_keys); [by inversion Hin|].
        cbn. lia.
      - destruct OPS_keys; [done|]. cbn. lia. }
    apply res_bind_assert_ok; [done|].
    apply res_bind_assert_ok; [done|].
    apply res_bind_assert_ok; [done|].
    apply res_bind_assert_ok; [lia|].
    apply res_bind_assert_ok; [done|].
    eapply res_bind_ok_ex; [apply py_range_step1|].
    apply res_bind_assert_ok; [rewrite length_seqZ; lia|].
    eapply res_bind_ok_ex.
    { unfold py_range. rewrite decide_False by lia. reflexivity. }
    apply res_bind_assert_ok; [lia|].
    apply res_bind_assert_ok.
    { rewrite length_fmap, length_seqZ.
      pose proof (proj2 (range_len_ge_2_iff (a_min_base_channels a)
                           (a_max_base_channels a + 1) _ Hbbw)). lia. }
    eapply res_bind_ok_ex.
    { unfold py_range. rewrite decide_False by lia. reflexivity. }
    apply res_bind_assert_ok; [lia|].
    apply res_bind_assert_ok.
    { rewrite length_fmap, length_seqZ.
      pose proof (range_len_ge_1 (a_min_delta_channels a)
                    (a_max_delta_channels a + 1) _ Hdbw). lia. }
    by eexists.
Qed.

(** X25: what a successful [__init__] leaves behind.  The dataset name, the
    operator list and the encoder features are non-empty, the operators are
    keys of [OPS] (all of them without [op_subset]), and the MAC window is
    ordered.  The assertions on the lengths of the two ranges force both bin
    widths to be positive and [min_base_channels + base_channels_binwidth <=
    max_base_channels]; the base domain has at least two values, the delta
    domain starts at [min_delta_channels], and every value of either domain
    lies between its bounds on the grid of its bin width.  The post-upsample
    domain is [1 .. max_post_upsample_layers], with at most four values. *)
Theorem init_establishes_domains (OPS_keys : list string) (a : InitArgs)
    (obj : SpaceObject) :
  __init__ OPS_keys a = Ok obj →
  datasetname (space obj) ≠ ""
  ∧ operations (space obj) ≠ []
  ∧ operations (space obj) ⊆ OPS_keys
  ∧ (a_op_subset a = None → operations (space obj) = OPS_keys)
  ∧ encoder_features (space obj) ≠ []
  ∧ min_mac (space obj) ≤ max_mac (space obj)
  ∧ 0 < a_base_channels_binwidth a
  ∧ a_min_base_channels a + a_base_channels_binwidth a
    ≤ a_max_base_channels a
  ∧ (2 ≤ length (base_channels_list (space obj)))%nat
  ∧ Forall (λ c, a_min_base_channels a ≤ c ≤ a_max_base_channels a
                 ∧ (c - a_min_base_channels a)
                     `mod` a_base_channels_binwidth a = 0)
      (base_channels_list (space obj))
  ∧ 0 < a_delta_channels_binwidth a
  ∧ head (delta_channels_list (space obj)) = Some (a_min_delta_channels a)
  ∧ Forall (λ c, a_min_delta_channels a ≤ c ≤ a_max_delta_channels a
                 ∧ (c - a_min_delta_channels a)
                     `mod` a_delta_channels_binwidth a = 0)
      (delta_channels_list (space obj))
  ∧ post_upsample_layers_list (space obj)
    = seqZ 1 (a_max_post_upsample_layers a)
  ∧ a_max_post_upsample_layers a ≤ 4.
Proof. apply init_facts. Qed.

Lemma init_establishes_domains_witness :
  datasetname (space default_object) ≠ ""
  ∧ operations (space default_object) ≠ []
  ∧ operations (space default_object) ⊆ ["conv"; "pool"]
  ∧ (a_op_subset (default_args "cityscapes") = None →
     operations (space default_object) = ["conv"; "pool"])
  ∧ encoder_features (space default_object) ≠ []
  ∧ min_mac (space default_object) ≤ max_mac (space default_object)
  ∧ 0 < a_base_channels_binwidth (default_args "cityscapes")
  ∧ a_min_base_channels (default_args "cityscapes")
    + a_base_channels_binwidth (default_args "cityscapes")
    ≤ a_max_base_channels (default_args "cityscapes")
  ∧ (2 ≤ length (base_channels_list (space default_object)))%nat
  ∧ Forall (λ c, a_min_base_channels (default_args "cityscapes") ≤ c
                 ≤ a_max_base_channels (default_args "cityscapes")
                 ∧ (c - a_min_base_channels (default_args "cityscapes"))
                     `mod` a_base_channels_binwidth
                             (default_args "cityscapes") = 0)
      (base_channels_list (space default_object))
  ∧ 0 < a_delta_channels_binwidth (default_args "cityscapes")
  ∧ head (delta_channels_list (space default_object))
    = Some (a_min_delta_channels (default_args "cityscapes"))
  ∧ Forall (λ c, a_min_delta_channels (default_args "cityscapes") ≤ c
                 ≤ a_max_delta_channels (default_args "cityscapes")
                 ∧ (c - a_min_delta_channels (default_args "cityscapes"))
                     `mod` a_delta_channels_binwidth
                             (default_args "cityscapes") = 0)
      (delta_channels_list (space default_object))
  ∧ post_upsample_layers_list (space default_object)
    = seqZ 1 (a_max_post_upsample_layers (default_args "cityscapes"))
  ∧ a_max_post_upsample_layers (default_args "cityscapes") ≤ 4.
Proof.
  apply (init_establishes_domains ["conv"; "pool"]
           (default_args "cityscapes") default_object).
  reflexivity.
Defined.

(** X26: [__init__] succeeds exactly when the dataset name is non-empty, some
    key of [OPS] is kept (any key without [op_subset], else one that occurs
    among the comma-separated pieces of [op_subset]), the MAC and layer
    bounds are ordered, [max_downsample_factor] is 2, 4, 8 or 16,
    [max_skip_connection_length] is positive, [max_scale_delta] is 1, 2 or 3,
    [max_post_upsample_layers] is at most 4 (zero and negative values
    included), both bin widths are positive, the base range holds at least
    two values and the delta bounds are ordered. *)
Theorem init_succeeds_iff (OPS_keys : list string) (a : InitArgs) :
  (∃ obj, __init__ OPS_keys a = Ok obj) ↔
    a_datasetname a ≠ ""
    ∧ match a_op_subset a with
      | None => OPS_keys ≠ []
      | Some sub => ∃ op, op ∈ OPS_keys ∧ op ∈ str_split comma sub
      end
    ∧ a_min_mac a ≤ a_max_mac a
    ∧ a_min_layers a ≤ a_max_layers a
    ∧ a_max_downsample_factor a ∈ [2; 4; 8; 16]
    ∧ 0 < a_max_skip_connection_length a
    ∧ a_max_scale_delta a ∈ [1; 2; 3]
    ∧ a_max_post_upsample_layers a ≤ 4
    ∧ 0 < a_base_channels_binwidth a
    ∧ a_min_base_channels a + a_base_channels_binwidth a
      ≤ a_max_base_channels a
    ∧ 0 < a_delta_channels_binwidth a
    ∧ a_min_delta_channels a ≤ a_max_delta_channels a.
Proof. apply init_ok_iff. Qed.

(** X27: when [op_subset] is given and none of its comma-separated pieces is
    a key of [OPS], [__init__] raises [AssertionError], whatever the other
    arguments are.  The empty string is such a subset: it is not [None], and
    [''.split(',')] is the one-element list [['']]. *)
Theorem init_no_matching_operator_raises (OPS_keys : list string)
    (a : InitArgs) (sub : string) :
  a_op_subset a = Some sub →
  Forall (λ op, op ∉ str_split comma sub) OPS_keys →
  __init__ OPS_keys a = Raise AssertionError.
Proof. apply init_no_matching_op. Qed.

Lemma init_no_matching_operator_raises_witness :
  __init__ ["conv"; "pool"]
    (MkInitArgs "cityscapes" None 0 (2 ^ 63 - 1) 1 12 16 true 3 1 3
       8 48 8 8 48 8 (3 # 2) (Some "") false 256)
  = Raise AssertionError.
Proof.
  apply (init_no_matching_operator_raises ["conv"; "pool"] _ "").
  - reflexivity.
  - apply (bool_decide_unpack _). reflexivity.
Defined.

(** X28: [__init__] accepts [max_post_upsample_layers <= 0], which leaves an
    empty post-upsample domain; on the object so built [get_neighbors]
    raises [ValueError] at its first attempt (line 207, [min] of an empty
    dictionary), for every base model that passes the assertions of lines
    195-197 and every [patience >= 1]. *)
Theorem init_empty_post_upsample_get_neighbors_raises `{Compiler}
    (OPS_keys : list string) (a : InitArgs) (obj : SpaceObject)
    (base_model : ArchWithMetaData) (patience : Z) (s : Env) :
  __init__ OPS_keys a = Ok obj →
  is_Some (metadata base_model !! "archid") →
  sanity_ok (graph_values (arch base_model)) →
  1 ≤ patience →
  a_max_post_upsample_layers a ≤ 0 →
  (get_neighbors (space obj) base_model patience s).1 = Raise ValueError.
Proof. apply init_empty_post_raises. Qed.

Lemma init_empty_post_upsample_get_neighbors_raises_witness :
  (get_neighbors (H := stub_compiler true true 10) (space zero_post_object)
     (stub_arch (H := stub_compiler true true 10) (stub_model chain6) "base")
     3 (env0 [1; 2; 0; 2; 1; 1; 0; 1]%nat)).1
  = Raise ValueError.
Proof.
  apply (init_empty_post_upsample_get_neighbors_raises
           (H := stub_compiler true true 10)
           ["conv"; "pool"] zero_post_args).
  - reflexivity.
  - exists (MStr "base"). reflexivity.
  - apply sanity_ok_chain6.
  - lia.
  - cbn. lia.
Defined.

(** X29: an object built by [__init__] with [max_post_upsample_layers >= 1]
    has four non-empty domains, so on it the mutation of lines 191-239
    returns a candidate, without logging, for every base model that passes
    the assertions of lines 195-197. *)
Theorem init_space_mutation_succeeds `{Compiler} (OPS_keys : list string)
    (a : InitArgs) (obj : SpaceObject) :
  __init__ OPS_keys a = Ok obj →
  1 ≤ a_max_post_upsample_layers a →
  space_ok (space obj)
  ∧ ∀ base_model s,
      sanity_ok (graph_values (arch base_model)) →
      ∃ cand s', mutate_candidate (space obj) base_model s = (Ok cand, s')
                 ∧ log s' = log s.
Proof. apply init_space_ok. Qed.

Lemma init_space_mutation_succeeds_witness :
  space_ok (space default_object)
  ∧ ∀ (base_model : @ArchWithMetaData (stub_compiler true true 10)) s,
      sanity_ok (graph_values (arch base_model)) →
      ∃ cand s',
        mutate_candidate (H := stub_compiler true true 10)
          (space default_object) base_model s = (Ok cand, s')
        ∧ log s' = log s.
Proof.
  apply (init_space_mutation_succeeds (H := stub_compiler true true 10)
           ["conv"; "pool"] (default_args "cityscapes")).
  - reflexivity.
  - cbn. lia.
Defined.

(** X30: on a model whose graph has no node, with a known feature selected,
    [get_arch_repr] raises [AssertionError] (line 301): the feature tensors
    are built from empty lists, [torch.cat] skips them all, and what it
    returns has one dimension.  Nothing is drawn or logged, and neither the
    edges nor ['archid'] are looked at. *)
Theorem get_arch_repr_empty_graph `{Compiler}
    (self : DiscreteSearchSpaceSegmentation) (a : ArchWithMetaData)
    (s : Env) :
  graph_values (arch a) = [] →
  "scale" ∈ encoder_features self ∨ "op" ∈ encoder_features self
    ∨ "channels" ∈ encoder_features self →
  get_arch_repr self a s = (Raise AssertionError, s).
Proof. apply get_arch_repr_empty. Qed.

Lemma get_arch_repr_empty_graph_witness :
  get_arch_repr (H := stub_compiler true true 10)
    (example_space ["scale"; "op"] 0 100)
    (MkArch (stub_compiler true true 10) (stub_model []) ∅)
    (env0 [])
  = (Raise AssertionError, env0 []).
Proof.
  apply (get_arch_repr_empty_graph (H := stub_compiler true true 10)).
  - reflexivity.
  - left. apply (bool_decide_unpack _). reflexivity.
Defined.
